(** * word-ai-redliner: token-map redlining, verified against its sources

    A shallow embedding of the algorithmic core of
    [src/scripts/verify-word-api.js] (the token-map strategy with its clean
    fallback) and of [src/taskpane/taskpane.js] ([handleReviewSelection] and
    [ParagraphBlock.tokenize]).

    Conventions.
    - A JavaScript string is the list of its UTF-16 code units ([jsstring]).
    - A JavaScript array is a list; [a[i]] is stdpp's lookup [a !! i].
    - A JavaScript [Set] of token indices is a [gset nat].
    - [throw] is the [Err] constructor of [result]; a [try]/[catch] is a
      [match] on it.
    - The Word host is not part of the sources.  It enters as a record
      [Host] of operations; whatever is proved holds for every host. *)

From Stdlib Require Import NArith ZArith Ascii String.
From Stdlib Require Import Sorting.Sorted Sorting.Permutation.
From stdpp Require Import base decidable option list gmap sets.

Local Open Scope nat_scope.
Local Open Scope list_scope.

(** ** JavaScript strings *)

Module JS.

(** One UTF-16 code unit. *)
Definition char16 := N.

(** A string value: its code units in order. *)
Definition jsstring := list char16.

(** An ASCII literal as a [jsstring]. *)
Fixpoint str (s : String.string) : jsstring :=
  match s with
  | EmptyString => []
  | String c s' => N_of_ascii c :: str s'
  end.

Definition between (lo hi c : N) : bool := ((lo <=? c) && (c <=? hi))%N.

(** [\w] without the [u] and [i] flags: [A-Za-z0-9_]. *)
Definition isWord (c : char16) : bool :=
  between 48 57 c || between 65 90 c || (c =? 95)%N || between 97 122 c.

(** [\s]: ECMAScript WhiteSpace and LineTerminator code points. *)
Definition isSpace (c : char16) : bool :=
  between 9 13 c || (c =? 32)%N || (c =? 160)%N || (c =? 5760)%N
  || between 8192 8202 c || (c =? 8232)%N || (c =? 8233)%N
  || (c =? 8239)%N || (c =? 8287)%N || (c =? 12288)%N || (c =? 65279)%N.

(** [[^\w\s]]. *)
Definition isOther (c : char16) : bool := negb (isWord c) && negb (isSpace c).

(** Longest prefix whose code units all satisfy [p], and what follows it:
    the greedy [+] of one character class. *)
Fixpoint span (p : char16 -> bool) (s : jsstring) : jsstring * jsstring :=
  match s with
  | [] => ([], [])
  | c :: s' =>
      if p c then let '(run, rest) := span p s' in (c :: run, rest)
      else ([], s)
  end.

(** One attempt of [/(\w+|[^\w\s]+|\s+)/] at the start of [s]: the
    alternatives are tried left to right, each one greedy.  [None] when no
    alternative matches there. *)
Definition matchAt (s : jsstring) : option (jsstring * jsstring) :=
  match span isWord s with
  | (c :: run, rest) => Some (c :: run, rest)
  | ([], _) =>
      match span isOther s with
      | (c :: run, rest) => Some (c :: run, rest)
      | ([], _) =>
          match span isSpace s with
          | (c :: run, rest) => Some (c :: run, rest)
          | ([], _) => None
          end
      end
  end.

(** The global-regex loop ([exec] until [null], or [String.match] with the
    [g] flag): match at the current position; where nothing matches the
    engine moves one code unit forward.  [fuel] bounds the iterations. *)
Fixpoint regexTokens (fuel : nat) (s : jsstring) : list jsstring :=
  match fuel with
  | 0 => []
  | S fuel' =>
      match s with
      | [] => []
      | c :: s' =>
          match matchAt s with
          | Some (tok, rest) => tok :: regexTokens fuel' rest
          | None => regexTokens fuel' s'
          end
      end
  end.

(** [chunk.match(/(\w+|[^\w\s]+|\s+)/g) || []]. *)
Definition tokenize (s : jsstring) : list jsstring :=
  regexTokens (length s) s.

(** [s.startsWith(p)]. *)
Fixpoint startsWith (s p : jsstring) {struct p} : bool :=
  match p, s with
  | [], _ => true
  | _ :: _, [] => false
  | a :: p', b :: s' => (a =? b)%N && startsWith s' p'
  end.

(** [s.slice(n)] for [0 <= n]. *)
Definition slice (s : jsstring) (n : nat) : jsstring := drop n s.

(** [s.trim()]: strips WhiteSpace and LineTerminator at both ends. *)
Fixpoint trimStart (s : jsstring) : jsstring :=
  match s with
  | c :: s' => if isSpace c then trimStart s' else s
  | [] => []
  end.

Definition trim (s : jsstring) : jsstring :=
  rev (trimStart (rev (trimStart s))).

(** Class of a code unit: exactly one of the three alternatives. *)
Inductive cclass := CWord | COther | CSpace.

Definition classOf (c : char16) : cclass :=
  if isWord c then CWord else if isSpace c then CSpace else COther.

Global Instance cclass_eq_dec : EqDecision cclass.
Proof. solve_decision. Defined.

End JS.
Import JS.

(** ** The tokenizer regex *)

Section Tokenizer.

Lemma isWord_not_isSpace c : isWord c = true -> isSpace c = false.
Proof.
  intros H.
  assert (Hb : (48 <= c <= 122)%N).
  { unfold isWord, between in H.
    repeat (apply orb_prop in H; destruct H as [H|H]);
      repeat (apply andb_prop in H; destruct H as [H ?]);
      repeat match goal with
             | X : (_ <=? _)%N = true |- _ => apply N.leb_le in X
             | X : (_ =? _)%N = true |- _ => apply N.eqb_eq in X
             end; lia. }
  unfold isSpace, between.
  repeat (apply orb_false_intro);
    repeat match goal with
           | |- (_ =? _)%N = false => apply N.eqb_neq; lia
           | |- (_ && _) = false => apply andb_false_iff
           end.
  - destruct (N.leb_spec c 13); [left; apply N.leb_gt; lia | by right].
  - left. apply N.leb_gt. lia.
Qed.

Lemma span_app p s : (span p s).1 ++ (span p s).2 = s.
Proof.
  induction s as [|c s IH]; simpl; [done|].
  destruct (p c); [|done].
  destruct (span p s) as [run rest]; simpl in *. by rewrite IH.
Qed.

Lemma span_all p s : Forall (fun c => p c = true) (span p s).1.
Proof.
  induction s as [|c s IH]; simpl; [constructor|].
  destruct (p c) eqn:E; [|constructor].
  destruct (span p s) as [run rest]; simpl in *. by constructor.
Qed.

Lemma span_stop p s c rest : (span p s).2 = c :: rest -> p c = false.
Proof.
  induction s as [|d s IH]; simpl; [done|].
  destruct (p d) eqn:E.
  - destruct (span p s) as [run r]; simpl in *. exact IH.
  - intros [= -> _]. exact E.
Qed.

Lemma span_nil_head p c s : (span p (c :: s)).1 = [] -> p c = false.
Proof.
  simpl. destruct (p c); [|done]. by destruct (span p s).
Qed.

Lemma span_spec p s run rest :
  span p s = (run, rest) ->
  run ++ rest = s /\ Forall (fun c => p c = true) run
  /\ (forall d r, rest = d :: r -> p d = false).
Proof.
  intros E. pose proof (span_app p s) as H1. pose proof (span_all p s) as H2.
  pose proof (span_stop p s) as H3. rewrite E in H1, H2, H3. simpl in *.
  split; [done|]. split; [done|]. intros d r ->. by eapply H3.
Qed.

Lemma span_head_true p c s :
  p c = true -> exists run rest, span p (c :: s) = (c :: run, rest).
Proof.
  intros H. cbn [span]. rewrite H. destruct (span p s) as [run rest]. eauto.
Qed.

Lemma span_head_false p c s : p c = false -> span p (c :: s) = ([], c :: s).
Proof. intros H. cbn [span]. by rewrite H. Qed.

Lemma classOf_word c : classOf c = CWord <-> isWord c = true.
Proof. unfold classOf. destruct (isWord c), (isSpace c); split; done. Qed.

Lemma classOf_other c : classOf c = COther <-> isOther c = true.
Proof.
  unfold classOf, isOther. destruct (isWord c), (isSpace c); split; done.
Qed.

Lemma classOf_space c : classOf c = CSpace <-> isSpace c = true.
Proof.
  unfold classOf. destruct (isWord c) eqn:E.
  - apply isWord_not_isSpace in E. rewrite E. split; done.
  - destruct (isSpace c); split; done.
Qed.

(** The predicate of the alternative that matches class [k]. *)
Definition classPred (k : cclass) : char16 -> bool :=
  match k with CWord => isWord | COther => isOther | CSpace => isSpace end.

Lemma classPred_spec k c : classPred k c = true <-> classOf c = k.
Proof.
  destruct k; simpl; symmetry;
    [apply classOf_word | apply classOf_other | apply classOf_space].
Qed.

Lemma classPred_false k c : classPred k c = false <-> classOf c <> k.
Proof.
  rewrite <- classPred_spec. destruct (classPred k c); split; done.
Qed.

(** At a non-empty input the regex always matches at the current position,
    with the maximal run of the first code unit's class. *)
Lemma matchAt_eq c s :
  matchAt (c :: s) = Some (span (classPred (classOf c)) (c :: s)).
Proof.
  unfold matchAt.
  destruct (classOf c) eqn:Ec; simpl classPred.
  - apply classOf_word in Ec.
    destruct (span_head_true isWord c s Ec) as (run & rest & ->). done.
  - assert (Hw : isWord c = false).
    { destruct (isWord c) eqn:E; [|done]. apply classOf_word in E. congruence. }
    rewrite (span_head_false _ _ _ Hw).
    apply classOf_other in Ec.
    destruct (span_head_true isOther c s Ec) as (run & rest & ->). done.
  - assert (Hw : isWord c = false).
    { destruct (isWord c) eqn:E; [|done]. apply classOf_word in E. congruence. }
    assert (Ho : isOther c = false).
    { destruct (isOther c) eqn:E; [|done]. apply classOf_other in E. congruence. }
    rewrite (span_head_false _ _ _ Hw), (span_head_false _ _ _ Ho).
    apply classOf_space in Ec.
    destruct (span_head_true isSpace c s Ec) as (run & rest & ->). done.
Qed.

Lemma matchAt_spec c s :
  exists run rest, matchAt (c :: s) = Some (c :: run, rest)
    /\ c :: run ++ rest = c :: s
    /\ Forall (fun d => classOf d = classOf c) (c :: run)
    /\ (forall d r, rest = d :: r -> classOf d <> classOf c).
Proof.
  rewrite matchAt_eq.
  assert (Hc : classPred (classOf c) c = true) by by apply classPred_spec.
  destruct (span_head_true _ c s Hc) as (run & rest & E).
  rewrite E. exists run, rest. split; [done|].
  apply span_spec in E as (Happ & Hall & Hstop).
  split; [done|]. split.
  - eapply Forall_impl; [exact Hall|]. intros d Hd. by apply classPred_spec.
  - intros d r Hr. apply classPred_false. by eapply Hstop.
Qed.

Lemma matchAt_shorter c s run rest :
  matchAt (c :: s) = Some (c :: run, rest) -> length rest <= length s.
Proof.
  intros Hm. destruct (matchAt_spec c s) as (run' & rest' & Hm' & Happ & _).
  rewrite Hm in Hm'. injection Hm' as -> ->.
  injection Happ as Happ. apply (f_equal length) in Happ.
  rewrite length_app in Happ. lia.
Qed.

Lemma regexTokens_concat fuel s :
  length s <= fuel -> concat (regexTokens fuel s) = s.
Proof.
  revert s. induction fuel as [|fuel IH]; intros s Hlen.
  - destruct s; [done|simpl in Hlen; lia].
  - destruct s as [|c s]; [done|].
    destruct (matchAt_spec c s) as (run & rest & Hm & Happ & _).
    cbn [regexTokens]. rewrite Hm. cbn [concat].
    pose proof (matchAt_shorter _ _ _ _ Hm).
    rewrite IH; [done|]. simpl in Hlen. lia.
Qed.

(** No code unit is dropped or duplicated by the tokenizer. *)
Lemma tokenize_concat s : concat (tokenize s) = s.
Proof. by apply regexTokens_concat. Qed.

(** Fuel beyond the length of the input changes nothing. *)
Lemma regexTokens_fuel fuel fuel' s :
  length s <= fuel -> length s <= fuel' ->
  regexTokens fuel s = regexTokens fuel' s.
Proof.
  revert fuel' s. induction fuel as [|fuel IH]; intros fuel' s H1 H2.
  - destruct s; [by destruct fuel'|simpl in H1; lia].
  - destruct s as [|c s]; [by destruct fuel'|].
    destruct fuel' as [|fuel']; [simpl in H2; lia|].
    destruct (matchAt_spec c s) as (run & rest & Hm & _).
    cbn [regexTokens]. rewrite Hm. f_equal.
    pose proof (matchAt_shorter _ _ _ _ Hm). simpl in *.
    apply IH; lia.
Qed.

(** The unfolding equation of the loop. *)
Lemma tokenize_cons c s :
  exists run rest, matchAt (c :: s) = Some (c :: run, rest)
    /\ tokenize (c :: s) = (c :: run) :: tokenize rest.
Proof.
  destruct (matchAt_spec c s) as (run & rest & Hm & _).
  exists run, rest. split; [done|].
  unfold tokenize. cbn [length regexTokens]. rewrite Hm. f_equal.
  pose proof (matchAt_shorter _ _ _ _ Hm).
  apply regexTokens_fuel; lia.
Qed.

Lemma tokenize_nil : tokenize [] = [].
Proof. done. Qed.

(** Class of a token: the class of its first code unit. *)
Definition tokenClass (t : jsstring) : option cclass := classOf <$> head t.

(** A run: non-empty, all code units of one class. *)
Definition isRun (t : jsstring) : Prop :=
  t <> [] /\ forall c, c ∈ t -> Some (classOf c) = tokenClass t.

(** Runs are maximal when neighbours differ in class. *)
Definition maximalRuns (toks : list jsstring) : Prop :=
  Forall isRun toks
  /\ forall i t u, toks !! i = Some t -> toks !! S i = Some u ->
       tokenClass t <> tokenClass u.

Lemma tokenize_maximalRuns s : maximalRuns (tokenize s).
Proof.
  remember (length s) as n eqn:Hn. revert s Hn.
  induction n as [n IH] using lt_wf_ind. intros s Hn.
  destruct s as [|c s]; [split; [constructor|intros i t u H; by destruct i]|].
  destruct (tokenize_cons c s) as (run & rest & Hm & ->).
  destruct (matchAt_spec c s) as (run' & rest' & Hm' & Happ & Hall & Hstop).
  rewrite Hm in Hm'. injection Hm' as <- <-.
  pose proof (matchAt_shorter _ _ _ _ Hm) as Hlen.
  destruct (IH (length rest) ltac:(simpl in Hn; lia) rest eq_refl) as [IHr IHm].
  split.
  - constructor; [|done]. split; [done|]. intros d Hd. simpl.
    rewrite Forall_forall in Hall. unfold tokenClass. simpl.
    f_equal. by apply Hall.
  - intros [|i] t u Ht Hu; simpl in *.
    + injection Ht as <-. simpl.
      destruct rest as [|d r]; [done|].
      destruct (tokenize_cons d r) as (run2 & rest2 & _ & E).
      rewrite E in Hu. injection Hu as <-. simpl.
      intros [= Heq]. by eapply Hstop.
    + by eapply IHm.
Qed.

End Tokenizer.

(** ** The diff encoding and the differ

    [computeDiff] is imported from the [office-word-diff] package
    ([src/lib/diff-wordmode.js] in ARCHITECTURE.md), whose code is not in
    the tree.  Its result is consumed as a list of pairs [(opCode, text)]
    with [opCode] in [{-1, 0, 1}]. *)

Module Diff.

(** [(opCode, text)]: [-1] delete, [0] equal, [1] insert. *)
Abbreviation DiffOp := (Z * jsstring)%type.

Definition DELETE : Z := (-1)%Z.
Definition EQUAL : Z := 0%Z.
Definition INSERT : Z := 1%Z.

(** The text an edit script reads from the original: Equal and Delete
    runs, in order. *)
Definition originalOf (ops : list DiffOp) : jsstring :=
  concat (map snd (filter (fun op => op.1 = EQUAL \/ op.1 = DELETE) ops)).

(** The text an edit script produces: Equal and Insert runs, in order. *)
Definition revisedOf (ops : list DiffOp) : jsstring :=
  concat (map snd (filter (fun op => op.1 = EQUAL \/ op.1 = INSERT) ops)).

(** Total length of the text of the runs that are not Equal. *)
Definition cost (ops : list DiffOp) : nat :=
  list_sum (map (fun op => if decide (op.1 = EQUAL) then 0 else length op.2) ops).

(** [s === t] on strings. *)
Definition streq (s t : jsstring) : bool := bool_decide (s = t).

(** Modelled from the spec: the token-level shortest edit script of the
    Text Differ (spec 4.1), missing with [office-word-diff].  The atomic
    units are tokens; an Equal run is taken at the earliest position (two
    equal heads are matched at once); otherwise the cheaper of deleting the
    head of the original and inserting the head of the revised text is
    kept, the deletion on a tie. *)
Fixpoint diffTokens (a : list jsstring) : list jsstring -> list DiffOp :=
  fix inner (b : list jsstring) : list DiffOp :=
    match a, b with
    | [], _ => map (fun t => (INSERT, t)) b
    | _, [] => map (fun t => (DELETE, t)) a
    | x :: a', y :: b' =>
        if streq x y then (EQUAL, x) :: diffTokens a' b'
        else
          let del := (DELETE, x) :: diffTokens a' b in
          let ins := (INSERT, y) :: inner b' in
          if cost del <=? cost ins then del else ins
    end.

(** Modelled from the spec: neighbouring runs of one kind are one DiffOp
    (spec 8.6: [[(0,"Start "), (1,"Middle "), (0,"End")]]). *)
Fixpoint mergeRuns (ops : list DiffOp) : list DiffOp :=
  match ops with
  | [] => []
  | (k, t) :: rest =>
      match mergeRuns rest with
      | (k', t') :: merged =>
          if decide (k = k') then (k, t ++ t') :: merged
          else (k, t) :: (k', t') :: merged
      | [] => [(k, t)]
      end
  end.

(** Modelled from the spec: [diff(original, revised)] over the units of
    a tokenizer [units]. *)
Definition computeDiffBy (units : jsstring -> list jsstring)
    (original revised : jsstring) : list DiffOp :=
  mergeRuns (diffTokens (units original) (units revised)).

(** Modelled from the spec: [computeDiff], the word-mode differ of
    [office-word-diff]: the units are the tokens of the tokenizer regex. *)
Definition computeDiff (original revised : jsstring) : list DiffOp :=
  computeDiffBy tokenize original revised.

End Diff.
Import Diff.

Section DiffFacts.

Lemma originalOf_cons k t ops :
  originalOf ((k, t) :: ops)
  = (if decide (k = EQUAL \/ k = DELETE) then t else []) ++ originalOf ops.
Proof.
  unfold originalOf. rewrite filter_cons. simpl.
  destruct (decide (k = EQUAL \/ k = DELETE)); done.
Qed.

Lemma revisedOf_cons k t ops :
  revisedOf ((k, t) :: ops)
  = (if decide (k = EQUAL \/ k = INSERT) then t else []) ++ revisedOf ops.
Proof.
  unfold revisedOf. rewrite filter_cons. simpl.
  destruct (decide (k = EQUAL \/ k = INSERT)); done.
Qed.

Lemma originalOf_equal t ops :
  originalOf ((EQUAL, t) :: ops) = t ++ originalOf ops.
Proof. by rewrite originalOf_cons. Qed.

Lemma originalOf_delete t ops :
  originalOf ((DELETE, t) :: ops) = t ++ originalOf ops.
Proof. by rewrite originalOf_cons. Qed.

Lemma originalOf_insert t ops : originalOf ((INSERT, t) :: ops) = originalOf ops.
Proof. by rewrite originalOf_cons. Qed.

Lemma revisedOf_equal t ops :
  revisedOf ((EQUAL, t) :: ops) = t ++ revisedOf ops.
Proof. by rewrite revisedOf_cons. Qed.

Lemma revisedOf_delete t ops : revisedOf ((DELETE, t) :: ops) = revisedOf ops.
Proof. by rewrite revisedOf_cons. Qed.

Lemma revisedOf_insert t ops :
  revisedOf ((INSERT, t) :: ops) = t ++ revisedOf ops.
Proof. by rewrite revisedOf_cons. Qed.

Lemma originalOf_inserts b : originalOf (map (fun t => (INSERT, t)) b) = [].
Proof. induction b as [|y b IH]; [done|]. simpl. by rewrite originalOf_cons. Qed.

Lemma revisedOf_inserts b :
  revisedOf (map (fun t => (INSERT, t)) b) = concat b.
Proof.
  induction b as [|y b IH]; [done|]. simpl. rewrite revisedOf_cons.
  simpl. by rewrite IH.
Qed.

Lemma originalOf_deletes a :
  originalOf (map (fun t => (DELETE, t)) a) = concat a.
Proof.
  induction a as [|x a IH]; [done|]. simpl. rewrite originalOf_cons.
  simpl. by rewrite IH.
Qed.

Lemma revisedOf_deletes a : revisedOf (map (fun t => (DELETE, t)) a) = [].
Proof. induction a as [|x a IH]; [done|]. simpl. by rewrite revisedOf_cons. Qed.

Definition validCode (k : Z) : Prop := k = DELETE \/ k = EQUAL \/ k = INSERT.

Lemma diffTokens_spec a b :
  originalOf (diffTokens a b) = concat a
  /\ revisedOf (diffTokens a b) = concat b
  /\ Forall (fun op => validCode op.1) (diffTokens a b).
Proof.
  revert b. induction a as [|x a IHa]; intros b.
  - assert (E : diffTokens [] b = map (fun t => (INSERT, t)) b) by by destruct b.
    rewrite E, originalOf_inserts, revisedOf_inserts. split; [done|].
    split; [done|]. apply Forall_map, Forall_true. intros t. simpl.
    unfold validCode; auto.
  - induction b as [|y b IHb].
    + change (diffTokens (x :: a) []) with (map (fun t => (DELETE, t)) (x :: a)).
      rewrite originalOf_deletes, revisedOf_deletes. split; [done|].
      split; [done|]. apply Forall_map, Forall_true. intros t. simpl.
      unfold validCode; auto.
    + change (diffTokens (x :: a) (y :: b)) with
        (if streq x y then (EQUAL, x) :: diffTokens a b
         else if cost ((DELETE, x) :: diffTokens a (y :: b))
                   <=? cost ((INSERT, y) :: diffTokens (x :: a) b)
              then (DELETE, x) :: diffTokens a (y :: b)
              else (INSERT, y) :: diffTokens (x :: a) b).
      unfold streq. case_bool_decide as Hxy.
      * subst y. destruct (IHa b) as (H1 & H2 & H3).
        rewrite originalOf_equal, revisedOf_equal, H1, H2.
        split; [done|]. split; [done|]. constructor; [|done].
        unfold validCode; auto.
      * destruct (_ <=? _).
        -- destruct (IHa (y :: b)) as (H1 & H2 & H3).
           rewrite originalOf_delete, revisedOf_delete, H1, H2.
           split; [done|]. split; [done|]. constructor; [|done].
           unfold validCode; auto.
        -- destruct IHb as (H1 & H2 & H3).
           rewrite originalOf_insert, revisedOf_insert, H1, H2.
           split; [done|]. split; [done|]. constructor; [|done].
           unfold validCode; auto.
Qed.

Lemma mergeRuns_spec ops :
  originalOf (mergeRuns ops) = originalOf ops
  /\ revisedOf (mergeRuns ops) = revisedOf ops
  /\ (Forall (fun op => validCode op.1) ops ->
      Forall (fun op => validCode op.1) (mergeRuns ops)).
Proof.
  induction ops as [|[k t] ops (IH1 & IH2 & IH3)]; [done|].
  cbn [mergeRuns]. rewrite (originalOf_cons k t ops), (revisedOf_cons k t ops).
  rewrite <- IH1, <- IH2.
  destruct (mergeRuns ops) as [|[k' t'] merged].
  - rewrite originalOf_cons, revisedOf_cons. split; [done|]. split; [done|].
    intros H. inversion H; subst. by constructor.
  - destruct (decide (k = k')) as [<-|Hne].
    + rewrite !originalOf_cons, !revisedOf_cons.
      split; [|split].
      * destruct (decide (k = EQUAL \/ k = DELETE)); [by rewrite app_assoc|done].
      * destruct (decide (k = EQUAL \/ k = INSERT)); [by rewrite app_assoc|done].
      * intros H. inversion H as [|? ? Hk Hops]; subst. specialize (IH3 Hops).
        inversion IH3; subst. by constructor.
    + rewrite (originalOf_cons k t), (revisedOf_cons k t).
      split; [done|]. split; [done|].
      intros H. inversion H as [|? ? Hk Hops]; subst. constructor; [done|].
      by apply IH3.
Qed.

Lemma computeDiffBy_spec units original revised :
  (forall s, concat (units s) = s) ->
  originalOf (computeDiffBy units original revised) = original
  /\ revisedOf (computeDiffBy units original revised) = revised
  /\ Forall (fun op => validCode op.1) (computeDiffBy units original revised).
Proof.
  intros Hu. unfold computeDiffBy.
  destruct (mergeRuns_spec (diffTokens (units original) (units revised)))
    as (H1 & H2 & H3).
  destruct (diffTokens_spec (units original) (units revised)) as (G1 & G2 & G3).
  rewrite H1, H2, G1, G2, !Hu. auto.
Qed.

End DiffFacts.

(** ** The Word host

    The host API (ranges, search, batching) is an external collaborator:
    none of its code is in the tree.  What the sources rely on is collected
    here.  Requests are queued and take effect at [context.sync()]. *)

Module Word.

Inductive InsertLocation := Before | After | Start | End | Replace.

Inductive ChangeTrackingMode := trackOff | trackAll | trackMineOnly.

(** A range handle: where the host located it when it was resolved. *)
Record Range := { rangeStart : nat; rangeLength : nat }.

(** An item of [paragraph.getTextRanges([" "], false)] with its loaded
    [text]. *)
Record CoarseRange := { coarseText : jsstring; coarseRange : Range }.

(** The mutating requests the sources queue. *)
Inductive Request :=
| SetChangeTracking (m : ChangeTrackingMode)
    (** [context.document.changeTrackingMode = m] *)
| RangeDelete (r : Range)
    (** [r.delete()] on a handle resolved in an earlier batch *)
| RangeInsertText (r : Range) (t : jsstring) (loc : InsertLocation)
    (** [r.insertText(t, loc)] on a handle resolved in an earlier batch *)
| ParagraphStartInsertText (t : jsstring) (loc : InsertLocation)
    (** [paragraph.getRange(start).insertText(t, loc)] *)
| ParagraphClear
    (** [paragraph.clear()] *)
| ParagraphInsertText (t : jsstring) (loc : InsertLocation)
    (** [paragraph.insertText(t, loc)] *)
| MatchDelete (pos len : nat)
    (** [match.delete()] on a search match resolved by the last sync *)
| CursorInsertText (pos : nat) (t : jsstring)
    (** [cursorRange.insertText(t, after)] on an empty range at [pos] *)
.

(** The paragraph under edit: its text (all changes accepted), the
    document's tracking mode, and the requests committed so far. *)
Record Doc := {
  docText : jsstring;
  changeTrackingMode : ChangeTrackingMode;
  committed : list Request
}.

(** What is taken from the host.  Nothing is assumed about these
    functions unless a statement says so. *)
Record Host := {
  (** [Word.ChangeTrackingMode] is defined in this host *)
  changeTrackingAvailable : bool;
  (** the coarse ranges of a paragraph with the given text *)
  getTextRanges : jsstring -> list CoarseRange;
  (** [scope.search(needle, {matchCase: true})]: start offsets of the
      matches inside a scope with the given text, in result order *)
  search : jsstring -> jsstring -> list nat;
  (** effect of a request on a handle resolved in an earlier batch;
      [None] when the host rejects it *)
  commitStale : Doc -> Request -> option Doc
}.

Definition setText (d : Doc) (t : jsstring) : Doc :=
  {| docText := t; changeTrackingMode := changeTrackingMode d;
     committed := committed d |}.

Definition record (d : Doc) (r : Request) : Doc :=
  {| docText := docText d; changeTrackingMode := changeTrackingMode d;
     committed := committed d ++ [r] |}.

(** Effect of one committed request. *)
Definition commit1 (h : Host) (d : Doc) (r : Request) : option Doc :=
  match r with
  | SetChangeTracking m =>
      Some {| docText := docText d; changeTrackingMode := m;
              committed := committed d ++ [r] |}
  | ParagraphClear => Some (record (setText d []) r)
  | ParagraphInsertText t Start => Some (record (setText d (t ++ docText d)) r)
  | ParagraphInsertText t End => Some (record (setText d (docText d ++ t)) r)
  | ParagraphInsertText t Replace => Some (record (setText d t) r)
  | ParagraphInsertText t _ => Some (record d r)
  | ParagraphStartInsertText t _ => Some (record (setText d (t ++ docText d)) r)
  | MatchDelete pos len =>
      Some (record (setText d (take pos (docText d) ++ drop (pos + len) (docText d))) r)
  | CursorInsertText pos t =>
      Some (record (setText d (take pos (docText d) ++ t ++ drop pos (docText d))) r)
  | RangeDelete _ | RangeInsertText _ _ _ => commitStale h d r
  end.

(** A batch is committed in queue order; at the first rejected request the
    sync fails and the paragraph stays as the host left it. *)
Fixpoint commit (h : Host) (d : Doc) (batch : list Request) : Doc * bool :=
  match batch with
  | [] => (d, true)
  | r :: batch' =>
      match commit1 h d r with
      | Some d' => commit h d' batch'
      | None => (d, false)
      end
  end.

(** The first reported match is the leftmost exact occurrence. *)
Definition occursAt (hay needle : jsstring) (p : nat) : Prop :=
  take (length needle) (drop p hay) = needle.


End Word.
Import Word.

(** ** Code that queues requests and may throw *)

Module Run.

Inductive result (E A : Type) :=
| Ok (a : A)
| Err (e : E).
Arguments Ok {E A} a.
Arguments Err {E A} e.

(** The [Error]s the sources construct, and a rejected sync. *)
Inductive error :=
| TokenMappingFailed (tokenText : jsstring)
    (** [`Token mapping failed for "${proxy.text}"`] *)
| MapLookupFailed
    (** ["Map lookup failed: Token mismatch."] *)
| LostSyncOnChunk (chunk : jsstring)
    (** [`Lost sync on chunk: ${chunk.slice(0, 20)}...`] *)
| LostSyncOnDelete (chunk : jsstring)
    (** [`Lost sync on delete: ${chunk.slice(0, 20)}...`] *)
| HostRejected
    (** [await context.sync()] rejected *)
.

(** What the script has done to the request context, in program order. *)
Inductive Event :=
| Queued (r : Request)
| Synced (accepted : bool).

Record World := {
  doc : Doc;
  pending : list Request;
  events : list Event
}.

Definition M (A : Type) : Type := World -> result error A * World.

Definition ret {A} (a : A) : M A := fun w => (Ok a, w).

Definition bind {A B} (m : M A) (k : A -> M B) : M B :=
  fun w => match m w with
           | (Ok a, w') => k a w'
           | (Err e, w') => (Err e, w')
           end.

Definition throw {A} (e : error) : M A := fun w => (Err e, w).

(** [try { m } catch (e) { handler e }]. *)
Definition tryCatch {A} (m : M A) (handler : error -> M A) : M A :=
  fun w => match m w with
           | (Ok a, w') => (Ok a, w')
           | (Err e, w') => handler e w'
           end.

Definition lift {A} (r : result error A) : M A := fun w => (r, w).

Definition getDoc : M Doc := fun w => (Ok (doc w), w).

(** Queue one request on the context. *)
Definition queue (r : Request) : M unit :=
  fun w => (Ok tt, {| doc := doc w; pending := pending w ++ [r];
                      events := events w ++ [Queued r] |}).

(** [await context.sync()]. *)
Definition sync (h : Host) : M unit :=
  fun w =>
    let '(d, accepted) := commit h (doc w) (pending w) in
    let w' := {| doc := d; pending := [];
                 events := events w ++ [Synced accepted] |} in
    if accepted then (Ok tt, w') else (Err HostRejected, w').

Fixpoint forEach {A} (f : A -> M unit) (l : list A) : M unit :=
  match l with
  | [] => ret tt
  | a :: l' => bind (f a) (fun _ => forEach f l')
  end.

End Run.
Import Run.

Notation "'do' x <- m ; k" := (bind m (fun x => k))
  (at level 10, x name, m at level 100, k at level 200).
Notation "'exec' m ; k" := (bind m (fun _ => k))
  (at level 10, m at level 100, k at level 200).

(** ** The token-map strategy ([verifyTokenMapStrategy])

    The script runs the strategy on two fixed legal texts; the embedding
    keeps [text1] and [text2] as arguments. *)

Module TokenMap.

(** An entry of [fineTokens] once [index] is assigned. *)
Record Token := { index : nat; text : jsstring; range : Range }.

(** An entry of [searchProxies]. *)
Record SearchProxy := {
  proxyText : jsstring;
  results : list Range;
  proxyCoarseText : jsstring
}.

(** [coarseRange.search(tokenText, { matchCase: true })], once loaded. *)
Definition searchIn (h : Host) (cr : CoarseRange) (tokenText : jsstring)
    : list Range :=
  map (fun off => {| rangeStart := rangeStart (coarseRange cr) + off;
                     rangeLength := length tokenText |})
      (search h (coarseText cr) tokenText).

(** Step 2, "Queue all searches": one proxy per regex match of each coarse
    text, in order; matches of length zero are skipped. *)
Definition queueSearches (h : Host) (coarseRanges : list CoarseRange)
    : list SearchProxy :=
  flat_map
    (fun cr =>
       map (fun tokenText =>
              {| proxyText := tokenText;
                 results := searchIn h cr tokenText;
                 proxyCoarseText := coarseText cr |})
           (filter (fun tokenText => length tokenText <> 0)
                   (tokenize (coarseText cr))))
    coarseRanges.

(** Step 3, "Process results": the first match of each proxy, or a throw
    at the first proxy without a match. *)
Fixpoint processResults (proxies : list SearchProxy)
    (fineTokens : list (jsstring * Range))
    : result error (list (jsstring * Range)) :=
  match proxies with
  | [] => Ok fineTokens
  | proxy :: proxies' =>
      match results proxy with
      | item0 :: _ =>
          processResults proxies' (fineTokens ++ [(proxyText proxy, item0)])
      | [] => Err (TokenMappingFailed (proxyText proxy))
      end
  end.

(** [fineTokens.forEach((t, i) => t.index = i)]. *)
Definition assignIndex (fineTokens : list (jsstring * Range)) : list Token :=
  imap (fun i t => {| index := i; text := t.1; range := t.2 |}) fineTokens.

(** "Build Refined Token Map". *)
Definition buildTokenMap (h : Host) (coarseRanges : list CoarseRange)
    : result error (list Token) :=
  match processResults (queueSearches h coarseRanges) [] with
  | Ok fineTokens => Ok (assignIndex fineTokens)
  | Err e => Err e
  end.

(** *** Pass 1: identify deletions *)

(** The inner [for] of a Delete op: [count] rounds, each one guarded by
    [tokenIndex < fineTokens.length]. *)
Fixpoint collectDeletes (count : nat) (fineTokens : list Token)
    (deleteTargets : list Token) (tokenIndex : nat) : list Token * nat :=
  match count with
  | 0 => (deleteTargets, tokenIndex)
  | S count' =>
      match fineTokens !! tokenIndex with
      | Some t =>
          collectDeletes count' fineTokens (deleteTargets ++ [t]) (S tokenIndex)
      | None => collectDeletes count' fineTokens deleteTargets tokenIndex
      end
  end.

(** One round of the outer [for (const [op, chunk] of diffs)]. *)
Definition pass1Step (fineTokens : list Token) (st : list Token * nat)
    (d : DiffOp) : list Token * nat :=
  let '(deleteTargets, tokenIndex) := st in
  let '(op, chunk) := d in
  if decide (op = 0%Z) then
    (deleteTargets, tokenIndex + length (tokenize chunk))
  else if decide (op = (-1)%Z) then
    collectDeletes (length (tokenize chunk)) fineTokens deleteTargets tokenIndex
  else st.

Definition pass1From (fineTokens : list Token) (st : list Token * nat)
    (diffs : list DiffOp) : list Token * nat :=
  foldl (pass1Step fineTokens) st diffs.

(** Pass 1 from [deleteTargets = []], [tokenIndex = 0]. *)
Definition pass1 (diffs : list DiffOp) (fineTokens : list Token)
    : list Token * nat :=
  pass1From fineTokens ([], 0) diffs.

(** *** Pass 2: identify insertions *)

(** Where an insert is anchored. *)
Inductive Anchor :=
| AtRange (r : Range)       (** a token's [range] *)
| AtParagraphStart          (** [paragraph.getRange(start)] *).

Record InsertOp := {
  anchor : Anchor;
  location : InsertLocation;
  insertText : jsstring
}.

(** [new Set(deleteTargets.map(t => t.index))]. *)
Definition deletedIndices (deleteTargets : list Token) : gset nat :=
  list_to_set (map index deleteTargets).

(** [fineTokens.filter(t => !deletedIndices.has(t.index))]. *)
Definition tokensAfterDeletes (fineTokens deleteTargets : list Token)
    : list Token :=
  filter (fun t => index t ∉ deletedIndices deleteTargets) fineTokens.

(** The [while] of an Equal op.  Every round that does not throw moves
    [currentTokenIdx] forward, so [fuel] rounds are enough as soon as
    [fuel] is the number of tokens. *)
Fixpoint consumeEqual (fuel : nat) (tokens : list Token)
    (textToConsume : jsstring) (currentTokenIdx : nat)
    (lastAnchorRange : option Range) : result error (nat * option Range) :=
  match fuel with
  | 0 => Ok (currentTokenIdx, lastAnchorRange)
  | S fuel' =>
      if bool_decide (0 < length textToConsume) then
        match tokens !! currentTokenIdx with
        | Some token =>
            if startsWith textToConsume (text token) then
              consumeEqual fuel' tokens
                (slice textToConsume (length (text token)))
                (S currentTokenIdx) (Some (range token))
            else Err MapLookupFailed
        | None => Ok (currentTokenIdx, lastAnchorRange)
        end
      else Ok (currentTokenIdx, lastAnchorRange)
  end.

(** State of the second walk. *)
Record Pass2 := {
  insertOps : list InsertOp;
  currentTokenIdx : nat;
  lastAnchorRange : option Range
}.

(** One round of the second [for (const [op, chunk] of diffs)]. *)
Definition pass2Step (tokens : list Token) (st : Pass2) (d : DiffOp)
    : result error Pass2 :=
  let '(op, chunk) := d in
  if decide (op = 0%Z) then
    match consumeEqual (length tokens) tokens chunk
            (currentTokenIdx st) (lastAnchorRange st) with
    | Ok (idx, last) =>
        Ok {| insertOps := insertOps st; currentTokenIdx := idx;
              lastAnchorRange := last |}
    | Err e => Err e
    end
  else if decide (op = 1%Z) then
    match lastAnchorRange st with
    | Some r =>
        Ok {| insertOps := insertOps st ++
                [{| anchor := AtRange r; location := After;
                    insertText := chunk |}];
              currentTokenIdx := currentTokenIdx st;
              lastAnchorRange := lastAnchorRange st |}
    | None =>
        Ok {| insertOps := insertOps st ++
                [{| anchor := AtParagraphStart; location := Before;
                    insertText := chunk |}];
              currentTokenIdx := currentTokenIdx st;
              lastAnchorRange := lastAnchorRange st |}
    end
  else Ok st.

Fixpoint pass2From (tokens : list Token) (st : Pass2) (diffs : list DiffOp)
    : result error Pass2 :=
  match diffs with
  | [] => Ok st
  | d :: diffs' =>
      match pass2Step tokens st d with
      | Ok st' => pass2From tokens st' diffs'
      | Err e => Err e
      end
  end.

Definition pass2Init : Pass2 :=
  {| insertOps := []; currentTokenIdx := 0; lastAnchorRange := None |}.

(** Pass 2 over the tokens that survive the deletions. *)
Definition pass2 (diffs : list DiffOp) (fineTokens deleteTargets : list Token)
    : result error Pass2 :=
  pass2From (tokensAfterDeletes fineTokens deleteTargets) pass2Init diffs.

(** *** Execution phase *)

(** Stable insertion sort under a JavaScript comparator: [a] goes after
    [b] when [cmp a b > 0]. *)
Fixpoint insertSorted {A} (cmp : A -> A -> Z) (a : A) (l : list A) : list A :=
  match l with
  | [] => [a]
  | b :: l' =>
      if (cmp a b <=? 0)%Z then a :: b :: l' else b :: insertSorted cmp a l'
  end.

(** [l.sort(cmp)]. *)
Definition sort {A} (cmp : A -> A -> Z) (l : list A) : list A :=
  foldr (insertSorted cmp) [] l.

(** [(a, b) => b.index - a.index]. *)
Definition byIndexDescending (a b : Token) : Z :=
  (Z.of_nat (index b) - Z.of_nat (index a))%Z.

(** What the execution phase does, in program order. *)
Inductive Action :=
| SetTracking (m : ChangeTrackingMode)
| DeleteToken (t : Token)
| InsertAt (op : InsertOp).

Definition requestOf (a : Action) : Request :=
  match a with
  | SetTracking m => SetChangeTracking m
  | DeleteToken t => RangeDelete (range t)
  | InsertAt op =>
      match anchor op with
      | AtRange r => RangeInsertText r (insertText op) (location op)
      | AtParagraphStart => ParagraphStartInsertText (insertText op) (location op)
      end
  end.

(** Steps 1 to 4 of the execution phase, before the sync. *)
Definition executionActions (h : Host) (deleteTargets : list Token)
    (insertOps : list InsertOp) : list Action :=
  (if changeTrackingAvailable h then [SetTracking trackAll] else [])
  ++ map DeleteToken (sort byIndexDescending deleteTargets)
  ++ map InsertAt insertOps
  ++ (if changeTrackingAvailable h then [SetTracking trackOff] else []).

(** The body of the [try] block, after the setup sync. *)
Definition primary (h : Host) (text1 text2 : jsstring) : M unit :=
  let diffs := computeDiff text1 text2 in
  do d <- getDoc;
  let coarseRanges := getTextRanges h (docText d) in
  exec sync h;
  exec sync h;
  do fineTokens <- lift (buildTokenMap h coarseRanges);
  let '(deleteTargets, _) := pass1 diffs fineTokens in
  do p2 <- lift (pass2 diffs fineTokens deleteTargets);
  exec forEach (fun a => queue (requestOf a))
         (executionActions h deleteTargets (insertOps p2));
  sync h.

End TokenMap.
Import TokenMap.

(** ** The fallback *)

Module Fallback.

(** The replay loop of [verifyChunkSearch]: a cursor walks the paragraph;
    Equal and Delete chunks are located by a search from the cursor to the
    end of the paragraph, whose results are read after a sync; inserts go
    right after the cursor. *)
Fixpoint replay (h : Host) (diffs : list DiffOp) (cursor : nat) : M unit :=
  match diffs with
  | [] => ret tt
  | (op, chunk) :: diffs' =>
      if decide (op = 0%Z) then
        exec sync h;
        do d <- getDoc;
        match search h (drop cursor (docText d)) chunk with
        | p :: _ => replay h diffs' (cursor + p + length chunk)
        | [] => throw (LostSyncOnChunk (take 20 chunk))
        end
      else if decide (op = (-1)%Z) then
        exec sync h;
        do d <- getDoc;
        match search h (drop cursor (docText d)) chunk with
        | p :: _ =>
            exec queue (MatchDelete (cursor + p) (length chunk));
            exec sync h;
            replay h diffs' cursor
        | [] => throw (LostSyncOnDelete (take 20 chunk))
        end
      else if decide (op = 1%Z) then
        exec queue (CursorInsertText cursor chunk);
        exec sync h;
        replay h diffs' (cursor + length chunk)
      else replay h diffs' cursor
  end.

(** The chunking of the secondary strategy: any partition of a text into
    consecutive pieces (spec 9, open question). *)
Record Chunker := {
  chunks : jsstring -> list jsstring;
  chunks_concat : forall s, concat (chunks s) = s
}.

(** Modelled from the spec: [applySentenceDiffStrategy] of
    [office-word-diff], missing from the tree: the diff of the two texts
    at the granularity of the chunker, replayed from the start of the
    paragraph by direct text search (spec 4.5, step 2). *)
Definition applySentenceDiffStrategy (h : Host) (c : Chunker)
    (text1 text2 : jsstring) : M unit :=
  replay h (computeDiffBy (chunks c) text1 text2) 0.

(** The [catch] block: reset the paragraph to [text1], then the sentence
    diff strategy. *)
Definition cleanFallback (h : Host) (c : Chunker) (text1 text2 : jsstring)
    : M unit :=
  exec queue ParagraphClear;
  exec queue (ParagraphInsertText text1 Start);
  exec sync h;
  applySentenceDiffStrategy h c text1 text2.

(** [verifyTokenMapStrategy], from the [try] on. *)
Definition verifyTokenMapStrategy (h : Host) (c : Chunker)
    (text1 text2 : jsstring) : M unit :=
  tryCatch (primary h text1 text2) (fun _ => cleanFallback h c text1 text2).

(** The world after the setup ([insertParagraph(text1)], SYNC 1). *)
Definition baseline (text1 : jsstring) (m : ChangeTrackingMode) : World :=
  {| doc := {| docText := text1; changeTrackingMode := m; committed := [] |};
     pending := []; events := [] |}.

End Fallback.
Import Fallback.

(** ** [ParagraphBlock] ([taskpane.js]) *)

Module Structure.

Record ParagraphBlock := {
  tokens : list Token;
  blockText : jsstring
}.

(** The second loop of [ParagraphBlock.tokenize]: one token per coarse
    range, [this.text] grown by each range's text. *)
Fixpoint buildMap (items : list CoarseRange) (i : nat) (b : ParagraphBlock)
    : ParagraphBlock :=
  match items with
  | [] => b
  | item :: items' =>
      buildMap items' (S i)
        {| tokens := tokens b ++ [{| index := i; text := coarseText item;
                                     range := coarseRange item |}];
           blockText := blockText b ++ coarseText item |}
  end.

(** [ParagraphBlock.tokenize] on a paragraph with the given text. *)
Definition tokenizeBlock (h : Host) (paragraphText : jsstring)
    : ParagraphBlock :=
  buildMap (getTextRanges h paragraphText) 0 {| tokens := []; blockText := [] |}.

End Structure.
Import Structure.

(** ** Token completeness *)

Section TokenCompleteness.

Lemma tokenize_nonempty s : Forall (fun t => length t <> 0) (tokenize s).
Proof.
  destruct (tokenize_maximalRuns s) as [H _].
  eapply Forall_impl; [exact H|]. intros t [Hne _]. by destruct t.
Qed.

Lemma filter_all {A} (P : A -> Prop) `{!forall x, Decision (P x)} (l : list A) :
  Forall P l -> filter P l = l.
Proof.
  induction 1 as [|x l Hx _ IH]; [done|].
  rewrite filter_cons. destruct (decide (P x)); [by rewrite IH|done].
Qed.

Lemma processResults_ok proxies acc fineTokens :
  processResults proxies acc = Ok fineTokens ->
  map fst fineTokens = map fst acc ++ map proxyText proxies
  /\ Forall (fun p => results p <> []) proxies
  /\ length fineTokens = length acc + length proxies.
Proof.
  revert acc. induction proxies as [|p ps IH]; intros acc H; simpl in H.
  - injection H as <-. rewrite app_nil_r. simpl. auto with lia.
  - destruct (results p) as [|item0 items] eqn:E; [done|].
    apply IH in H as (H1 & H2 & H3). split; [|split].
    + rewrite H1, map_app. simpl. by rewrite <- app_assoc.
    + constructor; [by rewrite E|done].
    + rewrite H3, length_app. simpl. lia.
Qed.

Lemma processResults_err proxies acc e :
  processResults proxies acc = Err e ->
  exists before p after,
    proxies = before ++ p :: after
    /\ Forall (fun q => results q <> []) before
    /\ results p = [] /\ e = TokenMappingFailed (proxyText p).
Proof.
  revert acc. induction proxies as [|p ps IH]; intros acc H; simpl in H; [done|].
  destruct (results p) as [|item0 items] eqn:E.
  - injection H as <-. exists [], p, ps. by repeat split.
  - apply IH in H as (before & q & after & -> & Hb & Hq & ->).
    exists (p :: before), q, after. repeat split; [|done].
    constructor; [by rewrite E|done].
Qed.

Lemma processResults_total proxies acc :
  Forall (fun p => results p <> []) proxies ->
  exists fineTokens, processResults proxies acc = Ok fineTokens.
Proof.
  intros H. revert acc. induction H as [|p ps Hp _ IH]; intros acc; simpl.
  - eauto.
  - destruct (results p); [done|]. apply IH.
Qed.

Lemma queueSearches_texts h coarseRanges :
  map proxyText (queueSearches h coarseRanges)
  = flat_map (fun cr => tokenize (coarseText cr)) coarseRanges.
Proof.
  unfold queueSearches. induction coarseRanges as [|cr crs IH]; [done|].
  simpl. rewrite map_app, IH, map_map. simpl. rewrite map_id.
  by rewrite (filter_all _ _ (tokenize_nonempty _)).
Qed.

Lemma concat_flat_map_tokenize (coarseRanges : list CoarseRange) :
  concat (flat_map (fun cr => tokenize (coarseText cr)) coarseRanges)
  = concat (map coarseText coarseRanges).
Proof.
  induction coarseRanges as [|cr crs IH]; [done|].
  simpl. by rewrite concat_app, IH, tokenize_concat.
Qed.

Lemma assignIndex_text fineTokens :
  map text (assignIndex fineTokens) = map fst fineTokens.
Proof.
  unfold assignIndex. apply list_eq. intros i. rewrite !list_lookup_fmap, list_lookup_imap.
  by destruct (fineTokens !! i).
Qed.

Lemma assignIndex_lookup fineTokens i t :
  assignIndex fineTokens !! i = Some t -> index t = i.
Proof.
  unfold assignIndex. rewrite list_lookup_imap.
  destruct (fineTokens !! i); [|done]. by intros [= <-].
Qed.

Lemma assignIndex_length fineTokens :
  length (assignIndex fineTokens) = length fineTokens.
Proof. apply length_imap. Qed.

Lemma buildMap_spec items i b :
  map text (tokens (buildMap items i b))
  = map text (tokens b) ++ map coarseText items
  /\ blockText (buildMap items i b) = blockText b ++ concat (map coarseText items)
  /\ (forall j t, tokens (buildMap items i b) !! j = Some t ->
        length (tokens b) = i ->
        (forall k u, tokens b !! k = Some u -> index u = k) -> index t = j).
Proof.
  revert i b. induction items as [|item items IH]; intros i b.
  - simpl. rewrite !app_nil_r. split; [done|]. split; [done|]. auto.
  - simpl. destruct (IH (S i) {| tokens := tokens b ++ [{| index := i;
        text := coarseText item; range := coarseRange item |}];
        blockText := blockText b ++ coarseText item |}) as (H1 & H2 & H3).
    split; [|split].
    + rewrite H1. simpl. rewrite map_app. simpl. by rewrite <- app_assoc.
    + rewrite H2. simpl. by rewrite <- app_assoc.
    + intros j t Hj Hlen Hidx. apply (H3 j t Hj); simpl.
      * rewrite length_app. simpl. lia.
      * intros k u Hk. apply lookup_app_Some in Hk as [Hk|[Hge Hk]].
        -- by apply Hidx.
        -- apply list_lookup_singleton_Some in Hk as [Hk <-]. simpl. lia.
Qed.

End TokenCompleteness.

(** ** Hosts for the examples *)

Module Hosts.

(** Coarse ranges that end after each space, spaces kept. *)
Fixpoint splitAfterSpace (s : jsstring) (piece : jsstring) : list jsstring :=
  match s with
  | [] => match piece with [] => [] | _ => [piece] end
  | c :: s' =>
      if (c =? 32)%N then (piece ++ [c]) :: splitAfterSpace s' []
      else splitAfterSpace s' (piece ++ [c])
  end.

(** Pieces with their start offsets. *)
Fixpoint located (pieces : list jsstring) (start : nat) : list CoarseRange :=
  match pieces with
  | [] => []
  | p :: pieces' =>
      {| coarseText := p;
         coarseRange := {| rangeStart := start; rangeLength := length p |} |}
      :: located pieces' (start + length p)
  end.

(** Offsets [from, from + 1, ...] at which [needle] occurs, [n] candidates. *)
Fixpoint occurrences (hay needle : jsstring) (from n : nat) : list nat :=
  match n with
  | 0 => []
  | S n' =>
      if startsWith (drop from hay) needle
      then from :: occurrences hay needle (S from) n'
      else occurrences hay needle (S from) n'
  end.

(** Case-sensitive exact search: every occurrence, left to right. *)
Definition exactSearch (hay needle : jsstring) : list nat :=
  occurrences hay needle 0 (S (length hay)).

(** A host that finds exactly the needles it can search for, and rejects
    every edit through a handle of an earlier batch. *)
Definition strictHost (searchable : jsstring -> bool) : Host :=
  {| changeTrackingAvailable := true;
     getTextRanges := fun t => located (splitAfterSpace t []) 0;
     search := fun hay needle =>
       if searchable needle then exactSearch hay needle else [];
     commitStale := fun _ _ => None |}.

(** Handles keep their place under the edits committed since they were
    resolved: an offset moves right by the text inserted before it and
    left by the text deleted before it.  Text inserted at an offset sits
    after the ranges that end there and before those that start there. *)
Definition counted (b o : nat) (atEnd : bool) : bool :=
  (b <? o) || ((b =? o) && negb atEnd).

Definition insertedBefore (hist : list Request) (o : nat) (atEnd : bool)
    : nat :=
  list_sum
    (map (fun r =>
            match r with
            | RangeInsertText rg t After =>
                if counted (rangeStart rg + rangeLength rg) o atEnd
                then length t else 0
            | RangeInsertText rg t Before =>
                if counted (rangeStart rg) o atEnd then length t else 0
            | ParagraphStartInsertText t _ =>
                if counted 0 o atEnd then length t else 0
            | _ => 0
            end) hist).

Definition deletedBefore (hist : list Request) (o : nat) : nat :=
  list_sum
    (map (fun r =>
            match r with
            | RangeDelete rg => min (rangeLength rg) (o - rangeStart rg)
            | _ => 0
            end) hist).

Definition relocate (hist : list Request) (o : nat) (atEnd : bool) : nat :=
  o + insertedBefore hist o atEnd - deletedBefore hist o.

(** Requests that replace the paragraph or edit it by position leave the
    earlier handles without a place. *)
Definition handlesValid (hist : list Request) : bool :=
  forallb (fun r =>
             match r with
             | ParagraphClear | ParagraphInsertText _ _
             | MatchDelete _ _ | CursorInsertText _ _ => false
             | _ => true
             end) hist.

Definition commitRelocated (d : Doc) (r : Request) : option Doc :=
  if handlesValid (committed d) then
    match r with
    | RangeDelete rg =>
        let from := relocate (committed d) (rangeStart rg) false in
        let to := relocate (committed d) (rangeStart rg + rangeLength rg) true in
        Some (record (setText d (take from (docText d) ++ drop to (docText d))) r)
    | RangeInsertText rg t After =>
        let p := relocate (committed d) (rangeStart rg + rangeLength rg) true in
        Some (record (setText d (take p (docText d) ++ t ++ drop p (docText d))) r)
    | RangeInsertText rg t Before =>
        let p := relocate (committed d) (rangeStart rg) false in
        Some (record (setText d (take p (docText d) ++ t ++ drop p (docText d))) r)
    | _ => None
    end
  else None.

(** A host with exact search whose handles follow the edits. *)
Definition trackingHost : Host :=
  {| changeTrackingAvailable := true;
     getTextRanges := fun t => located (splitAfterSpace t []) 0;
     search := exactSearch;
     commitStale := commitRelocated |}.

End Hosts.
Import Hosts.

Section HostFacts.

Lemma startsWith_spec s p : startsWith s p = true <-> exists r, s = p ++ r.
Proof.
  revert s. induction p as [|a p IH]; intros s.
  - destruct s; simpl; split; eauto.
  - destruct s as [|b s]; simpl.
    + split; [done|]. by intros [r ?].
    + rewrite andb_true_iff, N.eqb_eq, IH. split.
      * intros [-> [r ->]]. eauto.
      * intros [r [= -> ->]]. eauto.
Qed.

Lemma startsWith_occursAt hay needle p :
  startsWith (drop p hay) needle = true <-> occursAt hay needle p.
Proof.
  unfold occursAt. rewrite startsWith_spec. split.
  - intros [r ->]. by rewrite take_app_length.
  - intros H. exists (drop (length needle) (drop p hay)).
    rewrite <- H at 1. by rewrite take_drop.
Qed.

Lemma splitAfterSpace_concat s piece :
  concat (splitAfterSpace s piece) = piece ++ s.
Proof.
  revert piece. induction s as [|c s IH]; intros piece; simpl.
  - destruct piece; [done|]. simpl. by rewrite !app_nil_r.
  - destruct (c =? 32)%N; simpl; rewrite IH; by rewrite <- app_assoc.
Qed.

Lemma located_texts pieces start :
  map coarseText (located pieces start) = pieces.
Proof.
  revert start. induction pieces as [|p ps IH]; intros start; [done|].
  simpl. by rewrite IH.
Qed.

Lemma strictHost_cover searchable t :
  concat (map coarseText (getTextRanges (strictHost searchable) t)) = t.
Proof. simpl. by rewrite located_texts, splitAfterSpace_concat. Qed.




End HostFacts.

(** ** C4 *)

(** C4. The tokenizer regex [(\w+|[^\w\s]+|\s+)] splits every string into
    maximal runs whose concatenation, in order, is the string itself.
    Consequently a token map built over a range whose coarse ranges cover
    its text has indices [0 .. N-1] in document order and token texts that
    concatenate, in index order, to the text of the range; the same holds
    for [ParagraphBlock.tokenize]. *)
Theorem token_completeness (h : Host) (rangeText : jsstring) :
  concat (map coarseText (getTextRanges h rangeText)) = rangeText ->
  (forall s, concat (tokenize s) = s /\ maximalRuns (tokenize s))
  /\ (forall fineTokens,
        buildTokenMap h (getTextRanges h rangeText) = Ok fineTokens ->
        concat (map text fineTokens) = rangeText
        /\ forall i t, fineTokens !! i = Some t -> index t = i)
  /\ (concat (map text (tokens (tokenizeBlock h rangeText))) = rangeText
      /\ blockText (tokenizeBlock h rangeText) = rangeText
      /\ forall i t, tokens (tokenizeBlock h rangeText) !! i = Some t ->
           index t = i).
Proof.
  intros Hcover. split; [|split].
  - intros s. split; [apply tokenize_concat|apply tokenize_maximalRuns].
  - intros fineTokens Hb. unfold buildTokenMap in Hb.
    destruct (processResults _ _) as [ft|e] eqn:E; [|done].
    injection Hb as <-. split.
    + apply processResults_ok in E as (E & _ & _).
      rewrite assignIndex_text, E. simpl.
      by rewrite queueSearches_texts, concat_flat_map_tokenize.
    + apply assignIndex_lookup.
  - unfold tokenizeBlock.
    destruct (buildMap_spec (getTextRanges h rangeText) 0
                {| tokens := []; blockText := [] |}) as (H1 & H2 & H3).
    split; [by rewrite H1|]. split; [by rewrite H2|].
    intros i t Hi. by apply (H3 i t Hi).
Qed.

(** ["Start End"] on a host that splits after spaces. *)
Lemma token_completeness_witness :
  let h := strictHost (fun _ => true) in
  let rangeText := str "Start End" in
  concat (map coarseText (getTextRanges h rangeText)) = rangeText
  /\ exists fineTokens,
       buildTokenMap h (getTextRanges h rangeText) = Ok fineTokens
       /\ concat (map text fineTokens) = rangeText.
Proof.
  intros h rangeText.
  assert (Hc : concat (map coarseText (getTextRanges h rangeText)) = rangeText)
    by reflexivity.
  split; [exact Hc|].
  destruct (token_completeness h rangeText Hc) as (_ & H & _).
  eexists. split; [vm_compute; reflexivity|].
  apply H. vm_compute. reflexivity.
Defined.

(** ** C3 *)

(** Spec 8.6: ["Start End"] against ["Start Middle End"]. *)
Example computeDiff_start_middle_end :
  computeDiff (str "Start End") (str "Start Middle End")
  = [(EQUAL, str "Start "); (INSERT, str "Middle "); (EQUAL, str "End")].
Proof. vm_compute. reflexivity. Qed.

(** Nothing in common: one Delete run and one Insert run. *)
Example computeDiff_disjoint :
  computeDiff (str "alpha") (str "beta")
  = [(DELETE, str "alpha"); (INSERT, str "beta")].
Proof. vm_compute. reflexivity. Qed.

(** C3. For every pair of strings, [computeDiff original revised] is a
    list of [(opCode, text)] pairs with [opCode] in [{-1, 0, 1}]; the texts
    of its Equal and Delete ops, in order, concatenate to [original], and
    the texts of its Equal and Insert ops concatenate to [revised].  The
    function is total: it returns such a script for every input. *)
Theorem computeDiff_round_trip (original revised : jsstring) :
  Forall (fun op => op.1 = (-1)%Z \/ op.1 = 0%Z \/ op.1 = 1%Z)
         (computeDiff original revised)
  /\ originalOf (computeDiff original revised) = original
  /\ revisedOf (computeDiff original revised) = revised.
Proof.
  destruct (computeDiffBy_spec tokenize original revised tokenize_concat)
    as (H1 & H2 & H3).
  split; [exact H3|]. split; assumption.
Qed.

(** ** Pass 1 *)

Section Pass1.

Lemma collectDeletes_spec count fineTokens deleteTargets tokenIndex :
  collectDeletes count fineTokens deleteTargets tokenIndex
  = (deleteTargets ++ take count (drop tokenIndex fineTokens),
     tokenIndex + min count (length fineTokens - tokenIndex)).
Proof.
  revert deleteTargets tokenIndex.
  induction count as [|count IH]; intros dt ti; simpl.
  - rewrite app_nil_r. f_equal. lia.
  - destruct (fineTokens !! ti) as [t|] eqn:E.
    + rewrite IH. pose proof (lookup_lt_Some _ _ _ E) as Hlt.
      rewrite (drop_S _ _ _ E). simpl. rewrite <- app_assoc. simpl.
      f_equal. destruct (length fineTokens - ti) as [|n] eqn:En; [lia|].
      replace (length fineTokens - S ti) with n by lia. simpl. lia.
    + rewrite IH. pose proof (lookup_ge_None_1 _ _ E) as Hge.
      rewrite drop_ge by lia. rewrite take_nil.
      replace (length fineTokens - ti) with 0 by lia.
      rewrite Nat.min_0_r. done.
Qed.

Lemma pass1From_snoc fineTokens st diffs d :
  pass1From fineTokens st (diffs ++ [d])
  = pass1Step fineTokens (pass1From fineTokens st diffs) d.
Proof. unfold pass1From. by rewrite foldl_app. Qed.

End Pass1.

(** ** C6 *)

(** The claim of C6 fails where fewer document tokens remain than the
    Delete op re-tokenizes into: a token map of the single token ["a"]
    against the Delete op ["a b"] (three tokens) yields one delete target
    and the cursor at 1, not three targets and the cursor at 3. *)
Lemma pass1_delete_past_end :
  let r := {| rangeStart := 0; rangeLength := 1 |} in
  let fineTokens := assignIndex [(str "a", r)] in
  length (tokenize (str "a b")) = 3
  /\ pass1 [((-1)%Z, str "a b")] fineTokens
     = ([{| index := 0; text := str "a"; range := r |}], 1)
  /\ ~ (exists appended,
          pass1 [((-1)%Z, str "a b")] fineTokens
          = (appended, 0 + length (tokenize (str "a b")))
          /\ length appended = length (tokenize (str "a b"))).
Proof.
  intros r fineTokens. split; [reflexivity|]. split; [reflexivity|].
  intros (appended & H & _). vm_compute in H. discriminate H.
Qed.

(** C6, amended.  Pass 1 walks the diff ops in order with the cursor at 0
    before the first op.  An Equal op moves the cursor forward by the
    number of tokens its text re-tokenizes into.  A Delete op appends to
    [deleteTargets] the consecutive document tokens from the cursor on, as
    many as its text re-tokenizes into or, where fewer remain, those that
    remain (each round is guarded by [tokenIndex < fineTokens.length]), and
    moves the cursor past each appended token.  Any other op leaves both
    unchanged. *)
Theorem pass1_walk (fineTokens : list Token) (diffs : list DiffOp)
    (chunk : jsstring) :
  let st := pass1 diffs fineTokens in
  let n := length (tokenize chunk) in
  pass1 [] fineTokens = ([], 0)
  /\ pass1 (diffs ++ [(0%Z, chunk)]) fineTokens = (st.1, st.2 + n)
  /\ pass1 (diffs ++ [((-1)%Z, chunk)]) fineTokens
     = (st.1 ++ take n (drop st.2 fineTokens),
        st.2 + min n (length fineTokens - st.2))
  /\ length (take n (drop st.2 fineTokens)) = min n (length fineTokens - st.2)
  /\ (forall op, op <> 0%Z -> op <> (-1)%Z ->
        pass1 (diffs ++ [(op, chunk)]) fineTokens = st).
Proof.
  intros st n. unfold pass1 in *. split; [done|].
  rewrite !pass1From_snoc. fold st.
  destruct st as [dt ti] eqn:Est. simpl.
  split; [done|]. split; [apply collectDeletes_spec|]. split.
  - rewrite length_take, length_drop. done.
  - intros op H0 H1. rewrite pass1From_snoc. rewrite <- Est. fold st.
    rewrite Est. simpl.
    destruct (decide (op = 0%Z)); [done|]. destruct (decide (op = (-1)%Z)); done.
Qed.

(** With enough tokens left the Delete op appends exactly as many as its
    text re-tokenizes into. *)
Lemma pass1_walk_witness :
  let r := {| rangeStart := 0; rangeLength := 1 |} in
  let fineTokens := assignIndex [(str "a", r); (str " ", r); (str "b", r)] in
  pass1 ([(0%Z, str "a")] ++ [((-1)%Z, str " b")]) fineTokens
  = ([{| index := 1; text := str " "; range := r |};
      {| index := 2; text := str "b"; range := r |}], 3).
Proof.
  intros r fineTokens.
  destruct (pass1_walk fineTokens [(0%Z, str "a")] (str " b"))
    as (_ & _ & H & _).
  rewrite H. vm_compute. reflexivity.
Defined.

(** ** Execution order *)

Section Execution.

(** Indices of the delete actions, in the order they are issued. *)
Definition deletedSequence (acts : list Action) : list nat :=
  omap (fun a => match a with DeleteToken t => Some (index t) | _ => None end)
       acts.

Definition descending : list nat -> Prop :=
  StronglySorted (fun a b => a > b).

Definition ascending : list nat -> Prop :=
  StronglySorted (fun a b => a < b).

Lemma insertSorted_perm {A} (cmp : A -> A -> Z) a l :
  Permutation (insertSorted cmp a l) (a :: l).
Proof.
  induction l as [|b l IH]; simpl; [done|].
  destruct (cmp a b <=? 0)%Z; [done|].
  rewrite IH. apply perm_swap.
Qed.

Lemma sort_perm {A} (cmp : A -> A -> Z) l : Permutation (sort cmp l) l.
Proof.
  induction l as [|a l IH]; simpl; [done|].
  rewrite insertSorted_perm. by constructor.
Qed.

Lemma insertSorted_descending a l :
  descending (map index l) -> index a ∉ map index l ->
  descending (map index (insertSorted byIndexDescending a l)).
Proof.
  unfold descending. induction l as [|b l IH]; intros Hs Hn; simpl.
  - repeat constructor.
  - apply StronglySorted_inv in Hs as [Hs Hb].
    apply not_elem_of_cons in Hn as [Hab Hn].
    unfold byIndexDescending at 1.
    destruct (Z.leb_spec (Z.of_nat (index b) - Z.of_nat (index a)) 0).
    + simpl. constructor; [by constructor|].
      constructor; [lia|]. eapply Forall_impl; [exact Hb|]. simpl. lia.
    + simpl. constructor; [by apply IH|].
      rewrite Forall_forall in Hb |- *. intros x Hx.
      apply list_elem_of_fmap_1 in Hx as (y & -> & Hy).
      rewrite insertSorted_perm in Hy.
      apply elem_of_cons in Hy as [->|Hy]; [lia|].
      apply Hb. by apply list_elem_of_fmap_2.
Qed.

Lemma sort_descending l :
  NoDup (map index l) -> descending (map index (sort byIndexDescending l)).
Proof.
  induction l as [|a l IH]; intros Hnd; simpl; [constructor|].
  apply NoDup_cons in Hnd as [Hn Hnd].
  apply insertSorted_descending; [by apply IH|].
  intros Hin. apply Hn.
  by rewrite (Permutation_map index (sort_perm byIndexDescending l)) in Hin.
Qed.

Lemma ascending_NoDup l : ascending l -> NoDup l.
Proof.
  induction 1 as [|a l _ IH Ha]; constructor; [|done].
  intros Hin. rewrite Forall_forall in Ha. specialize (Ha a Hin). lia.
Qed.

Lemma ascending_app l1 l2 :
  ascending l1 -> ascending l2 ->
  (forall a b, a ∈ l1 -> b ∈ l2 -> a < b) -> ascending (l1 ++ l2).
Proof.
  unfold ascending. induction 1 as [|a l1 Hs IH Ha]; intros H2 Hlt; simpl; [done|].
  constructor.
  - apply IH; [done|]. intros x y Hx Hy. apply Hlt; [by right|done].
  - apply Forall_app. split; [done|].
    rewrite Forall_forall. intros y Hy. apply Hlt; [by left|done].
Qed.

(** The token map is indexed by position. *)
Definition indexed (fineTokens : list Token) : Prop :=
  forall i t, fineTokens !! i = Some t -> index t = i.

Lemma indexed_assignIndex pre : indexed (assignIndex pre).
Proof. intros i t. apply assignIndex_lookup. Qed.

Lemma indexed_slice fineTokens n i :
  indexed fineTokens ->
  ascending (map index (take n (drop i fineTokens)))
  /\ forall x, x ∈ map index (take n (drop i fineTokens)) ->
       i <= x < i + min n (length fineTokens - i).
Proof.
  intros Hidx. revert i. induction n as [|n IH]; intros i.
  - rewrite take_0. split; [constructor|]. intros x Hx. by apply elem_of_nil in Hx.
  - destruct (fineTokens !! i) as [t|] eqn:E.
    + rewrite (drop_S _ _ _ E), firstn_cons, map_cons.
      pose proof (lookup_lt_Some _ _ _ E) as Hlt.
      destruct (IH (S i)) as [IH1 IH2]. rewrite (Hidx _ _ E). split.
      * constructor; [done|]. rewrite Forall_forall. intros x Hx.
        apply IH2 in Hx. lia.
      * intros x Hx. apply elem_of_cons in Hx as [->|Hx]; [lia|].
        apply IH2 in Hx. lia.
    + rewrite drop_ge by (by apply lookup_ge_None_1). rewrite take_nil.
      split; [constructor|]. intros x Hx. by apply elem_of_nil in Hx.
Qed.

(** Pass 1 collects its targets in ascending index order, all of them
    below the cursor. *)
Lemma pass1From_ascending fineTokens diffs dt ti :
  indexed fineTokens ->
  ascending (map index dt) -> (forall x, x ∈ map index dt -> x < ti) ->
  ascending (map index (pass1From fineTokens (dt, ti) diffs).1)
  /\ forall x, x ∈ map index (pass1From fineTokens (dt, ti) diffs).1 ->
       x < (pass1From fineTokens (dt, ti) diffs).2.
Proof.
  intros Hidx. revert dt ti.
  induction diffs as [|[op chunk] diffs IH]; intros dt ti Ha Hb; [done|].
  unfold pass1From in *. simpl.
  destruct (decide (op = 0%Z)).
  - apply IH; [done|]. intros x Hx. apply Hb in Hx. lia.
  - destruct (decide (op = (-1)%Z)); [|by apply IH].
    rewrite collectDeletes_spec.
    destruct (indexed_slice fineTokens (length (tokenize chunk)) ti Hidx)
      as [Hs1 Hs2].
    apply IH.
    + rewrite map_app. apply ascending_app; [done..|].
      intros a b Ha' Hb'. apply Hb in Ha'. apply Hs2 in Hb'. lia.
    + intros x Hx. rewrite map_app in Hx.
      apply elem_of_app in Hx as [Hx|Hx]; [apply Hb in Hx; lia|].
      apply Hs2 in Hx. lia.
Qed.

Lemma pass1_NoDup fineTokens diffs :
  indexed fineTokens -> NoDup (map index (pass1 diffs fineTokens).1).
Proof.
  intros Hidx. apply ascending_NoDup.
  apply (pass1From_ascending fineTokens diffs [] 0 Hidx); [constructor|].
  intros x Hx. by apply elem_of_nil in Hx.
Qed.

Lemma deletedSequence_app a b :
  deletedSequence (a ++ b) = deletedSequence a ++ deletedSequence b.
Proof. apply omap_app. Qed.

Lemma deletedSequence_deletes l :
  deletedSequence (map DeleteToken l) = map index l.
Proof. induction l as [|t l IH]; [done|]. simpl. by rewrite <- IH. Qed.

Lemma deletedSequence_inserts l : deletedSequence (map InsertAt l) = [].
Proof. by induction l. Qed.

Lemma forEach_queue acts w :
  forEach (fun a => queue (requestOf a)) acts w
  = (Ok tt, {| doc := doc w;
               pending := pending w ++ map requestOf acts;
               events := events w ++ map (fun a => Queued (requestOf a)) acts |}).
Proof.
  revert w. induction acts as [|a acts IH]; intros w; simpl.
  - rewrite !app_nil_r. by destruct w.
  - unfold bind, queue at 1. rewrite IH. simpl.
    by rewrite <- !app_assoc.
Qed.

End Execution.

(** ** C5 *)

(** C5. In one execution every delete is issued before any insert, and the
    issued deletes are strictly descending by token index: the targets
    collected by Pass 1 over an indexed token map carry no index twice, and
    they are sorted by descending index before they are issued. *)
Theorem deletes_descending_before_inserts (h : Host)
    (resolved : list (jsstring * Range)) (diffs : list DiffOp)
    (insertOps : list InsertOp) :
  let fineTokens := assignIndex resolved in
  let deleteTargets := (pass1 diffs fineTokens).1 in
  let acts := executionActions h deleteTargets insertOps in
  (forall i j t op, acts !! i = Some (DeleteToken t) ->
                    acts !! j = Some (InsertAt op) -> i < j)
  /\ descending (deletedSequence acts)
  /\ NoDup (map index deleteTargets)
  /\ Permutation (deletedSequence acts) (map index deleteTargets)
  /\ forall w, events (forEach (fun a => queue (requestOf a)) acts w).2
       = events w ++ map (fun a => Queued (requestOf a)) acts.
Proof.
  intros fineTokens deleteTargets acts.
  pose proof (pass1_NoDup fineTokens diffs (indexed_assignIndex resolved)) as Hnd.
  fold deleteTargets in Hnd.
  assert (Hseq : deletedSequence acts
                 = map index (sort byIndexDescending deleteTargets)).
  { unfold acts, executionActions.
    rewrite !deletedSequence_app, deletedSequence_deletes, deletedSequence_inserts.
    destruct (changeTrackingAvailable h); simpl; by rewrite app_nil_r. }
  split; [|split; [|split; [|split]]].
  - intros i j t op Hi Hj. unfold acts, executionActions in Hi, Hj.
    set (pre := if changeTrackingAvailable h then [SetTracking trackAll] else [])
      in *.
    set (dels := map DeleteToken (sort byIndexDescending deleteTargets)) in *.
    set (post := if changeTrackingAvailable h then [SetTracking trackOff] else [])
      in *.
    assert (Hpre : forall k a, pre !! k = Some a -> exists m, a = SetTracking m).
    { intros k a. unfold pre. destruct (changeTrackingAvailable h); [|done].
      destruct k; [|done]. intros [= <-]. eauto. }
    assert (Hpost : forall k a, post !! k = Some a -> exists m, a = SetTracking m).
    { intros k a. unfold post. destruct (changeTrackingAvailable h); [|done].
      destruct k; [|done]. intros [= <-]. eauto. }
    apply lookup_app_Some in Hi as [Hi|[Hi1 Hi]];
      [apply Hpre in Hi as [? ?]; done|].
    apply lookup_app_Some in Hj as [Hj|[Hj1 Hj]];
      [apply Hpre in Hj as [? ?]; done|].
    apply lookup_app_Some in Hi as [Hi|[Hi2 Hi]].
    + apply lookup_lt_Some in Hi.
      apply lookup_app_Some in Hj as [Hj|[Hj2 Hj]]; [|lia].
      unfold dels in Hj. rewrite list_lookup_fmap in Hj.
      by destruct (_ !! _).
    + apply lookup_app_Some in Hi as [Hi|[_ Hi]].
      * rewrite list_lookup_fmap in Hi. by destruct (_ !! _).
      * apply Hpost in Hi as [? ?]; done.
  - rewrite Hseq. by apply sort_descending.
  - exact Hnd.
  - rewrite Hseq. apply Permutation_map, sort_perm.
  - intros w. by rewrite forEach_queue.
Qed.

(** ** Pass 2 *)

Section Pass2Facts.

(** [k] tokens from position [idx] on were taken off the front of [txt],
    one after the other, and [rem] is what is left of it. *)
Definition stripped (tokens : list Token) (idx k : nat) (txt rem : jsstring)
    : Prop :=
  idx + k <= length tokens
  /\ txt = concat (map text (take k (drop idx tokens))) ++ rem.

(** The anchor after [k] more tokens were consumed. *)
Definition anchorAfter (tokens : list Token) (idx k : nat)
    (last : option Range) : option Range :=
  match k with
  | 0 => last
  | S j => range <$> tokens !! (idx + j)
  end.

Lemma stripped_0 tokens idx txt :
  idx <= length tokens -> stripped tokens idx 0 txt txt.
Proof. intros H. split; [lia|]. by rewrite take_0. Qed.

Lemma stripped_S tokens idx k token r rem :
  tokens !! idx = Some token ->
  stripped tokens (S idx) k r rem ->
  stripped tokens idx (S k) (text token ++ r) rem.
Proof.
  intros E [H1 H2]. split; [lia|].
  rewrite (drop_S _ _ _ E), firstn_cons, map_cons. simpl.
  by rewrite <- app_assoc, <- H2.
Qed.

Lemma stripped_S_inv tokens idx k txt rem :
  stripped tokens idx (S k) txt rem ->
  exists token r, tokens !! idx = Some token /\ txt = text token ++ r
    /\ stripped tokens (S idx) k r rem.
Proof.
  intros [H1 H2].
  destruct (tokens !! idx) as [token|] eqn:E.
  - rewrite (drop_S _ _ _ E), firstn_cons, map_cons in H2. simpl in H2.
    rewrite <- app_assoc in H2.
    exists token, (concat (map text (take k (drop (S idx) tokens))) ++ rem).
    split; [done|]. split; [done|]. split; [lia|done].
  - apply lookup_ge_None_1 in E. lia.
Qed.

Lemma startsWith_app p r : startsWith (p ++ r) p = true.
Proof. apply startsWith_spec. eauto. Qed.

Lemma slice_app p r : slice (p ++ r) (length p) = r.
Proof. unfold slice. by rewrite drop_app_length. Qed.

Lemma consumeEqual_ok fuel tokens txt idx last idx' last' :
  consumeEqual fuel tokens txt idx last = Ok (idx', last') ->
  exists k rem,
    idx' = idx + k /\ k <= fuel
    /\ (idx <= length tokens -> stripped tokens idx k txt rem)
    /\ (rem = [] \/ length tokens <= idx' \/ k = fuel)
    /\ last' = anchorAfter tokens idx k last.
Proof.
  revert txt idx last. induction fuel as [|fuel IH]; intros txt idx last H.
  - simpl in H. injection H as <- <-. exists 0, txt.
    rewrite Nat.add_0_r. split; [done|]. split; [done|].
    split; [apply stripped_0|]. auto.
  - simpl in H. case_bool_decide as Hlen.
    + destruct (tokens !! idx) as [token|] eqn:E.
      * destruct (startsWith txt (text token)) eqn:Es; [|done].
        apply startsWith_spec in Es as [r ->]. rewrite slice_app in H.
        apply IH in H as (k & rem & -> & Hk & Hs & Hstop & ->).
        pose proof (lookup_lt_Some _ _ _ E) as Hlt.
        exists (S k), rem. split; [lia|]. split; [lia|]. split; [|split].
        -- intros _. apply stripped_S; [done|]. apply Hs. lia.
        -- destruct Hstop as [?|[?|?]]; [auto|right; left; lia|right; right; lia].
        -- destruct k as [|j]; simpl.
           ++ by rewrite Nat.add_0_r, E.
           ++ by replace (idx + S j) with (S idx + j) by lia.
      * injection H as <- <-. exists 0, txt.
        rewrite Nat.add_0_r. split; [done|]. split; [lia|].
        split; [apply stripped_0|]. split; [|done].
        right; left. by apply lookup_ge_None_1.
    + injection H as <- <-. exists 0, txt.
      rewrite Nat.add_0_r. split; [done|]. split; [lia|].
      split; [apply stripped_0|]. split; [|done].
      left. destruct txt; [done|]. simpl in Hlen. lia.
Qed.

Lemma consumeEqual_err fuel tokens txt idx last e :
  consumeEqual fuel tokens txt idx last = Err e <->
  e = MapLookupFailed
  /\ exists k rem token,
       k < fuel /\ stripped tokens idx k txt rem /\ rem <> []
       /\ tokens !! (idx + k) = Some token
       /\ startsWith rem (text token) = false.
Proof.
  revert txt idx last. induction fuel as [|fuel IH]; intros txt idx last.
  - simpl. split; [done|]. intros (_ & k & _ & _ & Hk & _). lia.
  - simpl. split.
    + intros H. case_bool_decide as Hlen; [|done].
      destruct (tokens !! idx) as [token|] eqn:E; [|done].
      pose proof (lookup_lt_Some _ _ _ E) as Hlt.
      destruct (startsWith txt (text token)) eqn:Es.
      * apply startsWith_spec in Es as [r ->]. rewrite slice_app in H.
        apply IH in H as (-> & k & rem & tk & Hk & Hs & Hne & Htk & Hmis).
        split; [done|]. exists (S k), rem, tk. split; [lia|].
        split; [by apply stripped_S|]. split; [done|].
        split; [by replace (idx + S k) with (S idx + k) by lia|done].
      * injection H as <-. split; [done|]. exists 0, txt, token.
        split; [lia|]. split; [apply stripped_0; lia|].
        split; [intros ->; simpl in Hlen; lia|]. by rewrite Nat.add_0_r.
    + intros (-> & k & rem & tk & Hk & Hs & Hne & Htk & Hmis).
      destruct k as [|k].
      * destruct Hs as [_ Hs]. rewrite take_0 in Hs. simpl in Hs. subst txt.
        rewrite Nat.add_0_r in Htk. rewrite Htk, Hmis.
        case_bool_decide as Hlen; [done|]. destruct rem; [done|].
        simpl in Hlen. lia.
      * apply stripped_S_inv in Hs as (token & r & E & -> & Hs).
        rewrite E, startsWith_app, slice_app.
        case_bool_decide as Hlen.
        -- apply IH. split; [done|]. exists k, rem, tk. split; [lia|].
           split; [done|]. split; [done|].
           split; [by replace (S idx + k) with (idx + S k) by lia|done].
        -- exfalso. apply Hlen. destruct Hs as [_ ->].
           rewrite !length_app. destruct rem; [done|]. simpl. lia.
Qed.

(** The anchor is that of the most recently consumed token, and there is
    none exactly when no token was consumed yet. *)
Definition anchored (tokens : list Token) (st : Pass2) : Prop :=
  match currentTokenIdx st with
  | 0 => lastAnchorRange st = None
  | S i => exists t, tokens !! i = Some t /\ lastAnchorRange st = Some (range t)
  end.

Lemma anchored_idx tokens st : anchored tokens st -> currentTokenIdx st <= length tokens.
Proof.
  unfold anchored. destruct (currentTokenIdx st) as [|i]; [lia|].
  intros (t & Ht & _). apply lookup_lt_Some in Ht. lia.
Qed.

Lemma pass2Step_anchored tokens st d st' :
  anchored tokens st -> pass2Step tokens st d = Ok st' -> anchored tokens st'.
Proof.
  intros Ha. destruct d as [op chunk]. unfold pass2Step.
  destruct (decide (op = 0%Z)).
  - destruct (consumeEqual _ _ _ _ _) as [[idx last]|err] eqn:E; [|done].
    intros [= <-]. apply consumeEqual_ok in E as (k & rem & -> & _ & Hs & _ & ->).
    specialize (Hs (anchored_idx _ _ Ha)) as [Hlen _].
    unfold anchored in *. simpl. destruct k as [|j].
    + rewrite Nat.add_0_r. simpl. exact Ha.
    + replace (currentTokenIdx st + S j) with (S (currentTokenIdx st + j)) by lia.
      simpl. destruct (tokens !! (currentTokenIdx st + j)) as [t|] eqn:Et.
      * eauto.
      * apply lookup_ge_None_1 in Et. lia.
  - destruct (decide (op = 1%Z)); [|by intros [= <-]].
    destruct (lastAnchorRange st) eqn:El; intros [= <-];
      unfold anchored in *; simpl; by rewrite ?El in *.
Qed.

Lemma pass2From_anchored tokens st diffs st' :
  anchored tokens st -> pass2From tokens st diffs = Ok st' -> anchored tokens st'.
Proof.
  revert st. induction diffs as [|d diffs IH]; intros st Ha H;
    cbn [pass2From] in H.
  - by injection H as <-.
  - destruct (pass2Step tokens st d) as [st1|e] eqn:E; [|done].
    eapply IH; [|exact H]. by eapply pass2Step_anchored.
Qed.

Lemma pass2From_app tokens st pre post :
  pass2From tokens st (pre ++ post)
  = match pass2From tokens st pre with
    | Ok st' => pass2From tokens st' post
    | Err e => Err e
    end.
Proof.
  revert st. induction pre as [|d pre IH]; intros st;
    cbn [pass2From app]; [done|].
  destruct (pass2Step tokens st d); [apply IH|done].
Qed.

(** A failure of the walk is the failure of one Equal op, after every
    earlier op went through. *)
Lemma pass2From_err tokens st diffs e :
  pass2From tokens st diffs = Err e ->
  exists pre chunk post st',
    diffs = pre ++ (0%Z, chunk) :: post
    /\ pass2From tokens st pre = Ok st'
    /\ pass2Step tokens st' (0%Z, chunk) = Err e.
Proof.
  revert st. induction diffs as [|[op chunk] diffs IH]; intros st H; [done|].
  cbn [pass2From] in H.
  destruct (pass2Step tokens st (op, chunk)) as [st1|e1] eqn:E.
  - apply IH in H as (pre & c & post & st' & -> & H1 & H2).
    exists ((op, chunk) :: pre), c, post, st'. split; [done|].
    split; [|done]. cbn [pass2From app]. by rewrite E.
  - injection H as ->. exists [], chunk, diffs, st.
    assert (op = 0%Z) as ->.
    { unfold pass2Step in E. destruct (decide (op = 0%Z)); [done|].
      destruct (decide (op = 1%Z)); [|done]. by destruct (lastAnchorRange st). }
    done.
Qed.

End Pass2Facts.

(** ** The primary attempt as a whole *)

Section PrimaryRun.

(** The world after the two read-only syncs of the token-map build. *)
Definition afterReads (w : World) : World :=
  {| doc := doc w; pending := [];
     events := events w ++ [Synced true; Synced true] |}.

(** The world after the execution phase queued [reqs] and synced. *)
Definition afterExecution (h : Host) (w : World) (reqs : list Request)
    : World :=
  {| doc := (commit h (doc w) reqs).1; pending := [];
     events := events w ++ [Synced true; Synced true] ++ map Queued reqs
               ++ [Synced (commit h (doc w) reqs).2] |}.

Lemma sync_idle h w :
  pending w = [] ->
  sync h w = (Ok tt, {| doc := doc w; pending := [];
                        events := events w ++ [Synced true] |}).
Proof. intros H. unfold sync. by rewrite H. Qed.

Lemma primary_run h text1 text2 w :
  pending w = [] ->
  primary h text1 text2 w =
    match buildTokenMap h (getTextRanges h (docText (doc w))) with
    | Err e => (Err e, afterReads w)
    | Ok fineTokens =>
        let diffs := computeDiff text1 text2 in
        let deleteTargets := (pass1 diffs fineTokens).1 in
        match pass2 diffs fineTokens deleteTargets with
        | Err e => (Err e, afterReads w)
        | Ok p2 =>
            let reqs := map requestOf
                          (executionActions h deleteTargets (insertOps p2)) in
            (if (commit h (doc w) reqs).2 then Ok tt else Err HostRejected,
             afterExecution h w reqs)
        end
    end.
Proof.
  intros Hp. unfold primary, bind at 1, getDoc. unfold bind at 1.
  rewrite (sync_idle h w Hp). unfold bind at 1. rewrite sync_idle by done.
  cbn [doc events]. unfold bind at 1, lift at 1.
  rewrite <- app_assoc. cbn [app]. fold (afterReads w).
  destruct (buildTokenMap h _) as [fineTokens|e]; [|done].
  cbn zeta. destruct (pass1 _ fineTokens) as [deleteTargets ti] eqn:E1.
  cbn [fst]. unfold bind at 1, lift at 1.
  destruct (pass2 _ fineTokens deleteTargets) as [p2|e]; [|done].
  unfold bind at 1. rewrite forEach_queue. cbn [doc pending events afterReads].
  unfold sync, afterExecution. cbn [doc pending events app].
  rewrite <- (map_map requestOf Queued).
  destruct (commit h (doc w) _) as [d accepted]. cbn [fst snd].
  rewrite <- !app_assoc. cbn [app].
  by destruct accepted.
Qed.


End PrimaryRun.

(** ** C2 *)

(** C2. In Pass 2, walked against the surviving tokens, an Equal op takes
    the next token off the front of its unconsumed text for as long as that
    text is non-empty and tokens remain.  The walk throws exactly when,
    after some tokens were taken, the next token's text is not a prefix of
    what is left; it throws at that token, the rest of the diff is not
    walked, no insert op comes out of the planner, and the primary attempt
    ends without having queued any request or changed the paragraph. *)
Theorem alignment_gate (h : Host) (text1 text2 : jsstring)
    (m : ChangeTrackingMode) (tokens : list Token) (pre post : list DiffOp)
    (chunk : jsstring) (st : Pass2) :
  pass2From tokens pass2Init pre = Ok st ->
  (pass2Step tokens st (0%Z, chunk) = Err MapLookupFailed <->
     exists k rem token,
       stripped tokens (currentTokenIdx st) k chunk rem /\ rem <> []
       /\ tokens !! (currentTokenIdx st + k) = Some token
       /\ startsWith rem (text token) = false)
  /\ (forall st', pass2Step tokens st (0%Z, chunk) = Ok st' ->
        insertOps st' = insertOps st
        /\ exists k rem,
             currentTokenIdx st' = currentTokenIdx st + k
             /\ stripped tokens (currentTokenIdx st) k chunk rem
             /\ (rem = [] \/ length tokens <= currentTokenIdx st'))
  /\ (forall e, pass2Step tokens st (0%Z, chunk) = Err e ->
        e = MapLookupFailed
        /\ pass2From tokens pass2Init (pre ++ (0%Z, chunk) :: post) = Err e)
  /\ (forall fineTokens e,
        buildTokenMap h (getTextRanges h text1) = Ok fineTokens ->
        pass2 (computeDiff text1 text2) fineTokens
              (pass1 (computeDiff text1 text2) fineTokens).1 = Err e ->
        exists w',
          primary h text1 text2 (baseline text1 m) = (Err e, w')
          /\ doc w' = doc (baseline text1 m) /\ pending w' = []
          /\ forall r, Queued r ∉ events w').
Proof.
  intros Hpre.
  assert (Ha : anchored tokens st).
  { eapply pass2From_anchored; [|exact Hpre]. done. }
  pose proof (anchored_idx _ _ Ha) as Hidx.
  assert (Hstep : forall e, pass2Step tokens st (0%Z, chunk) = Err e <->
            consumeEqual (length tokens) tokens chunk (currentTokenIdx st)
              (lastAnchorRange st) = Err e).
  { intros e. unfold pass2Step. cbn.
    destruct (consumeEqual _ _ _ _ _) as [[? ?]|e']; split; try done;
      by intros [= ->]. }
  split; [|split; [|split]].
  - rewrite Hstep, consumeEqual_err. split.
    + intros (_ & k & rem & token & _ & H). eauto.
    + intros (k & rem & token & Hs & Hne & Htok & Hmis). split; [done|].
      exists k, rem, token. split; [|done].
      apply lookup_lt_Some in Htok. lia.
  - intros st' H. unfold pass2Step in H. cbn in H.
    destruct (consumeEqual _ _ _ _ _) as [[idx last]|e'] eqn:E; [|done].
    injection H as <-. cbn. split; [done|].
    apply consumeEqual_ok in E as (k & rem & -> & Hk & Hs & Hstop & _).
    exists k, rem. split; [done|]. split; [by apply Hs|].
    destruct Hstop as [?|[?| ->]]; [by left|by right|right; lia].
  - intros e He. split.
    + apply Hstep, consumeEqual_err in He. by destruct He.
    + rewrite pass2From_app, Hpre. cbn [pass2From]. by rewrite He.
  - intros fineTokens e Hb Hp2.
    exists (afterReads (baseline text1 m)).
    rewrite primary_run by done. cbn [baseline doc docText].
    rewrite Hb. cbn zeta. rewrite Hp2. split; [done|]. split; [done|].
    split; [done|]. intros r Hr. cbn in Hr.
    apply elem_of_cons in Hr as [?|Hr]; [done|].
    apply elem_of_cons in Hr as [?|Hr]; [done|]. by apply elem_of_nil in Hr.
Qed.

(** Tokens ["a"], ["b"] against the Equal chunk ["ax"]: ["a"] is consumed,
    ["b"] is not a prefix of ["x"]. *)
Lemma alignment_gate_witness :
  let r := {| rangeStart := 0; rangeLength := 1 |} in
  let tokens := assignIndex [(str "a", r); (str "b", r)] in
  pass2From tokens pass2Init ([] ++ (0%Z, str "ax") :: [(1%Z, str "y")])
  = Err MapLookupFailed.
Proof.
  intros r tokens.
  destruct (alignment_gate (strictHost (fun _ => true)) [] [] trackOff tokens
              [] [(1%Z, str "y")] (str "ax") pass2Init eq_refl)
    as (Hiff & _ & Hthrow & _).
  apply Hthrow. apply Hiff.
  exists 1, (str "x"), {| index := 1; text := str "b"; range := r |}.
  split; [split; [vm_compute; lia|reflexivity]|].
  split; [discriminate|]. split; reflexivity.
Defined.

(** ** C7 *)

Section RecordedRanges.





End RecordedRanges.




(** ** C8 *)

Section TokenResolution.

Lemma processResults_fails proxies acc :
  Exists (fun p => results p = []) proxies ->
  exists before p after,
    proxies = before ++ p :: after
    /\ Forall (fun q => results q <> []) before /\ results p = []
    /\ processResults proxies acc = Err (TokenMappingFailed (proxyText p)).
Proof.
  intros H. revert acc. induction proxies as [|q qs IH]; intros acc.
  - by apply Exists_nil in H.
  - destruct (results q) as [|item0 items] eqn:E.
    + exists [], q, qs. repeat split; [done..|]. simpl. by rewrite E.
    + apply Exists_cons in H as [H|H]; [congruence|].
      destruct (IH H (acc ++ [(proxyText q, item0)]))
        as (before & p & after & -> & Hb & Hp & Hr).
      exists (q :: before), p, after. repeat split; [|done|].
      * constructor; [by rewrite E|done].
      * simpl. by rewrite E.
Qed.

End TokenResolution.

(** C8. When the in-range search for some fine token finds nothing, the
    token-map construction throws an error that carries the text of the
    first such token; no token map comes out of it, no plan is built and
    the primary attempt ends without having queued a request.  A token map
    that does come out has one token for every regex match of every coarse
    range. *)
Theorem token_resolution_all_or_nothing (h : Host) (text1 text2 : jsstring)
    (m : ChangeTrackingMode) :
  let proxies := queueSearches h (getTextRanges h text1) in
  (forall fineTokens,
      buildTokenMap h (getTextRanges h text1) = Ok fineTokens ->
      Forall (fun p => results p <> []) proxies
      /\ map text fineTokens = map proxyText proxies
      /\ length fineTokens = length proxies)
  /\ (Exists (fun p => results p = []) proxies ->
      exists before p after w',
        proxies = before ++ p :: after
        /\ Forall (fun q => results q <> []) before /\ results p = []
        /\ buildTokenMap h (getTextRanges h text1)
           = Err (TokenMappingFailed (proxyText p))
        /\ primary h text1 text2 (baseline text1 m)
           = (Err (TokenMappingFailed (proxyText p)), w')
        /\ doc w' = doc (baseline text1 m) /\ pending w' = []
        /\ forall r, Queued r ∉ events w').
Proof.
  intros proxies. split.
  - intros fineTokens Hb. unfold buildTokenMap in Hb. fold proxies in Hb.
    destruct (processResults proxies []) as [ft|e] eqn:E; [|done].
    injection Hb as <-. apply processResults_ok in E as (E1 & E2 & E3).
    split; [done|]. split; [by rewrite assignIndex_text, E1|].
    by rewrite assignIndex_length, E3.
  - intros Hex.
    destruct (processResults_fails proxies [] Hex)
      as (before & p & after & Hsplit & Hb & Hp & Hr).
    assert (Hbuild : buildTokenMap h (getTextRanges h text1)
                     = Err (TokenMappingFailed (proxyText p))).
    { unfold buildTokenMap. fold proxies. by rewrite Hr. }
    exists before, p, after, (afterReads (baseline text1 m)).
    split; [done|]. split; [done|]. split; [done|]. split; [done|].
    split.
    + rewrite primary_run by done. cbn [baseline doc docText]. by rewrite Hbuild.
    + split; [done|]. split; [done|]. intros r Hr'. cbn in Hr'.
      apply elem_of_cons in Hr' as [?|Hr']; [done|].
      apply elem_of_cons in Hr' as [?|Hr']; [done|]. by apply elem_of_nil in Hr'.
Qed.

(** A host whose search does not find typographic quotation marks. *)
Definition plainQuotesOnly (needle : jsstring) : bool :=
  forallb (fun c => negb (between 8216 8221 c)) needle.

(** The opening quotation mark of a quoted ["a"] is not found. *)
Lemma token_resolution_all_or_nothing_witness :
  let h := strictHost plainQuotesOnly in
  let text1 := [8220; 97; 8221]%N in
  exists w',
    primary h text1 (str "a") (baseline text1 trackOff)
    = (Err (TokenMappingFailed [8220%N]), w')
    /\ forall r, Queued r ∉ events w'.
Proof.
  intros h text1.
  destruct (token_resolution_all_or_nothing h text1 (str "a") trackOff)
    as (_ & H).
  destruct H as (before & p & after & w' & Hsplit & Hb & Hp & _ & Hrun & _ & _ & Hq).
  - apply Exists_cons. left. vm_compute. reflexivity.
  - exists w'. split; [|exact Hq].
    assert (Hbefore : before = []).
    { destruct before as [|q before]; [reflexivity|].
      exfalso. apply Forall_cons in Hb as [Hq' _]. apply Hq'.
      vm_compute in Hsplit. injection Hsplit as <- _.
      reflexivity. }
    subst before. vm_compute in Hsplit. injection Hsplit as <- _.
    exact Hrun.
Defined.

(** ** The fallback run *)

Section FallbackRun.




Lemma originalOf_app done todo :
  originalOf (done ++ todo) = originalOf done ++ originalOf todo.
Proof. unfold originalOf. by rewrite filter_app, map_app, concat_app. Qed.





End FallbackRun.

(** A chunker: the tokens of the tokenizer regex. *)
Definition wordChunker : Chunker :=
  {| chunks := tokenize; chunks_concat := tokenize_concat |}.

(** ** C1 *)

(** Spec 8.6 and 8.7 on a host whose handles follow the edits: the primary
    attempt goes through and the paragraph reads the revised text. *)
Example primary_start_middle_end :
  let '(r, w) := verifyTokenMapStrategy trackingHost wordChunker
                   (str "Start End") (str "Start Middle End")
                   (baseline (str "Start End") trackOff) in
  r = Ok tt /\ docText (doc w) = str "Start Middle End"
  /\ events w = [Synced true; Synced true;
                 Queued (SetChangeTracking trackAll);
                 Queued (RangeInsertText {| rangeStart := 5; rangeLength := 1 |}
                           (str "Middle ") After);
                 Queued (SetChangeTracking trackOff); Synced true].
Proof. vm_compute. auto. Qed.

Example primary_quick_fox :
  let '(r, w) := verifyTokenMapStrategy trackingHost wordChunker
                   (str "The quick brown fox") (str "The quick fox")
                   (baseline (str "The quick brown fox") trackOff) in
  r = Ok tt /\ docText (doc w) = str "The quick fox"
  /\ events w = [Synced true; Synced true;
                 Queued (SetChangeTracking trackAll);
                 Queued (RangeDelete {| rangeStart := 15; rangeLength := 1 |});
                 Queued (RangeDelete {| rangeStart := 10; rangeLength := 5 |});
                 Queued (SetChangeTracking trackOff); Synced true].
Proof. vm_compute. auto. Qed.

(** A token is resolved to the first match of its text inside its coarse
    range.  In ["ab-a"] the token ["a"] is resolved to the ["a"] of
    ["ab"], and an insert anchored after it lands there. *)
Example primary_first_match :
  let '(r, w) := verifyTokenMapStrategy trackingHost wordChunker
                   (str "ab-a") (str "ab-a!")
                   (baseline (str "ab-a") trackOff) in
  r = Ok tt /\ docText (doc w) = str "a!b-a".
Proof. vm_compute. auto. Qed.

(** Spec 7, chunk-not-found is not recovered: on a host whose search does
    not find typographic quotation marks the primary attempt fails on the
    token for the opening mark, the paragraph is reset, and the replay at
    word granularity deletes ["x"], inserts ["y"], and then cannot find
    the Equal chunk.  The operation ends with that error and the paragraph
    is left as the replay reached it. *)
Example fallback_lost_sync_mixed :
  let h := strictHost plainQuotesOnly in
  let quoted := [8220%N] ++ str "q" ++ [8221%N] in
  let text1 := str "x " ++ quoted ++ str " z" in
  let text2 := str "y " ++ quoted ++ str " w" in
  exists tokenText w1 chunk w3,
    primary h text1 text2 (baseline text1 trackOff)
    = (Err (TokenMappingFailed tokenText), w1)
    /\ verifyTokenMapStrategy h wordChunker text1 text2 (baseline text1 trackOff)
       = (Err (LostSyncOnChunk chunk), w3)
    /\ docText (doc w3) = str "y " ++ quoted ++ str " z"
    /\ docText (doc w3) <> text1 /\ docText (doc w3) <> text2.
Proof.
  intros h quoted text1 text2.
  eexists _, _, _, _. split; [vm_compute; reflexivity|].
  split; [vm_compute; reflexivity|].
  split; [reflexivity|]. split; vm_compute; discriminate.
Qed.






(** ** [handleReviewSelection] ([taskpane.js])

    An [async] function runs without interruption from one [await] to the
    next.  Each such segment is a function on the global state; what an
    awaited promise settles to is an input of the next segment. *)

Module Taskpane.

Record Config := {
  trackChangesEnabled : bool;
  lineDiffEnabled : bool
}.

Inductive Strategy := TokenMapStrategy | SentenceDiffStrategy.

Inductive LogType := info | warning | error_ | success.

(** What [catch (error)] can receive. *)
Inductive Failure :=
| SelectSomeText
    (** [new Error("Please select some text first.")] *)
| NotAString
    (** [TypeError]: [response.substring] on a response without it *)
| Rejection (message : jsstring)
    (** an awaited promise rejected with this message *).

Inductive Message :=
| AlreadyProcessing           (** ["Already processing a request"] *)
| EnterPrompt                 (** ["Please enter a prompt"] *)
| ProcessingSelection (chars : nat)
| ResponseReceived
| ResponsePreview (preview : jsstring) (more : bool)
| ApplyingChanges
| ChangesApplied
| ErrorMessage (f : Failure).

(** What the function does to the outside, in program order. *)
Inductive Effect :=
| AddLog (message : Message) (type : LogType)
| LoadSelection
    (** first [Word.run]: [getSelection()], [load("text")], [sync()] *)
| SendPromptToLLM (prompt selection : jsstring)
| AssignChangeTracking (m : ChangeTrackingMode)
    (** [context.document.changeTrackingMode = ...] *)
| ApplyStrategy (s : Strategy) (originalText revisedText : jsstring)
    (** [applySentenceDiffStrategy] / [applyTokenMapStrategy] of
        [office-word-diff] on the selection *).

(** The globals and the button. *)
Record App := {
  isProcessing : bool;
  buttonLoading : bool;
  buttonDisabled : bool;
  effects : list Effect
}.

(** How an awaited promise settled. *)
Inductive Settled (A : Type) :=
| Resolved (a : A)
| Rejected (message : jsstring).
Arguments Resolved {A} a.
Arguments Rejected {A} message.

(** Where an invocation is suspended. *)
Inductive Phase :=
| AwaitingSelection (promptText : jsstring)
| AwaitingLLM (selectionText : jsstring)
| AwaitingStrategy (selectionText response : jsstring)
| Returned.

Definition emit (a : App) (e : list Effect) : App :=
  {| isProcessing := isProcessing a; buttonLoading := buttonLoading a;
     buttonDisabled := buttonDisabled a; effects := effects a ++ e |}.

(** [catch (error) { addLog(...) } finally { isProcessing = false; ... }]. *)
Definition catchFinally (a : App) (f : Failure) : App :=
  {| isProcessing := false; buttonLoading := false; buttonDisabled := false;
     effects := effects a ++ [AddLog (ErrorMessage f) error_] |}.

(** The [finally] block after a [try] that ran to its end. *)
Definition finally (a : App) : App :=
  {| isProcessing := false; buttonLoading := false; buttonDisabled := false;
     effects := effects a |}.

(** From the call to the first [await]. *)
Definition enter (a : App) (promptValue : jsstring) : App * Phase :=
  if isProcessing a then (emit a [AddLog AlreadyProcessing warning], Returned)
  else
    let promptText := trim promptValue in
    if bool_decide (promptText = []) then
      (emit a [AddLog EnterPrompt warning], Returned)
    else
      ({| isProcessing := true; buttonLoading := true; buttonDisabled := true;
          effects := effects a ++ [LoadSelection] |},
       AwaitingSelection promptText).

(** From the settled selection to [await sendPromptToLLM]. *)
Definition onSelection (a : App) (promptText : jsstring)
    (s : Settled jsstring) : App * Phase :=
  match s with
  | Rejected message => (catchFinally a (Rejection message), Returned)
  | Resolved text =>
      if bool_decide (text = []) || bool_decide (trim text = []) then
        (catchFinally a SelectSomeText, Returned)
      else
        (emit a [AddLog (ProcessingSelection (length text)) info;
                 SendPromptToLLM promptText text],
         AwaitingLLM text)
  end.

(** From the settled LLM call to the [await] of the strategy.  The
    resolved value is [data.response]: a string, or no string at all. *)
Definition onResponse (cfg : Config) (trackingAvailable : bool) (a : App)
    (selectionText : jsstring) (s : Settled (option jsstring)) : App * Phase :=
  match s with
  | Rejected message => (catchFinally a (Rejection message), Returned)
  | Resolved None =>
      (catchFinally (emit a [AddLog ResponseReceived success]) NotAString,
       Returned)
  | Resolved (Some response) =>
      (emit a
         ([AddLog ResponseReceived success;
           AddLog (ResponsePreview (take 100 response)
                     (bool_decide (100 < length response))) info;
           AddLog ApplyingChanges info]
          ++ (if trackingAvailable then
                [AssignChangeTracking
                   (if trackChangesEnabled cfg then trackAll else trackOff)]
              else [])
          ++ [ApplyStrategy
                (if lineDiffEnabled cfg then SentenceDiffStrategy
                 else TokenMapStrategy)
                selectionText response]),
       AwaitingStrategy selectionText response)
  end.

(** From the settled second [Word.run] to the return. *)
Definition onApplied (a : App) (s : Settled unit) : App * Phase :=
  match s with
  | Rejected message => (catchFinally a (Rejection message), Returned)
  | Resolved _ => (finally (emit a [AddLog ChangesApplied success]), Returned)
  end.

(** What the outside delivers to a suspended invocation. *)
Inductive Input :=
| SelectionSettled (s : Settled jsstring)
| ResponseSettled (cfg : Config) (trackingAvailable : bool)
    (s : Settled (option jsstring))
| StrategySettled (s : Settled unit).

(** Resume a suspended invocation; [None] when the input is not the one
    the invocation waits for. *)
Definition resume (a : App) (ph : Phase) (i : Input) : option (App * Phase) :=
  match ph, i with
  | AwaitingSelection promptText, SelectionSettled s =>
      Some (onSelection a promptText s)
  | AwaitingLLM selectionText, ResponseSettled cfg avail s =>
      Some (onResponse cfg avail a selectionText s)
  | AwaitingStrategy _ _, StrategySettled s => Some (onApplied a s)
  | _, _ => None
  end.

(** One invocation run to its end, nothing else running in between. *)
Definition handleReviewSelection (cfg : Config) (trackingAvailable : bool)
    (a : App) (promptValue : jsstring) (selection : Settled jsstring)
    (llm : Settled (option jsstring)) (applied : Settled unit) : App :=
  match enter a promptValue with
  | (a1, AwaitingSelection promptText) =>
      match onSelection a1 promptText selection with
      | (a2, AwaitingLLM selectionText) =>
          match onResponse cfg trackingAvailable a2 selectionText llm with
          | (a3, AwaitingStrategy _ _) => (onApplied a3 applied).1
          | (a3, _) => a3
          end
      | (a2, _) => a2
      end
  | (a1, _) => a1
  end.

(** An effect that changes the document or asks the host to. *)
Definition mutates (e : Effect) : Prop :=
  match e with
  | AssignChangeTracking _ | ApplyStrategy _ _ _ => True
  | _ => False
  end.

(** Several invocations in flight: clicks start new ones, settled promises
    resume suspended ones, in any order. *)
Record System := {
  app : App;
  invocations : list Phase
}.

Inductive step : System -> System -> Prop :=
| step_invoke s promptValue :
    step s {| app := (enter (app s) promptValue).1;
              invocations := invocations s ++ [(enter (app s) promptValue).2] |}
| step_resume s i ph input a' ph' :
    invocations s !! i = Some ph ->
    resume (app s) ph input = Some (a', ph') ->
    step s {| app := a'; invocations := <[i := ph']> (invocations s) |}.

Definition initialApp : App :=
  {| isProcessing := false; buttonLoading := false; buttonDisabled := false;
     effects := [] |}.

Definition initial : System := {| app := initialApp; invocations := [] |}.

Definition reachable : System -> Prop := rtc step initial.

(** An invocation that has entered its [try] and not yet returned. *)
Definition inProgress (ph : Phase) : Prop := ph <> Returned.

Global Instance inProgress_dec ph : Decision (inProgress ph).
Proof. unfold inProgress. destruct ph; (by left) || (right; by intros H). Defined.

End Taskpane.
Import Taskpane.

(** ** Review requests *)

Section ReviewRequests.

Lemma trimStart_nil s :
  trimStart s = [] <-> Forall (fun c => isSpace c = true) s.
Proof.
  induction s as [|c s IH]; simpl.
  - split; [constructor|done].
  - destruct (isSpace c) eqn:E.
    + rewrite IH. split; [by constructor|]. by intros [_ ?]%Forall_cons.
    + split; [done|]. intros [? _]%Forall_cons. congruence.
Qed.

Lemma trimStart_head c s : trimStart s = c :: s -> isSpace c = false.
Proof.
  revert c. induction s as [|d s IH]; intros c; simpl; [done|].
  destruct (isSpace d) eqn:E.
  - intros H. exfalso.
    assert (Hlen : length (trimStart s) <= length s).
    { clear. induction s as [|x s IH]; simpl; [lia|].
      destruct (isSpace x); simpl; lia. }
    rewrite H in Hlen. simpl in Hlen. lia.
  - by intros [= -> _].
Qed.

Lemma trimStart_cases s :
  trimStart s = []
  \/ exists c r, trimStart s = c :: r /\ isSpace c = false.
Proof.
  induction s as [|c s IH]; simpl; [by left|].
  destruct (isSpace c) eqn:E; [exact IH|]. right. eauto.
Qed.

(** [trim] leaves nothing exactly of the strings that are empty or all
    whitespace. *)
Lemma trim_nil s : trim s = [] <-> Forall (fun c => isSpace c = true) s.
Proof.
  unfold trim. split.
  - intros H. apply (f_equal (@rev _)) in H. rewrite rev_involutive in H.
    simpl in H. apply trimStart_nil in H.
    destruct (trimStart_cases s) as [E|(c & r & E & Hc)].
    + by apply trimStart_nil.
    + rewrite E in H. apply Forall_rev in H. rewrite rev_involutive in H.
      apply Forall_cons in H as [H _]. congruence.
  - intros H. apply trimStart_nil in H. by rewrite H.
Qed.

(** What an invocation added to the trace. *)
Definition newEffects (before after : App) : list Effect :=
  drop (length (effects before)) (effects after).

Lemma newEffects_app a a' e : effects a' = effects a ++ e -> newEffects a a' = e.
Proof. intros H. unfold newEffects. by rewrite H, drop_app_length. Qed.

Lemma filter_insert_length {A} (P : A -> Prop) `{!forall x, Decision (P x)}
    (l : list A) i x y :
  l !! i = Some x ->
  length (filter P (<[i:=y]> l)) + (if decide (P x) then 1 else 0)
  = length (filter P l) + (if decide (P y) then 1 else 0).
Proof.
  revert i. induction l as [|z l IH]; intros i Hi; [done|].
  destruct i as [|i]; simpl in *.
  - injection Hi as ->. rewrite !filter_cons.
    destruct (decide (P x)), (decide (P y)); simpl; lia.
  - rewrite !filter_cons. specialize (IH i Hi).
    destruct (decide (P z)); simpl; lia.
Qed.

Lemma filter_unique {A} (P : A -> Prop) `{!forall x, Decision (P x)}
    (l : list A) i j x y :
  length (filter P l) <= 1 ->
  l !! i = Some x -> l !! j = Some y -> P x -> P y -> i = j.
Proof.
  revert i j. induction l as [|z l IH]; intros i j Hlen Hi Hj Hx Hy; [done|].
  rewrite filter_cons in Hlen.
  assert (Hin : forall k u, l !! k = Some u -> P u -> 1 <= length (filter P l)).
  { intros k u Hk Hu.
    assert (Hu' : u ∈ filter P l).
    { apply list_elem_of_filter. split; [done|]. by eapply list_elem_of_lookup_2. }
    destruct (filter P l); [by apply elem_of_nil in Hu'|simpl; lia]. }
  destruct i as [|i], j as [|j]; simpl in *.
  - done.
  - injection Hi as ->. rewrite decide_True in Hlen by done.
    specialize (Hin j y Hj Hy). simpl in Hlen. lia.
  - injection Hj as ->. rewrite decide_True in Hlen by done.
    specialize (Hin i x Hi Hx). simpl in Hlen. lia.
  - f_equal. apply IH; [|done..].
    destruct (decide (P z)); simpl in Hlen; lia.
Qed.

(** A segment that resumes an invocation either returns with the flag
    reset or suspends again with the flag as it was. *)
Lemma resume_flag a ph input a' ph' :
  resume a ph input = Some (a', ph') ->
  inProgress ph
  /\ (ph' = Returned /\ isProcessing a' = false
      \/ inProgress ph' /\ isProcessing a' = isProcessing a).
Proof.
  destruct ph, input; try done; cbn; intros [= H].
  - split; [done|]. unfold onSelection in H. destruct s as [text|msg].
    + destruct (_ || _); injection H as <- <-; [by left|by right].
    + injection H as <- <-. by left.
  - split; [done|]. unfold onResponse in H.
    destruct s as [[response|]|msg]; injection H as <- <-;
      [by right|by left|by left].
  - split; [done|]. unfold onApplied in H.
    destruct s; injection H as <- <-; by left.
Qed.

Lemma enter_flag a promptValue :
  (isProcessing a = true ->
     enter a promptValue = (emit a [AddLog AlreadyProcessing warning], Returned))
  /\ ((enter a promptValue).2 = Returned
        /\ isProcessing (enter a promptValue).1 = isProcessing a
      \/ isProcessing a = false /\ inProgress (enter a promptValue).2
         /\ isProcessing (enter a promptValue).1 = true).
Proof.
  unfold enter. destruct (isProcessing a) eqn:E.
  - split; [done|]. by left.
  - split; [done|]. case_bool_decide; [by left|]. right. by repeat split.
Qed.

(** The flag counts the invocations in progress. *)
Definition flagCounts (s : System) : Prop :=
  length (filter inProgress (invocations s))
  = if isProcessing (app s) then 1 else 0.

Lemma step_flagCounts s s' : flagCounts s -> step s s' -> flagCounts s'.
Proof.
  unfold flagCounts. intros Hinv Hstep. destruct Hstep as [s p|s i ph input a' ph' Hi Hr].
  - cbn. rewrite filter_app, length_app.
    destruct (enter_flag (app s) p) as [_ [[E1 E2]|(E0 & E1 & E2)]].
    + rewrite E1, E2, Hinv, filter_cons, filter_nil.
      rewrite decide_False by (by intros H). simpl. lia.
    + rewrite E2, Hinv, E0, filter_cons, filter_nil.
      by rewrite decide_True by done.
  - cbn. apply resume_flag in Hr as [Hph Hr].
    pose proof (filter_insert_length inProgress (invocations s) i ph ph' Hi) as Hc.
    rewrite decide_True in Hc by done.
    assert (Hone : 1 <= length (filter inProgress (invocations s))).
    { assert (Hin : ph ∈ filter inProgress (invocations s)).
      { apply list_elem_of_filter. split; [done|]. by eapply list_elem_of_lookup_2. }
      destruct (filter _ _); [by apply elem_of_nil in Hin|simpl; lia]. }
    destruct (isProcessing (app s)); [|lia].
    destruct Hr as [[-> ->]|[Hph' ->]].
    + rewrite decide_False in Hc by (by intros H). lia.
    + rewrite decide_True in Hc by done. lia.
Qed.

Lemma reachable_flagCounts s : reachable s -> flagCounts s.
Proof.
  revert s. unfold reachable. apply rtc_ind_r; [done|].
  intros s s' _ Hstep IH. by eapply step_flagCounts.
Qed.

End ReviewRequests.

(** ** C9 *)

(** The claim of C9 fails for an empty revised text: with the selection
    ["abc"] and the LLM response [""], [handleReviewSelection] assigns the
    change-tracking mode and hands the empty text to the diff strategy; no
    error is raised. *)
Lemma empty_revised_text_applied :
  let cfg := {| trackChangesEnabled := true; lineDiffEnabled := false |} in
  let a' := handleReviewSelection cfg true initialApp (str "Fix: {selection}")
              (Resolved (str "abc")) (Resolved (Some [])) (Resolved tt) in
  AssignChangeTracking trackAll ∈ effects a'
  /\ ApplyStrategy TokenMapStrategy (str "abc") [] ∈ effects a'
  /\ (forall f, AddLog (ErrorMessage f) error_ ∉ effects a')
  /\ ~ Forall (fun e => ~ mutates e) (effects a').
Proof.
  intros cfg a'. vm_compute in a'. subst a'. cbn [effects].
  split; [|split; [|split]].
  - do 6 right. left.
  - do 7 right. left.
  - intros f Hin.
    repeat (apply elem_of_cons in Hin as [Hin|Hin]; [discriminate Hin|]).
    by apply elem_of_nil in Hin.
  - intros H. do 6 apply Forall_cons in H as [_ H].
    apply Forall_cons in H as [H _]. by apply H.
Qed.

Ltac harmless :=
  repeat (apply Forall_cons; split; [split; [by intros ?|done]|]);
  by constructor.

(** C9, amended.  An empty or whitespace-only selection is rejected before
    any document mutation is attempted: [handleReviewSelection] raises
    "Please select some text first.", logs it, and neither calls the LLM,
    nor assigns the change-tracking mode, nor runs a diff strategy.  An
    empty revised text is not rejected by [handleReviewSelection]: it is
    handed to the diff strategy after the change-tracking mode was
    assigned. *)
Theorem blank_selection_rejected (cfg : Config) (trackingAvailable : bool)
    (a : App) (promptValue selection : jsstring)
    (llm : Settled (option jsstring)) (applied : Settled unit) :
  Forall (fun c => isSpace c = true) selection ->
  let a' := handleReviewSelection cfg trackingAvailable a promptValue
              (Resolved selection) llm applied in
  Forall (fun e => ~ mutates e /\ forall p s, e <> SendPromptToLLM p s)
         (newEffects a a')
  /\ (isProcessing a = false -> trim promptValue <> [] ->
      effects a' = effects a ++
                   [LoadSelection; AddLog (ErrorMessage SelectSomeText) error_]
      /\ isProcessing a' = false)
  /\ (forall sel, isProcessing a = false -> trim promptValue <> [] ->
      trim sel <> [] ->
      let b := handleReviewSelection cfg trackingAvailable a promptValue
                 (Resolved sel) (Resolved (Some [])) applied in
      ApplyStrategy (if lineDiffEnabled cfg then SentenceDiffStrategy
                     else TokenMapStrategy) sel [] ∈ newEffects a b
      /\ (trackingAvailable = true ->
          AssignChangeTracking
            (if trackChangesEnabled cfg then trackAll else trackOff)
          ∈ newEffects a b)).
Proof.
  intros Hblank a'. apply trim_nil in Hblank.
  assert (Hsel : forall a1 p,
            onSelection a1 p (Resolved selection)
            = (catchFinally a1 SelectSomeText, Returned)).
  { intros a1 p. unfold onSelection. rewrite Hblank.
    by destruct (bool_decide (selection = [])). }
  split; [|split].
  - unfold a', handleReviewSelection, enter.
    destruct (isProcessing a).
    + cbn. rewrite (newEffects_app a _ [AddLog AlreadyProcessing warning]) by done.
      harmless.
    + case_bool_decide.
      * cbn. rewrite (newEffects_app a _ [AddLog EnterPrompt warning]) by done.
        harmless.
      * rewrite Hsel. cbn.
        rewrite (newEffects_app a _
                   [LoadSelection; AddLog (ErrorMessage SelectSomeText) error_])
          by (cbn; by rewrite <- app_assoc).
        harmless.
  - intros Hflag Hprompt. unfold a', handleReviewSelection, enter.
    rewrite Hflag, bool_decide_eq_false_2 by done. rewrite Hsel. cbn.
    by rewrite <- app_assoc.
  - intros sel Hflag Hprompt Hsel' b.
    assert (Hb : exists tail,
              effects b = effects a ++
                [LoadSelection; AddLog (ProcessingSelection (length sel)) info;
                 SendPromptToLLM (trim promptValue) sel;
                 AddLog ResponseReceived success;
                 AddLog (ResponsePreview [] false) info;
                 AddLog ApplyingChanges info]
                ++ (if trackingAvailable then
                      [AssignChangeTracking
                         (if trackChangesEnabled cfg then trackAll else trackOff)]
                    else [])
                ++ [ApplyStrategy (if lineDiffEnabled cfg then SentenceDiffStrategy
                                   else TokenMapStrategy) sel []] ++ tail).
    { unfold b, handleReviewSelection, enter.
      rewrite Hflag, bool_decide_eq_false_2 by done.
      unfold onSelection.
      assert (Hne : sel <> []) by (by intros ->).
      rewrite (bool_decide_eq_false_2 (sel = [])) by done.
      rewrite (bool_decide_eq_false_2 (trim sel = [])) by done.
      cbn [orb onResponse]. unfold onApplied.
      destruct applied; cbn; rewrite <- !app_assoc; cbn;
        destruct trackingAvailable; cbn; eauto. }
    destruct Hb as [tail Hb].
    rewrite (newEffects_app a b _ Hb). split.
    + do 6 right. apply elem_of_app. right. by left.
    + intros ->. do 6 right. by left.
Qed.

(** A selection of two spaces. *)
Lemma blank_selection_rejected_witness :
  let cfg := {| trackChangesEnabled := true; lineDiffEnabled := false |} in
  effects (handleReviewSelection cfg true initialApp (str "Fix: {selection}")
             (Resolved (str "  ")) (Resolved (Some (str "x"))) (Resolved tt))
  = [LoadSelection; AddLog (ErrorMessage SelectSomeText) error_].
Proof.
  intros cfg.
  assert (Hblank : Forall (fun c => isSpace c = true) (str "  "))
    by (repeat constructor).
  destruct (blank_selection_rejected cfg true initialApp
              (str "Fix: {selection}") (str "  ") (Resolved (Some (str "x")))
              (Resolved tt) Hblank) as (_ & H & _).
  destruct H as [H _]; [reflexivity|vm_compute; discriminate|].
  exact H.
Defined.

(** ** C10 *)

(** C10. An invocation that finds [isProcessing] set returns at once: it
    logs a warning and neither loads the selection, nor calls the LLM, nor
    queues a mutation.  Every invocation that got past the guard resets
    [isProcessing] when it returns, on the success path and on every error
    path.  Hence, however clicks and settled promises interleave, the flag
    is set exactly while one invocation is in progress, and no two
    invocations are in progress at a time. *)
Theorem single_review_in_progress (s : System) :
  reachable s ->
  (forall promptValue, isProcessing (app s) = true ->
     enter (app s) promptValue
     = (emit (app s) [AddLog AlreadyProcessing warning], Returned))
  /\ (forall ph input a', resume (app s) ph input = Some (a', Returned) ->
        isProcessing a' = false)
  /\ (length (filter inProgress (invocations s))
      = if isProcessing (app s) then 1 else 0)
  /\ (forall i j ph ph',
        invocations s !! i = Some ph -> invocations s !! j = Some ph' ->
        inProgress ph -> inProgress ph' -> i = j).
Proof.
  intros Hreach. pose proof (reachable_flagCounts s Hreach) as Hcount.
  split; [|split; [|split]].
  - intros p. apply enter_flag.
  - intros ph input a' Hr. apply resume_flag in Hr as [_ [[_ ?]|[? _]]]; done.
  - exact Hcount.
  - intros i j ph ph' Hi Hj Hp Hp'.
    apply (filter_unique inProgress (invocations s) i j ph ph'); [|done..].
    unfold flagCounts in Hcount. rewrite Hcount.
    destruct (isProcessing (app s)); lia.
Qed.

(** Two clicks in a row: the second invocation returns at the guard. *)
Lemma single_review_in_progress_witness :
  let s1 := {| app := (enter initialApp (str "Fix")).1;
               invocations := [] ++ [(enter initialApp (str "Fix")).2] |} in
  enter (app s1) (str "Fix")
  = (emit (app s1) [AddLog AlreadyProcessing warning], Returned).
Proof.
  intros s1.
  assert (Hreach : reachable s1).
  { unfold reachable. eapply rtc_l; [|apply rtc_refl].
    exact (step_invoke initial (str "Fix")). }
  destruct (single_review_in_progress s1 Hreach) as (Hguard & _).
  apply Hguard. reflexivity.
Defined.

(** * Further properties of the sources *)

(** ** Re-tokenizing runs of tokens *)

Section Retokenize.

Lemma span_run p run rest :
  Forall (fun c => p c = true) run ->
  (forall d r, rest = d :: r -> p d = false) ->
  span p (run ++ rest) = (run, rest).
Proof.
  intros Hall Hstop. induction Hall as [|c run Hc _ IH]; simpl.
  - destruct rest as [|d r]; [done|]. simpl. by rewrite (Hstop d r eq_refl).
  - by rewrite Hc, IH.
Qed.

Lemma maximalRuns_tail t toks : maximalRuns (t :: toks) -> maximalRuns toks.
Proof.
  intros [Hruns Hadj]. split; [by apply Forall_cons in Hruns as [_ ?]|].
  intros i u v Hu Hv. by apply (Hadj (S i)).
Qed.

Lemma maximalRuns_take k toks : maximalRuns toks -> maximalRuns (take k toks).
Proof.
  intros [Hruns Hadj]. split; [by apply Forall_take|].
  intros i u v Hu Hv. apply lookup_take_Some in Hu as [Hu _].
  apply lookup_take_Some in Hv as [Hv _]. by eapply Hadj.
Qed.

Lemma maximalRuns_drop k toks : maximalRuns toks -> maximalRuns (drop k toks).
Proof.
  intros [Hruns Hadj]. split; [by apply Forall_drop|].
  intros i u v Hu Hv. rewrite lookup_drop in Hu, Hv.
  replace (k + S i) with (S (k + i)) in Hv by lia. by eapply Hadj.
Qed.

(** A list of maximal runs is what the tokenizer makes of its
    concatenation. *)
Lemma tokenize_of_runs toks : maximalRuns toks -> tokenize (concat toks) = toks.
Proof.
  induction toks as [|t toks IH]; intros Hm; [done|].
  pose proof (maximalRuns_tail _ _ Hm) as Hm'.
  destruct Hm as [Hruns Hadj]. apply Forall_cons in Hruns as [[Hne Hcls] Hruns].
  destruct t as [|c run]; [done|].
  change (concat ((c :: run) :: toks)) with (c :: (run ++ concat toks)).
  destruct (tokenize_cons c (run ++ concat toks)) as (run' & rest' & Hmatch & ->).
  rewrite matchAt_eq in Hmatch.
  assert (Hspan : span (classPred (classOf c)) ((c :: run) ++ concat toks)
                  = (c :: run, concat toks)).
  { apply span_run.
    - apply Forall_forall. intros d Hd. apply classPred_spec.
      specialize (Hcls d Hd). unfold tokenClass in Hcls. simpl in Hcls.
      by injection Hcls.
    - intros d r Hrest. apply classPred_false.
      destruct toks as [|u toks']; [done|].
      apply Forall_cons in Hruns as [[Hune Hucls] _].
      destruct u as [|e u']; [done|]. simpl in Hrest. injection Hrest as <- _.
      specialize (Hadj 0 (c :: run) (e :: u') eq_refl eq_refl).
      unfold tokenClass in Hadj. simpl in Hadj. congruence. }
  change ((c :: run) ++ concat toks) with (c :: (run ++ concat toks)) in Hspan.
  rewrite Hspan in Hmatch. injection Hmatch as <- <-.
  by rewrite IH.
Qed.

End Retokenize.

(** X1. Any run of consecutive tokens of a text, glued together and
    tokenized again, gives the same tokens: the count that Pass 1 takes
    from re-tokenizing a chunk made of whole tokens is the number of those
    tokens. *)
Theorem retokenize_consecutive (s : jsstring) (i k : nat) :
  tokenize (concat (take k (drop i (tokenize s)))) = take k (drop i (tokenize s))
  /\ length (tokenize (concat (take k (drop i (tokenize s)))))
     = min k (length (tokenize s) - i).
Proof.
  assert (H : tokenize (concat (take k (drop i (tokenize s))))
              = take k (drop i (tokenize s))).
  { apply tokenize_of_runs, maximalRuns_take, maximalRuns_drop,
      tokenize_maximalRuns. }
  split; [exact H|]. by rewrite H, length_take, length_drop.
Qed.

(** ** The planner on a token map that lines up with the diff *)

Section AlignedPlanner.

(** The tokens the Equal and Delete chunks re-tokenize into, in order. *)
Definition originalTokens (diffs : list DiffOp) : list jsstring :=
  flat_map (fun d => tokenize d.2)
           (filter (fun d => d.1 = 0%Z \/ d.1 = (-1)%Z) diffs).

Definition deletedTokens (diffs : list DiffOp) : list jsstring :=
  flat_map (fun d => tokenize d.2) (filter (fun d => d.1 = (-1)%Z) diffs).

Definition equalTokens (diffs : list DiffOp) : list jsstring :=
  flat_map (fun d => tokenize d.2) (filter (fun d => d.1 = 0%Z) diffs).

(** The texts of the Insert chunks, in order. *)
Definition insertChunks (diffs : list DiffOp) : list jsstring :=
  map snd (filter (fun d => d.1 = 1%Z) diffs).

(** The token map has the tokens the diff was computed on. *)
Definition aligned (diffs : list DiffOp) (fineTokens : list Token) : Prop :=
  map text fineTokens = originalTokens diffs.

Lemma map_text_split (l : list Token) a b :
  map text l = a ++ b ->
  map text (take (length a) l) = a /\ map text (drop (length a) l) = b
  /\ length a <= length l.
Proof.
  intros H. apply fmap_app_inv in H as (l1 & l2 & -> & -> & ->).
  rewrite !length_fmap, take_app_length, drop_app_length, length_app.
  repeat split; lia.
Qed.

Lemma pass1From_cons fineTokens st d diffs :
  pass1From fineTokens st (d :: diffs)
  = pass1From fineTokens (pass1Step fineTokens st d) diffs.
Proof. done. Qed.

Lemma pass1From_aligned diffs fineTokens dt ti :
  ti <= length fineTokens ->
  map text (drop ti fineTokens) = originalTokens diffs ->
  exists D S,
    pass1From fineTokens (dt, ti) diffs = (dt ++ D, length fineTokens)
    /\ map text D = deletedTokens diffs
    /\ map text S = equalTokens diffs
    /\ Permutation (D ++ S) (drop ti fineTokens)
    /\ forall (P : Token -> Prop) (Hdec : forall t, Decision (P t)),
         Forall (fun t => ~ P t) D -> Forall P S ->
         filter P (drop ti fineTokens) = S.
Proof.
  revert dt ti. induction diffs as [|[op chunk] diffs IH]; intros dt ti Hti Hal.
  - exists [], []. cbn in Hal. apply fmap_nil_inv in Hal.
    assert (ti = length fineTokens) as ->.
    { apply (f_equal length) in Hal. rewrite length_drop in Hal. simpl in Hal. lia. }
    rewrite app_nil_r, Hal. by repeat split.
  - rewrite pass1From_cons. unfold pass1Step.
    unfold originalTokens, deletedTokens, equalTokens in *.
    rewrite !filter_cons in *. cbn [fst snd] in *.
    destruct (decide (op = 0%Z)) as [->|H0].
    + rewrite decide_True in Hal by (by left). cbn [flat_map fst snd] in Hal.
      apply map_text_split in Hal as (HE & Hrest & Hlen).
      rewrite length_drop in Hlen. rewrite drop_drop in Hrest.
      destruct (IH dt (ti + length (tokenize chunk)) ltac:(lia) Hrest)
        as (D & S & Hrun & HD & HS & Hperm & Hfilter).
      exists D, (take (length (tokenize chunk)) (drop ti fineTokens) ++ S).
      rewrite decide_False by done.
      cbn [flat_map fst snd]. rewrite map_app, HE, HS.
      split; [done|]. split; [done|]. split; [done|]. split.
      * rewrite Permutation_app_swap_app, Hperm, <- drop_drop.
        by rewrite take_drop.
      * intros P Hdec HDn HSp. apply Forall_app in HSp as [HEp HSp].
        rewrite <- (take_drop (length (tokenize chunk)) (drop ti fineTokens)) at 1.
        rewrite filter_app, drop_drop, (Hfilter P Hdec HDn HSp).
        by rewrite (filter_all P _ HEp).
    + destruct (decide (op = (-1)%Z)) as [->|H1].
      * rewrite decide_True in Hal by (by right). cbn [flat_map fst snd] in Hal.
        apply map_text_split in Hal as (HE & Hrest & Hlen).
        rewrite length_drop in Hlen. rewrite drop_drop in Hrest.
        rewrite collectDeletes_spec.
        replace (min (length (tokenize chunk)) (length fineTokens - ti))
          with (length (tokenize chunk)) by lia.
        destruct (IH (dt ++ take (length (tokenize chunk)) (drop ti fineTokens))
                    (ti + length (tokenize chunk)) ltac:(lia) Hrest)
          as (D & S & Hrun & HD & HS & Hperm & Hfilter).
        exists (take (length (tokenize chunk)) (drop ti fineTokens) ++ D), S.
        cbn [flat_map fst snd]. rewrite map_app, HE, HD.
        split; [by rewrite Hrun, <- app_assoc|].
        split; [done|]. split; [done|]. split.
        -- rewrite <- app_assoc, Hperm, <- drop_drop. by rewrite take_drop.
        -- intros P Hdec HDn HSp. apply Forall_app in HDn as [HEn HDn].
           rewrite <- (take_drop (length (tokenize chunk)) (drop ti fineTokens)) at 1.
           rewrite filter_app, drop_drop, (Hfilter P Hdec HDn HSp).
           assert (Hnone : filter P (take (length (tokenize chunk))
                                       (drop ti fineTokens)) = []).
           { clear -HEn. induction HEn as [|t l Ht _ IHl]; [done|].
             rewrite filter_cons. by rewrite decide_False. }
           by rewrite Hnone.
      * rewrite decide_False in Hal by (by intros [?|?]).
        by apply IH.
Qed.

Lemma indexed_NoDup fineTokens : indexed fineTokens -> NoDup (map index fineTokens).
Proof.
  intros Hidx. apply NoDup_alt. intros i j x Hi Hj.
  rewrite list_lookup_fmap in Hi, Hj.
  destruct (fineTokens !! i) as [t|] eqn:Ei; [|done].
  destruct (fineTokens !! j) as [u|] eqn:Ej; [|done].
  apply Hidx in Ei, Ej. simpl in *. congruence.
Qed.

(** Equal tokens in a row are taken off an Equal chunk one by one. *)
Lemma consumeEqual_tokens ts : forall fuel tokens idx last rest,
  drop idx tokens = ts ++ rest ->
  Forall (fun t => text t <> []) ts ->
  length ts <= fuel ->
  consumeEqual fuel tokens (concat (map text ts)) idx last
  = Ok (idx + length ts, anchorAfter tokens idx (length ts) last).
Proof.
  induction ts as [|t ts IH]; intros fuel tokens idx last rest Hdrop Hne Hfuel.
  - rewrite Nat.add_0_r. by destruct fuel.
  - destruct fuel as [|fuel]; [simpl in Hfuel; lia|].
    apply Forall_cons in Hne as [Ht Hne].
    assert (Hlook : tokens !! idx = Some t).
    { rewrite <- (Nat.add_0_r idx), <- lookup_drop, Hdrop. done. }
    assert (Hdrop' : drop (S idx) tokens = ts ++ rest).
    { rewrite (drop_S _ _ _ Hlook) in Hdrop. by injection Hdrop. }
    cbn [consumeEqual map concat]. rewrite bool_decide_eq_true_2.
    2:{ rewrite length_app. destruct (text t); [done|simpl; lia]. }
    rewrite Hlook, startsWith_app, slice_app.
    rewrite (IH fuel tokens (S idx) (Some (range t)) rest Hdrop' Hne)
      by (simpl in Hfuel; lia).
    f_equal. f_equal; [simpl; lia|].
    destruct ts as [|u ts']; simpl.
    + by rewrite Nat.add_0_r, Hlook.
    + by replace (idx + S (length ts')) with (S (idx + length ts')) by lia.
Qed.

Lemma pass2From_aligned diffs tokens st :
  anchored tokens st ->
  map text (drop (currentTokenIdx st) tokens) = equalTokens diffs ->
  exists p2,
    pass2From tokens st diffs = Ok p2
    /\ currentTokenIdx p2 = length tokens
    /\ map insertText (insertOps p2)
       = map insertText (insertOps st) ++ insertChunks diffs.
Proof.
  revert st. induction diffs as [|[op chunk] diffs IH]; intros st Ha Hal.
  - exists st. cbn in Hal. apply fmap_nil_inv in Hal.
    pose proof (anchored_idx _ _ Ha) as Hle.
    apply (f_equal length) in Hal. rewrite length_drop in Hal. simpl in Hal.
    split; [done|]. split; [lia|]. unfold insertChunks. by rewrite app_nil_r.
  - cbn [pass2From]. unfold equalTokens, insertChunks in *.
    rewrite !filter_cons in *. cbn [fst snd] in *.
    destruct (decide (op = 0%Z)) as [->|H0].
    + cbn [flat_map fst snd] in Hal. apply map_text_split in Hal as (HE & Hrest & Hlen).
      rewrite length_drop in Hlen. rewrite drop_drop in Hrest.
      set (n := length (tokenize chunk)) in *.
      set (ts := take n (drop (currentTokenIdx st) tokens)) in *.
      assert (Hts : length ts = n).
      { unfold ts. rewrite length_take, length_drop. lia. }
      assert (Hstep : pass2Step tokens st (0%Z, chunk)
                = Ok {| insertOps := insertOps st;
                        currentTokenIdx := currentTokenIdx st + n;
                        lastAnchorRange :=
                          anchorAfter tokens (currentTokenIdx st) n
                            (lastAnchorRange st) |}).
      { unfold pass2Step. cbn.
        rewrite <- (tokenize_concat chunk), <- HE.
        rewrite (consumeEqual_tokens ts (length tokens) tokens
                   (currentTokenIdx st) (lastAnchorRange st)
                   (drop (currentTokenIdx st + n) tokens)).
        - by rewrite Hts.
        - unfold ts. by rewrite <- drop_drop, take_drop.
        - apply Forall_forall. intros t Ht Hnil.
          assert (Hin : text t ∈ tokenize chunk).
          { rewrite <- HE. by apply list_elem_of_fmap_2. }
          pose proof (tokenize_nonempty chunk) as Hne.
          rewrite Forall_forall in Hne. specialize (Hne _ Hin).
          by rewrite Hnil in Hne.
        - pose proof (anchored_idx _ _ Ha). lia. }
      rewrite Hstep.
      assert (Ha' : anchored tokens
                {| insertOps := insertOps st;
                   currentTokenIdx := currentTokenIdx st + n;
                   lastAnchorRange :=
                     anchorAfter tokens (currentTokenIdx st) n
                       (lastAnchorRange st) |}).
      { by eapply pass2Step_anchored. }
      destruct (IH _ Ha' Hrest) as (p2 & Hrun & Hidx & Hins).
      exists p2. rewrite decide_False by done. by repeat split.
    + destruct (decide (op = 1%Z)) as [->|H1].
      * destruct (pass2Step tokens st (1%Z, chunk)) as [st'|e] eqn:Hstep.
        2:{ unfold pass2Step in Hstep. cbn in Hstep.
            by destruct (lastAnchorRange st). }
        pose proof (pass2Step_anchored _ _ _ _ Ha Hstep) as Ha'.
        assert (Hst' : currentTokenIdx st' = currentTokenIdx st
                       /\ map insertText (insertOps st')
                          = map insertText (insertOps st) ++ [chunk]).
        { unfold pass2Step in Hstep. cbn in Hstep.
          destruct (lastAnchorRange st); injection Hstep as <-; cbn;
            by rewrite map_app. }
        destruct Hst' as [Hi' Hins'].
        destruct (IH st' Ha') as (p2 & Hrun & Hidx & Hins);
          [by rewrite Hi'|].
        exists p2. split; [done|]. split; [done|].
        rewrite Hins, Hins'. cbn. by rewrite <- app_assoc.
      * assert (Hstep : pass2Step tokens st (op, chunk) = Ok st).
        { unfold pass2Step. by rewrite !decide_False. }
        rewrite Hstep. by apply IH.
Qed.

End AlignedPlanner.

(** Pass 1 on a token map that has the tokens of the Equal and Delete
    chunks. *)
Lemma pass1_survivors (diffs : list DiffOp) (fineTokens : list Token) :
  indexed fineTokens -> aligned diffs fineTokens ->
  (pass1 diffs fineTokens).2 = length fineTokens
  /\ map text (pass1 diffs fineTokens).1 = deletedTokens diffs
  /\ map text (tokensAfterDeletes fineTokens (pass1 diffs fineTokens).1)
     = equalTokens diffs.
Proof.
  intros Hidx Hal.
  destruct (pass1From_aligned diffs fineTokens [] 0 ltac:(lia) Hal)
    as (D & S & Hrun & HD & HS & Hperm & Hfilter).
  unfold pass1. rewrite Hrun. cbn [fst snd app].
  split; [done|]. split; [done|].
  rewrite drop_0 in Hperm, Hfilter.
  unfold tokensAfterDeletes. rewrite Hfilter; [done| |].
  - apply Forall_forall. intros t Ht Hn. apply Hn.
    unfold deletedIndices. apply elem_of_list_to_set.
    by apply list_elem_of_fmap_2.
  - apply Forall_forall. intros t Ht Hin.
    unfold deletedIndices in Hin. apply elem_of_list_to_set in Hin.
    apply list_elem_of_fmap_1 in Hin as (u & Hiu & Hu).
    pose proof (indexed_NoDup _ Hidx) as Hnd.
    rewrite <- Hperm, map_app in Hnd.
    apply NoDup_app in Hnd as (_ & Hdisj & _).
    apply (Hdisj (index u)); [by apply list_elem_of_fmap_2|].
    rewrite <- Hiu. by apply list_elem_of_fmap_2.
Qed.

(** X2. When the token map has exactly the tokens the Equal and Delete
    chunks re-tokenize into, Pass 1 ends with the cursor at the end of the
    map, its delete targets are the tokens of the Delete chunks, in order,
    and the tokens that survive are those of the Equal chunks. *)
Theorem pass1_aligned (diffs : list DiffOp) (fineTokens : list Token) :
  indexed fineTokens -> aligned diffs fineTokens ->
  (pass1 diffs fineTokens).2 = length fineTokens
  /\ map text (pass1 diffs fineTokens).1 = deletedTokens diffs
  /\ map text (tokensAfterDeletes fineTokens (pass1 diffs fineTokens).1)
     = equalTokens diffs.
Proof. apply pass1_survivors. Qed.

(** ["The quick brown fox"] against the diff that deletes ["brown "]. *)
Lemma pass1_aligned_witness :
  let r := {| rangeStart := 0; rangeLength := 0 |} in
  let fineTokens :=
    assignIndex (map (fun t => (t, r)) (tokenize (str "The quick brown fox"))) in
  let diffs := computeDiff (str "The quick brown fox") (str "The quick fox") in
  map text (pass1 diffs fineTokens).1 = [str "brown"; str " "]
  /\ map text (tokensAfterDeletes fineTokens (pass1 diffs fineTokens).1)
     = [str "The"; str " "; str "quick"; str " "; str "fox"].
Proof.
  intros r fineTokens diffs.
  destruct (pass1_aligned diffs fineTokens (indexed_assignIndex _))
    as (_ & H1 & H2); [vm_compute; reflexivity|].
  rewrite H1, H2. split; vm_compute; reflexivity.
Defined.

(** X3. On such a token map the alignment check never fires: Pass 2
    returns a plan, it has consumed every surviving token, and its insert
    ops carry the texts of the Insert chunks, one op per chunk, in
    order. *)
Theorem planner_accepts_aligned (diffs : list DiffOp) (fineTokens : list Token) :
  indexed fineTokens -> aligned diffs fineTokens ->
  exists p2,
    pass2 diffs fineTokens (pass1 diffs fineTokens).1 = Ok p2
    /\ currentTokenIdx p2
       = length (tokensAfterDeletes fineTokens (pass1 diffs fineTokens).1)
    /\ map insertText (insertOps p2) = insertChunks diffs.
Proof.
  intros Hidx Hal.
  destruct (pass1_survivors diffs fineTokens Hidx Hal) as (_ & _ & Hsurv).
  unfold pass2.
  destruct (pass2From_aligned diffs
              (tokensAfterDeletes fineTokens (pass1 diffs fineTokens).1)
              pass2Init) as (p2 & Hrun & Hi & Hins); [done|by rewrite drop_0|].
  exists p2. by repeat split.
Qed.

Lemma planner_accepts_aligned_witness :
  let r := {| rangeStart := 0; rangeLength := 0 |} in
  let fineTokens :=
    assignIndex (map (fun t => (t, r)) (tokenize (str "The quick brown fox"))) in
  let diffs := computeDiff (str "The quick brown fox") (str "A quick red fox") in
  exists p2,
    pass2 diffs fineTokens (pass1 diffs fineTokens).1 = Ok p2
    /\ map insertText (insertOps p2) = [str "A"; str "red"].
Proof.
  intros r fineTokens diffs.
  destruct (planner_accepts_aligned diffs fineTokens (indexed_assignIndex _))
    as (p2 & Hrun & _ & Hins); [vm_compute; reflexivity|].
  exists p2. split; [exact Hrun|]. rewrite Hins. vm_compute. reflexivity.
Defined.

(** ** What a plan can refer to *)

Section PlanSoundness.

(** An insert op of a plan over [tokens]: before the paragraph start, or
    after the range of one of the tokens. *)
Definition soundInsert (tokens : list Token) (op : InsertOp) : Prop :=
  (anchor op = AtParagraphStart /\ location op = Before)
  \/ exists t, t ∈ tokens /\ anchor op = AtRange (range t) /\ location op = After.

Lemma pass2Step_sound tokens st d st' :
  anchored tokens st -> Forall (soundInsert tokens) (insertOps st) ->
  pass2Step tokens st d = Ok st' ->
  Forall (soundInsert tokens) (insertOps st').
Proof.
  intros Ha Hs. destruct d as [op chunk]. unfold pass2Step.
  destruct (decide (op = 0%Z)).
  - destruct (consumeEqual _ _ _ _ _) as [[idx last]|err]; [|done].
    by intros [= <-].
  - destruct (decide (op = 1%Z)); [|by intros [= <-]].
    unfold anchored in Ha.
    destruct (currentTokenIdx st) as [|i] eqn:Ei.
    + rewrite Ha. intros [= <-]. cbn. apply Forall_app. split; [done|].
      apply Forall_singleton. by left.
    + destruct Ha as (t & Ht & ->). intros [= <-]. cbn.
      apply Forall_app. split; [done|]. apply Forall_singleton. right.
      exists t. split; [by eapply list_elem_of_lookup_2|done].
Qed.

Lemma pass2From_sound tokens st diffs p2 :
  anchored tokens st -> Forall (soundInsert tokens) (insertOps st) ->
  pass2From tokens st diffs = Ok p2 ->
  Forall (soundInsert tokens) (insertOps p2).
Proof.
  revert st. induction diffs as [|d diffs IH]; intros st Ha Hs H;
    cbn [pass2From] in H.
  - by injection H as <-.
  - destruct (pass2Step tokens st d) as [st1|e] eqn:E; [|done].
    eapply IH; [| |exact H].
    + by eapply pass2Step_anchored.
    + by eapply pass2Step_sound.
Qed.

Lemma pass2From_texts tokens st diffs p2 :
  pass2From tokens st diffs = Ok p2 ->
  map insertText (insertOps p2)
  = map insertText (insertOps st) ++ insertChunks diffs.
Proof.
  revert st. induction diffs as [|[op chunk] diffs IH]; intros st H;
    cbn [pass2From] in H.
  - injection H as <-. unfold insertChunks. by rewrite app_nil_r.
  - destruct (pass2Step tokens st (op, chunk)) as [st1|e] eqn:E; [|done].
    apply IH in H. rewrite H. unfold insertChunks. rewrite filter_cons.
    cbn [fst]. unfold pass2Step in E.
    destruct (decide (op = 0%Z)) as [->|H0].
    + destruct (consumeEqual _ _ _ _ _) as [[idx last]|err]; [|done].
      injection E as <-. by rewrite decide_False.
    + destruct (decide (op = 1%Z)) as [->|H1].
      * destruct (lastAnchorRange st); injection E as <-; cbn;
          by rewrite map_app, <- app_assoc.
      * by injection E as <-.
Qed.

Lemma collectDeletes_subset count fineTokens dt ti :
  Forall (fun t => t ∈ fineTokens) dt ->
  Forall (fun t => t ∈ fineTokens) (collectDeletes count fineTokens dt ti).1.
Proof.
  intros H. rewrite collectDeletes_spec. cbn. apply Forall_app. split; [done|].
  apply Forall_forall. intros t Ht.
  apply list_elem_of_lookup_1 in Ht as [i Hi].
  apply lookup_take_Some in Hi as [Hi _]. rewrite lookup_drop in Hi.
  by eapply list_elem_of_lookup_2.
Qed.

Lemma pass1From_subset fineTokens diffs st :
  Forall (fun t => t ∈ fineTokens) st.1 ->
  Forall (fun t => t ∈ fineTokens) (pass1From fineTokens st diffs).1.
Proof.
  revert st. induction diffs as [|[op chunk] diffs IH]; intros [dt ti] H; [done|].
  rewrite pass1From_cons. apply IH. unfold pass1Step.
  destruct (decide (op = 0%Z)); [done|].
  destruct (decide (op = (-1)%Z)); [|done].
  by apply collectDeletes_subset.
Qed.

End PlanSoundness.

(** X4. A plan refers to nothing outside its token map.  Every delete
    target of Pass 1 is a token of the map, with an index below its size.
    Whenever Pass 2 returns, its insert ops are the Insert chunks of the
    diff, one op per chunk and in order, and each op is either placed
    before the paragraph start or after the range of a token of the map
    that is not a delete target. *)
Theorem plan_within_token_map (resolved : list (jsstring * Range))
    (diffs : list DiffOp) (p2 : Pass2) :
  let fineTokens := assignIndex resolved in
  let deleteTargets := (pass1 diffs fineTokens).1 in
  pass2 diffs fineTokens deleteTargets = Ok p2 ->
  Forall (fun t => t ∈ fineTokens /\ index t < length fineTokens) deleteTargets
  /\ map insertText (insertOps p2) = insertChunks diffs
  /\ Forall (fun op =>
               (anchor op = AtParagraphStart /\ location op = Before)
               \/ exists t, t ∈ fineTokens
                    /\ (index t ∉ deletedIndices deleteTargets)
                    /\ anchor op = AtRange (range t) /\ location op = After)
            (insertOps p2).
Proof.
  intros fineTokens deleteTargets Hp2. split; [|split].
  - pose proof (pass1From_subset fineTokens diffs ([], 0) (Forall_nil_2 _)) as Hsub.
    eapply Forall_impl; [exact Hsub|]. intros t Ht. split; [done|].
    apply list_elem_of_lookup_1 in Ht as [i Hi].
    rewrite (indexed_assignIndex resolved i t Hi). by eapply lookup_lt_Some.
  - by rewrite (pass2From_texts _ _ _ _ Hp2).
  - unfold pass2 in Hp2.
    apply (pass2From_sound _ pass2Init) in Hp2; [|done|done].
    eapply Forall_impl; [exact Hp2|].
    intros op [?|(t & Ht & Ha & Hl)]; [by left|right].
    apply list_elem_of_filter in Ht as [Hnd Ht]. exists t. by repeat split.
Qed.

(** ["The quick brown fox"] to ["The quick red fox"]: ["red"] goes after
    the space that follows ["quick"]. *)
Lemma plan_within_token_map_witness :
  let resolved :=
    [(str "The", {| rangeStart := 0; rangeLength := 3 |});
     (str " ", {| rangeStart := 3; rangeLength := 1 |});
     (str "quick", {| rangeStart := 4; rangeLength := 5 |});
     (str " ", {| rangeStart := 9; rangeLength := 1 |});
     (str "brown", {| rangeStart := 10; rangeLength := 5 |});
     (str " ", {| rangeStart := 15; rangeLength := 1 |});
     (str "fox", {| rangeStart := 16; rangeLength := 3 |})] in
  let diffs := computeDiff (str "The quick brown fox") (str "The quick red fox") in
  exists p2,
    pass2 diffs (assignIndex resolved) (pass1 diffs (assignIndex resolved)).1
    = Ok p2
    /\ map insertText (insertOps p2) = [str "red"].
Proof.
  intros resolved diffs.
  assert (Hrun : exists p2,
             pass2 diffs (assignIndex resolved)
               (pass1 diffs (assignIndex resolved)).1 = Ok p2).
  { eexists. vm_compute. reflexivity. }
  destruct Hrun as [p2 Hrun]. exists p2. split; [exact Hrun|].
  destruct (plan_within_token_map resolved diffs p2 Hrun) as (_ & Htexts & _).
  rewrite Htexts. vm_compute. reflexivity.
Defined.

(** ** Token resolution by first match *)

(** X5. Inside one coarse range, two tokens with the same text are
    resolved to the same range: each is the first match of a search for
    its text in that coarse range. *)
Theorem same_text_same_range (h : Host) (cr : CoarseRange)
    (fineTokens : list Token) (i j : nat) (ti tj : Token) :
  buildTokenMap h [cr] = Ok fineTokens ->
  fineTokens !! i = Some ti -> fineTokens !! j = Some tj ->
  text ti = text tj ->
  range ti = range tj
  /\ head (searchIn h cr (text ti)) = Some (range ti).
Proof.
  intros Hb Hi Hj Htext. unfold buildTokenMap in Hb.
  destruct (processResults _ _) as [ft|e] eqn:E; [|done].
  injection Hb as <-.
  assert (Hres : forall proxies acc ft',
            processResults proxies acc = Ok ft' ->
            Forall (fun p => head (searchIn h cr p.1) = Some p.2) acc ->
            Forall (fun p => results p = searchIn h cr (proxyText p)) proxies ->
            Forall (fun p => head (searchIn h cr p.1) = Some p.2) ft').
  { clear. induction proxies as [|p ps IH]; intros acc ft' H Hacc Hps;
      cbn [processResults] in H.
    - by injection H as <-.
    - apply Forall_cons in Hps as [Hp Hps].
      destruct (results p) as [|item0 items] eqn:Er; [done|].
      eapply IH; [exact H| |done].
      apply Forall_app. split; [done|]. apply Forall_singleton. cbn.
      by rewrite <- Hp. }
  assert (Hall : Forall (fun p => head (searchIn h cr p.1) = Some p.2) ft).
  { eapply Hres; [exact E|done|].
    unfold queueSearches. cbn [flat_map]. rewrite app_nil_r.
    apply Forall_fmap, Forall_true. by intros tokenText. }
  assert (Hrange : forall k t, assignIndex ft !! k = Some t ->
            head (searchIn h cr (text t)) = Some (range t)).
  { intros k t Hk. unfold assignIndex in Hk. rewrite list_lookup_imap in Hk.
    destruct (ft !! k) as [p|] eqn:Ep; [|done]. injection Hk as <-. cbn.
    rewrite Forall_forall in Hall. apply Hall. by eapply list_elem_of_lookup_2. }
  pose proof (Hrange i ti Hi) as H1. pose proof (Hrange j tj Hj) as H2.
  split; [|done]. rewrite Htext in H1. congruence.
Qed.

(** In ["a-a"] both tokens ["a"] get the range of the first one. *)
Lemma same_text_same_range_witness :
  let cr := {| coarseText := str "a-a";
               coarseRange := {| rangeStart := 0; rangeLength := 3 |} |} in
  exists fineTokens t0 t2,
    buildTokenMap trackingHost [cr] = Ok fineTokens
    /\ fineTokens !! 0 = Some t0 /\ fineTokens !! 2 = Some t2
    /\ range t0 = range t2
    /\ range t2 = {| rangeStart := 0; rangeLength := 1 |}.
Proof.
  intros cr.
  assert (Hb : exists fineTokens t0 t2,
             buildTokenMap trackingHost [cr] = Ok fineTokens
             /\ fineTokens !! 0 = Some t0 /\ fineTokens !! 2 = Some t2
             /\ text t0 = text t2
             /\ range t0 = {| rangeStart := 0; rangeLength := 1 |}).
  { eexists _, _, _. split; [vm_compute; reflexivity|].
    split; [reflexivity|]. split; [reflexivity|]. split; reflexivity. }
  destruct Hb as (fineTokens & t0 & t2 & Hb & H0 & H2 & Htext & Hr0).
  exists fineTokens, t0, t2.
  destruct (same_text_same_range trackingHost cr fineTokens 0 2 t0 t2
              Hb H0 H2 Htext) as [Heq _].
  split; [exact Hb|]. split; [exact H0|]. split; [exact H2|].
  split; [exact Heq|]. by rewrite <- Heq.
Defined.

(** ** Change tracking around the edits *)


Section Tracking.

(** An edit through a handle of an earlier batch leaves the document's
    tracking mode alone. *)
Definition keepsTrackingMode (h : Host) : Prop :=
  forall d r d', commitStale h d r = Some d' ->
    changeTrackingMode d' = changeTrackingMode d.

Definition isEdit (r : Request) : Prop :=
  forall m, r <> SetChangeTracking m.

Lemma commit_app h d batch1 batch2 :
  commit h d (batch1 ++ batch2)
  = if (commit h d batch1).2 then commit h (commit h d batch1).1 batch2
    else ((commit h d batch1).1, false).
Proof.
  revert d. induction batch1 as [|r batch1 IH]; intros d; [done|].
  rewrite <- app_comm_cons. cbn [commit].
  destruct (commit1 h d r) as [d1|]; [apply IH|done].
Qed.

Lemma commit1_mode h d r d' :
  keepsTrackingMode h -> isEdit r -> commit1 h d r = Some d' ->
  changeTrackingMode d' = changeTrackingMode d.
Proof.
  intros Hk He. destruct r as [m|rg|rg t loc|t loc| |t loc|pos len|pos t];
    cbn [commit1].
  - by destruct (He m).
  - apply Hk.
  - apply Hk.
  - by intros [= <-].
  - by intros [= <-].
  - destruct loc; by intros [= <-].
  - by intros [= <-].
  - by intros [= <-].
Qed.

Lemma commit_mode h d batch :
  keepsTrackingMode h -> Forall isEdit batch ->
  changeTrackingMode (commit h d batch).1 = changeTrackingMode d.
Proof.
  intros Hk Hb. revert d. induction Hb as [|r batch Hr _ IH]; intros d; [done|].
  cbn [commit]. destruct (commit1 h d r) as [d1|] eqn:E; [|done].
  rewrite IH. by eapply commit1_mode.
Qed.

Lemma requestOf_edit a :
  (forall m, a <> SetTracking m) -> isEdit (requestOf a).
Proof.
  intros Ha m. destruct a as [m'|t|op]; cbn.
  - by destruct (Ha m').
  - done.
  - by destruct (anchor op).
Qed.

(** The bracketed batch of the execution phase. *)
Lemma commit_bracket h d edits :
  keepsTrackingMode h -> Forall isEdit edits ->
  let result := commit h d ([SetChangeTracking trackAll] ++ edits
                            ++ [SetChangeTracking trackOff]) in
  changeTrackingMode result.1 = if result.2 then trackOff else trackAll.
Proof.
  intros Hk He. cbn zeta. rewrite commit_app. cbn [commit commit1 fst snd].
  rewrite commit_app.
  pose proof (commit_mode h {| docText := docText d; changeTrackingMode := trackAll;
                               committed := committed d
                                            ++ [SetChangeTracking trackAll] |}
                edits Hk He) as Hm.
  destruct (commit h _ edits) as [d2 ok]. cbn [fst snd] in *.
  by destruct ok.
Qed.


Lemma trackingHost_keepsTrackingMode : keepsTrackingMode trackingHost.
Proof.
  intros d r d'. cbn. unfold commitRelocated.
  destruct (handlesValid (committed d)); [|done].
  destruct r as [m|rg|rg t loc|t loc| |t loc|pos len|pos t]; try done.
  - by intros [= <-].
  - destruct loc; try done; by intros [= <-].
Qed.

End Tracking.

(** X6. Change tracking around the execution phase of the token-map
    strategy, on a host that defines [Word.ChangeTrackingMode] and whose
    edits through earlier handles leave the tracking mode alone.  When the
    primary attempt returns, the document's tracking mode is off.  When
    the commit of the plan is rejected, the mode is left at [trackAll],
    whatever it was before.  When the attempt throws earlier, the document
    is untouched. *)
Theorem primary_tracking_mode (h : Host) (text1 text2 : jsstring)
    (w w' : World) (r : result error unit) :
  changeTrackingAvailable h = true -> keepsTrackingMode h ->
  pending w = [] ->
  primary h text1 text2 w = (r, w') ->
  match r with
  | Ok _ => changeTrackingMode (doc w') = trackOff
  | Err HostRejected => changeTrackingMode (doc w') = trackAll
  | Err _ => doc w' = doc w
  end.
Proof.
  intros Hav Hk Hp. rewrite primary_run by done.
  destruct (buildTokenMap h _) as [fineTokens|e1] eqn:Eb.
  - cbn zeta. destruct (pass2 _ _ _) as [p2|e2] eqn:E2.
    + unfold executionActions. rewrite Hav, !map_app. cbn [map requestOf].
      rewrite (app_assoc (map requestOf (map DeleteToken _))).
      match goal with
      | |- context [commit h (doc w) ([_] ++ ?edits ++ [_])] =>
          assert (He : Forall isEdit edits)
      end.
      { apply Forall_app. split; apply Forall_fmap, Forall_fmap, Forall_true;
          intros x; by apply requestOf_edit. }
      pose proof (commit_bracket h (doc w) _ Hk He) as Hb. cbn zeta in Hb.
      unfold afterExecution.
      destruct (commit h (doc w) _) as [d ok]. cbn [fst snd] in *.
      intros [= <- <-]. cbn [doc]. by destruct ok.
    + intros [= <- <-].
      unfold pass2 in E2. apply pass2From_err in E2 as (? & ? & ? & st & _ & _ & E2).
      unfold pass2Step in E2. cbn in E2.
      destruct (consumeEqual _ _ _ _ _) as [[? ?]|e3] eqn:Ec; [done|].
      injection E2 as <-. by apply consumeEqual_err in Ec as [-> _].
  - intros [= <- <-]. unfold buildTokenMap in Eb.
    destruct (processResults _ _) as [?|e2] eqn:Ep; [done|].
    injection Eb as <-.
    by apply processResults_err in Ep as (_ & p & _ & _ & _ & _ & ->).
Qed.

(** ["The quick brown fox"] to ["The quick fox"] with tracking set to
    [trackMineOnly] beforehand: the run returns and tracking is off. *)
Lemma primary_tracking_mode_witness :
  exists w',
    primary trackingHost (str "The quick brown fox") (str "The quick fox")
      (baseline (str "The quick brown fox") trackMineOnly) = (Ok tt, w')
    /\ changeTrackingMode (doc w') = trackOff.
Proof.
  assert (Hrun : exists w',
             primary trackingHost (str "The quick brown fox")
               (str "The quick fox")
               (baseline (str "The quick brown fox") trackMineOnly)
             = (Ok tt, w')).
  { eexists. vm_compute. reflexivity. }
  destruct Hrun as [w' Hrun]. exists w'. split; [exact Hrun|].
  exact (primary_tracking_mode trackingHost _ _
           (baseline (str "The quick brown fox") trackMineOnly) w' (Ok tt)
           eq_refl trackingHost_keepsTrackingMode eq_refl Hrun).
Defined.



(** ** Further properties of [handleReviewSelection] *)

Section ReviewFlow.

Definition isApplyStrategy (e : Effect) : Prop :=
  match e with ApplyStrategy _ _ _ => True | _ => False end.

Global Instance isApplyStrategy_dec e : Decision (isApplyStrategy e).
Proof. destruct e; (by left) || (right; by intros H). Defined.

(** The button follows the flag. *)
Definition buttonFollows (a : App) : Prop :=
  buttonDisabled a = isProcessing a /\ buttonLoading a = isProcessing a.

Lemma enter_buttonFollows a promptValue :
  buttonFollows a -> buttonFollows (enter a promptValue).1.
Proof.
  intros [Hd Hl]. unfold enter, buttonFollows.
  destruct (isProcessing a) eqn:E.
  - cbn. by rewrite E.
  - case_bool_decide; cbn; [by rewrite E|done].
Qed.

Lemma resume_buttonFollows a ph input a' ph' :
  buttonFollows a -> resume a ph input = Some (a', ph') -> buttonFollows a'.
Proof.
  intros Ha. destruct ph, input; try done; cbn; intros [= H].
  - unfold onSelection in H. destruct s as [text|msg].
    + by destruct (_ || _); injection H as <- <-.
    + by injection H as <- <-.
  - unfold onResponse in H.
    by destruct s as [[response|]|msg]; injection H as <- <-.
  - unfold onApplied in H. by destruct s; injection H as <- <-.
Qed.

Lemma reachable_buttonFollows s : reachable s -> buttonFollows (app s).
Proof.
  revert s. unfold reachable. apply rtc_ind_r; [done|].
  intros s s' _ Hstep IH. destruct Hstep as [s p|s i ph input a' ph' Hi Hr].
  - by apply enter_buttonFollows.
  - by eapply resume_buttonFollows.
Qed.

End ReviewFlow.

(** Membership in a list that is written out. *)
Ltac listed H :=
  repeat (apply elem_of_cons in H as [H|H]; [try done|]);
  try (by apply elem_of_nil in H).

(** X8. When the LLM call does not deliver a string (the request is
    rejected, times out, the reply is not JSON, or the reply carries no
    [response]), [handleReviewSelection] changes nothing in the document:
    it neither assigns the change-tracking mode nor runs a diff
    strategy.  An invocation that got past the guards ends with
    [isProcessing] reset and the button enabled again. *)
Theorem llm_failure_leaves_document (cfg : Config) (trackingAvailable : bool)
    (a : App) (promptValue : jsstring) (selection : Settled jsstring)
    (llm : Settled (option jsstring)) (applied : Settled unit) :
  (forall response, llm <> Resolved (Some response)) ->
  let a' := handleReviewSelection cfg trackingAvailable a promptValue
              selection llm applied in
  Forall (fun e => ~ mutates e) (newEffects a a')
  /\ (isProcessing a = false -> trim promptValue <> [] ->
      isProcessing a' = false /\ buttonDisabled a' = false
      /\ buttonLoading a' = false).
Proof.
  intros Hllm a'. unfold a', handleReviewSelection, enter.
  destruct (isProcessing a) eqn:Ep.
  { cbn. split; [|done]. erewrite newEffects_app; [|done].
    apply Forall_singleton. by intros H. }
  case_bool_decide as Hprompt.
  { cbn. split; [|done]. erewrite newEffects_app; [|done].
    apply Forall_singleton. by intros H. }
  unfold onSelection. destruct selection as [text|msg].
  - destruct (_ || _).
    + cbn. split; [|done]. erewrite newEffects_app;
        [|cbn; by rewrite <- app_assoc].
      repeat (apply Forall_cons; split; [by intros H|]). by constructor.
    + unfold onResponse. destruct llm as [[response|]|msg].
      * by destruct (Hllm response).
      * cbn. split; [|done]. erewrite newEffects_app;
          [|cbn; by rewrite <- !app_assoc].
        repeat (apply Forall_cons; split; [by intros H|]). by constructor.
      * cbn. split; [|done]. erewrite newEffects_app;
          [|cbn; by rewrite <- !app_assoc].
        repeat (apply Forall_cons; split; [by intros H|]). by constructor.
  - cbn. split; [|done]. erewrite newEffects_app;
      [|cbn; by rewrite <- app_assoc].
    repeat (apply Forall_cons; split; [by intros H|]). by constructor.
Qed.

(** A request that times out. *)
Lemma llm_failure_leaves_document_witness :
  let a' := handleReviewSelection
              {| trackChangesEnabled := true; lineDiffEnabled := false |} true
              initialApp (str "Fix {selection}") (Resolved (str "Some text"))
              (Rejected (str "Request timeout")) (Resolved tt) in
  Forall (fun e => ~ mutates e) (newEffects initialApp a')
  /\ isProcessing a' = false /\ buttonDisabled a' = false.
Proof.
  intros a'.
  destruct (llm_failure_leaves_document
              {| trackChangesEnabled := true; lineDiffEnabled := false |} true
              initialApp (str "Fix {selection}") (Resolved (str "Some text"))
              (Rejected (str "Request timeout")) (Resolved tt))
    as [H1 H2]; [done|].
  split; [exact H1|].
  destruct H2 as (H2 & H3 & _); [reflexivity|vm_compute; discriminate|].
  by split.
Defined.

(** X9. However clicks and settled promises interleave, the review button
    is disabled, and shown as loading, exactly while an invocation of
    [handleReviewSelection] is in progress. *)
Theorem button_disabled_while_in_progress (s : System) :
  reachable s ->
  buttonLoading (app s) = buttonDisabled (app s)
  /\ (buttonDisabled (app s) = true
      <-> exists i ph, invocations s !! i = Some ph /\ inProgress ph).
Proof.
  intros Hreach.
  destruct (reachable_buttonFollows s Hreach) as [Hd Hl].
  pose proof (reachable_flagCounts s Hreach) as Hcount.
  unfold flagCounts in Hcount. split; [congruence|]. rewrite Hd. split.
  - intros Hp. rewrite Hp in Hcount.
    destruct (filter inProgress (invocations s)) as [|ph l] eqn:Ef; [done|].
    assert (Hin : ph ∈ filter inProgress (invocations s))
      by (rewrite Ef; left).
    apply list_elem_of_filter in Hin as [Hph Hin].
    apply list_elem_of_lookup_1 in Hin as [i Hi]. eauto.
  - intros (i & ph & Hi & Hph).
    assert (Hin : ph ∈ filter inProgress (invocations s)).
    { apply list_elem_of_filter. split; [done|]. by eapply list_elem_of_lookup_2. }
    destruct (isProcessing (app s)); [done|].
    destruct (filter inProgress (invocations s)); [by apply elem_of_nil in Hin|done].
Qed.

(** A click, the selection, then a second click. *)
Lemma button_disabled_while_in_progress_witness :
  exists s, reachable s /\ buttonDisabled (app s) = true
            /\ exists i ph, invocations s !! i = Some ph /\ inProgress ph.
Proof.
  set (s1 := {| app := (enter (app initial) (str "Fix")).1;
                invocations := invocations initial
                               ++ [(enter (app initial) (str "Fix")).2] |}).
  assert (Hreach : reachable s1).
  { unfold reachable. eapply rtc_r; [apply rtc_refl|]. apply step_invoke. }
  exists s1. split; [exact Hreach|]. split; [reflexivity|].
  apply (proj2 (button_disabled_while_in_progress s1 Hreach)). reflexivity.
Defined.

(** X10. A diff strategy runs on what the invocation read.  Whenever an
    invocation of [handleReviewSelection] runs a strategy, the guard was
    open, the selection it loaded is not blank and is handed over
    untrimmed as the original text, the revised text is the LLM's
    response as received, the strategy is the one the configuration picks,
    the LLM was asked with the trimmed prompt and that same selection, and
    no second strategy runs in the invocation. *)
Theorem strategy_runs_on_what_was_read (cfg : Config)
    (trackingAvailable : bool) (a : App) (promptValue : jsstring)
    (selection : Settled jsstring) (llm : Settled (option jsstring))
    (applied : Settled unit) (s : Strategy)
    (originalText revisedText : jsstring) :
  let a' := handleReviewSelection cfg trackingAvailable a promptValue
              selection llm applied in
  ApplyStrategy s originalText revisedText ∈ newEffects a a' ->
  isProcessing a = false
  /\ selection = Resolved originalText /\ trim originalText <> []
  /\ llm = Resolved (Some revisedText)
  /\ s = (if lineDiffEnabled cfg then SentenceDiffStrategy else TokenMapStrategy)
  /\ SendPromptToLLM (trim promptValue) originalText ∈ newEffects a a'
  /\ length (filter isApplyStrategy (newEffects a a')) = 1.
Proof.
  intros a'. unfold a', handleReviewSelection, enter.
  destruct (isProcessing a) eqn:Ep.
  { cbn. erewrite newEffects_app; [|done]. intros H. listed H. }
  case_bool_decide as Hprompt.
  { cbn. erewrite newEffects_app; [|done]. intros H. listed H. }
  unfold onSelection. destruct selection as [text|msg].
  - destruct (_ || _) eqn:Eblank.
    + cbn. erewrite newEffects_app; [|cbn; by rewrite <- app_assoc].
      intros H. listed H.
    + apply orb_false_iff in Eblank as [_ Etrim].
      apply bool_decide_eq_false in Etrim.
      unfold onResponse. destruct llm as [[response|]|msg].
      * unfold onApplied.
        destruct trackingAvailable, applied as [[]|msg]; cbn [fst];
          (erewrite newEffects_app; [|cbn; by rewrite <- !app_assoc]);
          cbn [app]; intros H; listed H; injection H as -> -> ->;
          (split; [done|]); (split; [done|]); (split; [done|]);
          (split; [done|]); (split; [done|]);
          (split; [repeat first [apply list_elem_of_here
                                |apply list_elem_of_further]|]);
          reflexivity.
      * cbn. erewrite newEffects_app; [|cbn; by rewrite <- !app_assoc].
        intros H. listed H.
      * cbn. erewrite newEffects_app; [|cbn; by rewrite <- !app_assoc].
        intros H. listed H.
  - cbn. erewrite newEffects_app; [|cbn; by rewrite <- app_assoc].
    intros H. listed H.
Qed.

(** A review that goes through. *)
Lemma strategy_runs_on_what_was_read_witness :
  let a' := handleReviewSelection
              {| trackChangesEnabled := true; lineDiffEnabled := false |} true
              initialApp (str " Fix ") (Resolved (str " old "))
              (Resolved (Some (str "new"))) (Resolved tt) in
  SendPromptToLLM (str "Fix") (str " old ") ∈ newEffects initialApp a'.
Proof.
  intros a'.
  assert (Hin : ApplyStrategy TokenMapStrategy (str " old ") (str "new")
                ∈ newEffects initialApp a').
  { vm_compute. repeat (first [apply list_elem_of_here|apply list_elem_of_further]). }
  exact (proj1 (proj2 (proj2 (proj2 (proj2 (proj2
           (strategy_runs_on_what_was_read _ _ _ _ _ _ _ _ _ _ Hin))))))).
Defined.

(** ** [sendPromptToLLM] ([taskpane.js]) *)

Module LLM.

(** The part of [config] that names the LLM. *)
Record Connection := {
  ollamaUrl : jsstring;
  apiKey : jsstring;
  selectedModel : jsstring
}.

(** What [xhr.open], [xhr.setRequestHeader] and [xhr.send] are given. *)
Record LLMRequest := {
  url : jsstring;
  authorization : option jsstring;
  model : jsstring;
  prompt : jsstring;
  stream : bool
}.

(** The source text of the regex [/{selection}/g]: without the [u] flag a
    brace that opens no quantifier stands for itself. *)
Definition placeholder : jsstring := str "{selection}".

(** [GetSubstitution] of ECMAScript for a match without capture groups:
    in the replacement string, [$$] stands for a dollar sign, [$&] for the
    matched text, [$`] for the text before the match and [$'] for the
    text after it; a dollar sign before anything else, a digit or [<]
    included, stands for itself. *)
Fixpoint getSubstitution (matched before after replacement : jsstring)
    : jsstring :=
  match replacement with
  | [] => []
  | c :: r =>
      if (c =? 36)%N then
        match r with
        | d :: r' =>
            if (d =? 36)%N then
              36%N :: getSubstitution matched before after r'
            else if (d =? 38)%N then
              matched ++ getSubstitution matched before after r'
            else if (d =? 96)%N then
              before ++ getSubstitution matched before after r'
            else if (d =? 39)%N then
              after ++ getSubstitution matched before after r'
            else c :: getSubstitution matched before after r
        | [] => [c]
        end
      else c :: getSubstitution matched before after r
  end.

(** [s.replace(re, replacement)] for a global regex [re] that matches the
    non-empty literal [pat]: the matches are found from left to right in
    [s], none inside another; [before] is what was read of [s], [rest] what
    is left, [skip] how much of [rest] belongs to the last match. *)
Fixpoint replaceGo (pat replacement before rest : jsstring) (skip : nat)
    : jsstring :=
  match rest with
  | [] => []
  | c :: rest' =>
      match skip with
      | S k => replaceGo pat replacement (before ++ [c]) rest' k
      | 0 =>
          if startsWith rest pat then
            getSubstitution pat before (drop (length pat) rest) replacement
            ++ replaceGo pat replacement (before ++ [c]) rest' (length pat - 1)
          else c :: replaceGo pat replacement (before ++ [c]) rest' 0
      end
  end.

(** [prompt.replace(/{selection}/g, selection)]. *)
Definition fullPrompt (prompt selection : jsstring) : jsstring :=
  replaceGo placeholder selection [] prompt 0.

(** [s.endsWith(suffix)]. *)
Definition endsWith (s suffix : jsstring) : bool :=
  startsWith (rev s) (rev suffix).

(** The request [sendPromptToLLM] sends. *)
Definition sendPromptToLLM (config : Connection) (prompt selection : jsstring)
    : LLMRequest :=
  {| url := (if endsWith (ollamaUrl config) (str "/") then ollamaUrl config
             else ollamaUrl config ++ str "/") ++ str "api/generate";
     authorization :=
       match apiKey config with
       | [] => None
       | _ => Some (str "Bearer " ++ apiKey config)
       end;
     model := selectedModel config;
     prompt := fullPrompt prompt selection;
     stream := false |}.

(** A replacement string in which no dollar sign starts a pattern. *)
Fixpoint verbatim (s : jsstring) : bool :=
  match s with
  | [] => true
  | c :: r =>
      (if (c =? 36)%N then
         match r with
         | d :: _ => negb ((d =? 36)%N || (d =? 38)%N || (d =? 96)%N || (d =? 39)%N)
         | [] => true
         end
       else true) && verbatim r
  end.

(** [pieces.join(sep)]. *)
Fixpoint join (sep : jsstring) (pieces : list jsstring) : jsstring :=
  match pieces with
  | [] => []
  | p :: ps =>
      match ps with
      | [] => p
      | _ => p ++ sep ++ join sep ps
      end
  end.

End LLM.
Import LLM.

Section PromptSubstitution.

Lemma replaceGo_no_match pat replacement before rest :
  (forall p, ~ occursAt rest pat p) ->
  replaceGo pat replacement before rest 0 = rest.
Proof.
  revert before. induction rest as [|c rest IH]; intros before Hno; [done|].
  cbn [replaceGo].
  destruct (startsWith (c :: rest) pat) eqn:E.
  - exfalso. apply (Hno 0). by apply startsWith_occursAt.
  - f_equal. apply IH. intros p Hp. by apply (Hno (S p)).
Qed.

Lemma startsWith_placeholder c rest :
  c <> 123%N -> startsWith (c :: rest) placeholder = false.
Proof.
  intros Hc. cbn. apply andb_false_intro1. by apply N.eqb_neq.
Qed.

Lemma replaceGo_piece replacement before p rest :
  123%N ∉ p ->
  replaceGo placeholder replacement before (p ++ rest) 0
  = p ++ replaceGo placeholder replacement (before ++ p) rest 0.
Proof.
  revert before. induction p as [|c p IH]; intros before Hp.
  - by rewrite app_nil_r.
  - apply not_elem_of_cons in Hp as [Hc Hp].
    rewrite <- !app_comm_cons. cbn [replaceGo].
    rewrite startsWith_placeholder by done.
    rewrite IH by done. by rewrite <- app_assoc.
Qed.

Lemma replaceGo_skip pat replacement before x rest :
  replaceGo pat replacement before (x ++ rest) (length x)
  = replaceGo pat replacement (before ++ x) rest 0.
Proof.
  revert before. induction x as [|c x IH]; intros before.
  - cbn [length app]. rewrite app_nil_r. by destruct rest.
  - rewrite <- app_comm_cons. cbn [replaceGo length].
    rewrite IH. by rewrite <- app_assoc.
Qed.

Lemma replaceGo_match replacement before rest :
  replaceGo placeholder replacement before (placeholder ++ rest) 0
  = getSubstitution placeholder before rest replacement
    ++ replaceGo placeholder replacement (before ++ placeholder) rest 0.
Proof.
  assert (Hs : startsWith (placeholder ++ rest) placeholder = true)
    by (apply startsWith_spec; eauto).
  assert (Hd : drop (length placeholder) (placeholder ++ rest) = rest)
    by apply drop_app_length.
  destruct placeholder as [|c pat'] eqn:Ep; [done|].
  rewrite <- app_comm_cons in *. cbn [replaceGo]. rewrite Hs, Hd.
  f_equal. cbn [length]. rewrite Nat.sub_succ, Nat.sub_0_r.
  rewrite replaceGo_skip. by rewrite <- app_assoc.
Qed.

Lemma getSubstitution_verbatim matched before after replacement :
  verbatim replacement = true ->
  getSubstitution matched before after replacement = replacement.
Proof.
  induction replacement as [|c r IH]; [done|]. cbn [verbatim getSubstitution].
  intros [Hc Hr]%andb_true_iff. specialize (IH Hr).
  destruct (c =? 36)%N; [|by rewrite IH].
  destruct r as [|d r']; [done|].
  apply negb_true_iff in Hc. apply orb_false_iff in Hc as [Hc H39].
  apply orb_false_iff in Hc as [Hc H96]. apply orb_false_iff in Hc as [H36 H38].
  rewrite H36, H38, H96, H39. by rewrite IH.
Qed.

Lemma getSubstitution_plain matched before after s r :
  36%N ∉ s ->
  getSubstitution matched before after (s ++ r)
  = s ++ getSubstitution matched before after r.
Proof.
  induction s as [|c s IH]; [done|]. intros [Hc Hs]%not_elem_of_cons.
  rewrite <- !app_comm_cons. cbn [getSubstitution].
  apply not_eq_sym, N.eqb_neq in Hc. rewrite Hc. by rewrite IH.
Qed.

Lemma replaceGo_tail replacement before p :
  123%N ∉ p -> replaceGo placeholder replacement before p 0 = p.
Proof.
  intros Hp. rewrite <- (app_nil_r p) at 1. rewrite replaceGo_piece by done.
  cbn. by rewrite app_nil_r.
Qed.

End PromptSubstitution.

(** X11. A prompt that does not contain [{selection}] is sent as it is:
    the selected text is not part of the request. *)
Theorem prompt_without_placeholder (config : Connection)
    (promptText selection : jsstring) :
  (forall p, ~ occursAt promptText placeholder p) ->
  prompt (sendPromptToLLM config promptText selection) = promptText.
Proof. intros Hno. cbn. by apply replaceGo_no_match. Qed.

Lemma prompt_without_placeholder_witness :
  prompt (sendPromptToLLM
            {| ollamaUrl := str "/ollama"; apiKey := [];
               selectedModel := str "gpt-oss:20b" |}
            (str "Fix: {Selection}") (str "the text"))
  = str "Fix: {Selection}".
Proof.
  apply prompt_without_placeholder. intros p Hp.
  do 17 (destruct p as [|p]; [vm_compute in Hp; discriminate|]).
  vm_compute in Hp. destruct p; discriminate.
Defined.

(** X12. Every [{selection}] of the prompt is replaced by the selection,
    character for character, when no dollar sign of the selection is
    followed by [$], [&], a backquote or a quote: for a prompt made of
    pieces without an opening brace, joined by the placeholder, the text
    sent is the same pieces joined by the selection. *)
Theorem selection_spliced_verbatim (config : Connection)
    (pieces : list jsstring) (selection : jsstring) :
  Forall (fun p => 123%N ∉ p) pieces ->
  verbatim selection = true ->
  prompt (sendPromptToLLM config (join placeholder pieces) selection)
  = join selection pieces.
Proof.
  intros Hp Hv. cbn [prompt sendPromptToLLM]. unfold fullPrompt.
  generalize (@nil char16) as before. induction Hp as [|p ps Hp Hps IH];
    intros before; [done|].
  cbn [join]. destruct ps as [|q ps].
  - by apply replaceGo_tail.
  - rewrite replaceGo_piece by done. rewrite replaceGo_match.
    rewrite getSubstitution_verbatim by done. by rewrite IH.
Qed.

(** The default [legal-review] shape: text, placeholder, nothing after;
    the selection quotes a price. *)
Lemma selection_spliced_verbatim_witness :
  prompt (sendPromptToLLM
            {| ollamaUrl := str "/ollama"; apiKey := [];
               selectedModel := str "gpt-oss:20b" |}
            (str "Review: {selection}") (str "pay $5 or $ 6"))
  = str "Review: pay $5 or $ 6".
Proof.
  apply (selection_spliced_verbatim _ [str "Review: "; []] (str "pay $5 or $ 6")).
  - repeat (apply Forall_cons; split; [by vm_compute; intros H; listed H|]).
    by constructor.
  - reflexivity.
Defined.

(** X13. A dollar pattern in the selection is not sent as it stands.  For
    a prompt [pre ++ "{selection}" ++ post] without other opening braces
    and a selection [s1 ++ "$" ++ c ++ s2]: with [c = "$"] one of the two
    dollar signs is dropped; with [c = "&"] the placeholder itself is put
    in; with a backquote the prompt text before the placeholder is put in;
    with a quote the prompt text after it. *)
Theorem dollar_patterns_expand (config : Connection)
    (pre post s1 s2 : jsstring) (c : char16) :
  123%N ∉ pre -> 123%N ∉ post -> 36%N ∉ s1 -> verbatim s2 = true ->
  c ∈ [36%N; 38%N; 96%N; 39%N] ->
  prompt (sendPromptToLLM config (pre ++ placeholder ++ post)
            (s1 ++ [36%N; c] ++ s2))
  = pre ++ s1
    ++ (if (c =? 36)%N then [36%N]
        else if (c =? 38)%N then placeholder
        else if (c =? 96)%N then pre
        else post)
    ++ s2 ++ post.
Proof.
  intros Hpre Hpost Hs1 Hs2 Hc. cbn [prompt sendPromptToLLM]. unfold fullPrompt.
  rewrite replaceGo_piece by done. rewrite replaceGo_match.
  rewrite replaceGo_tail by done. rewrite getSubstitution_plain by done.
  change ([36%N; c] ++ s2) with (36%N :: c :: s2). rewrite app_nil_l.
  assert (Hsub : getSubstitution placeholder pre post (36%N :: c :: s2)
                 = (if (c =? 36)%N then [36%N]
                    else if (c =? 38)%N then placeholder
                    else if (c =? 96)%N then pre
                    else post) ++ s2).
  { cbn [getSubstitution]. rewrite N.eqb_refl.
    rewrite (getSubstitution_verbatim _ _ _ s2 Hs2).
    listed Hc; subst c; reflexivity. }
  by rewrite Hsub, <- !app_assoc.
Qed.

(** A selection that quotes prices: ["$$"] arrives as ["$"]. *)
Lemma dollar_patterns_expand_witness :
  prompt (sendPromptToLLM
            {| ollamaUrl := str "/ollama"; apiKey := [];
               selectedModel := str "gpt-oss:20b" |}
            (str "Review: {selection}") (str "from $$ to $5"))
  = str "Review: from $ to $5".
Proof.
  apply (dollar_patterns_expand _ (str "Review: ") [] (str "from ")
           (str " to $5") 36%N).
  - by vm_compute; intros H; listed H.
  - by intros H; listed H.
  - by vm_compute; intros H; listed H.
  - reflexivity.
  - left.
Defined.

(** ** Models and prompts ([taskpane.js]) *)

Module Prompts.

(** [s.includes(sub)]. *)
Definition includes (s sub : jsstring) : bool :=
  existsb (fun i => startsWith (drop i s) sub) (seq 0 (S (length s))).

(** [populateModels], as far as [config.selectedModel] goes; [models] are
    the names of the models found.  With no model the function returns
    before it looks at the configuration. *)
Definition populateModels (modelNames : list jsstring)
    (selectedModel : jsstring) : jsstring :=
  match modelNames with
  | [] => selectedModel
  | first :: _ =>
      if bool_decide (selectedModel ∈ modelNames) then selectedModel
      else
        match List.find (fun n => includes n (str "gpt-oss:20b")) modelNames with
        | Some gptOss => gptOss
        | None => first
        end
  end.

Record Prompt := {
  id : jsstring;
  name : jsstring;
  template : jsstring;
  description : jsstring
}.

Global Instance Prompt_eq_dec : EqDecision Prompt.
Proof. solve_decision. Defined.

(** [prompts.find(p => p.id === promptId)]. *)
Definition findPrompt (prompts : list Prompt) (promptId : jsstring)
    : option Prompt :=
  List.find (fun p => bool_decide (id p = promptId)) prompts.

(** [prompts.findIndex(p => p.id === promptId)], [None] for [-1]. *)
Fixpoint findIndex (prompts : list Prompt) (promptId : jsstring)
    : option nat :=
  match prompts with
  | [] => None
  | p :: prompts' =>
      if bool_decide (id p = promptId) then Some 0
      else S <$> findIndex prompts' promptId
  end.

(** The update of the array in [handleSavePrompt], and of [userPrompts]
    in [POST /api/prompts]: replace at the index found, or push. *)
Definition upsert (prompts : list Prompt) (newPrompt : Prompt) : list Prompt :=
  match findIndex prompts (id newPrompt) with
  | Some existingIndex => <[existingIndex := newPrompt]> prompts
  | None => prompts ++ [newPrompt]
  end.

(** [s.replace(/\s+/g, '-')]: every maximal run of whitespace becomes one
    hyphen; [inRun] says that the character before was whitespace. *)
Fixpoint dashes (inRun : bool) (s : jsstring) : jsstring :=
  match s with
  | [] => []
  | c :: s' =>
      if isSpace c then
        if inRun then dashes true s' else 45%N :: dashes true s'
      else c :: dashes false s'
  end.

(** What the prompt panel holds: the array, what [localStorage] has under
    [wordAI.prompts], and the prompt text area. *)
Record Panel := {
  prompts : list Prompt;
  stored : option (list Prompt);
  promptTextarea : jsstring
}.

Section Client.

(** [String.prototype.toLowerCase]. *)
Variable toLowerCase : jsstring -> jsstring.

(** [name.toLowerCase().replace(/\s+/g, '-')]. *)
Definition promptIdOf (name : jsstring) : jsstring :=
  dashes false (toLowerCase name).

(** [handleSavePrompt]; [storageOk] says whether [localStorage.setItem]
    went through.  The name, the description and the text area are read
    trimmed; the text area itself is not written. *)
Definition handleSavePrompt (panel : Panel)
    (promptName promptDescription : jsstring) (storageOk : bool) : Panel :=
  let name := trim promptName in
  let description := trim promptDescription in
  let template := trim (promptTextarea panel) in
  match name, template with
  | [], _ => panel
  | _, [] => panel
  | _, _ =>
      let newPrompt := {| id := promptIdOf name; name := name;
                          template := template; description := description |} in
      let prompts' := upsert (prompts panel) newPrompt in
      {| prompts := prompts';
         stored := if storageOk then Some prompts' else stored panel;
         promptTextarea := promptTextarea panel |}
  end.

End Client.

(** [handlePromptSelect]. *)
Definition handlePromptSelect (panel : Panel) (promptId : jsstring) : Panel :=
  match promptId with
  | [] => panel
  | _ =>
      match findPrompt (prompts panel) promptId with
      | Some prompt =>
          {| prompts := prompts panel; stored := stored panel;
             promptTextarea := template prompt |}
      | None => panel
      end
  end.

(** [handleDeletePrompt]; [promptId] is the value of the select,
    [confirmed] the answer to [confirm]. *)
Definition handleDeletePrompt (panel : Panel) (promptId : jsstring)
    (confirmed storageOk : bool) : Panel :=
  match promptId with
  | [] => panel
  | _ =>
      match findPrompt (prompts panel) promptId with
      | None => panel
      | Some _ =>
          if confirmed then
            let prompts' :=
              filter (fun p => id p <> promptId) (prompts panel) in
            {| prompts := prompts';
               stored := if storageOk then Some prompts' else stored panel;
               promptTextarea := [] |}
          else panel
      end
  end.

End Prompts.
Import Prompts.

Section PromptFacts.

Lemma includes_spec s sub :
  includes s sub = true <-> exists p, occursAt s sub p.
Proof.
  unfold includes. rewrite existsb_exists. split.
  - intros (i & _ & Hi). exists i. by apply startsWith_occursAt.
  - intros (p & Hp). destruct (decide (p <= length s)) as [Hle|Hgt].
    + exists p. split; [|by apply startsWith_occursAt].
      apply in_seq. lia.
    + exists (length s). split; [apply in_seq; lia|].
      apply startsWith_occursAt. unfold occursAt in *.
      rewrite drop_ge in Hp by lia. by rewrite drop_all.
Qed.

Lemma find_elem_of {A} (f : A -> bool) l x :
  List.find f l = Some x -> x ∈ l /\ f x = true.
Proof.
  induction l as [|y l IH]; [done|]. cbn. destruct (f y) eqn:E.
  - intros [= <-]. split; [left|done].
  - intros H. apply IH in H as [? ?]. split; [by right|done].
Qed.

Lemma find_none {A} (f : A -> bool) l :
  List.find f l = None <-> Forall (fun x => f x = false) l.
Proof.
  induction l as [|y l IH]; cbn.
  - split; [constructor|done].
  - destruct (f y) eqn:E.
    + split; [done|]. intros [? _]%Forall_cons. congruence.
    + rewrite IH. split; [by constructor|]. by intros [_ ?]%Forall_cons.
Qed.

(** [upsert], by recursion on the array. *)
Lemma upsert_cons q qs p :
  upsert (q :: qs) p
  = if bool_decide (id q = id p) then p :: qs else q :: upsert qs p.
Proof.
  unfold upsert. cbn [findIndex]. case_bool_decide; [done|].
  by destruct (findIndex qs (id p)).
Qed.

Lemma upsert_nil p : upsert [] p = [p].
Proof. done. Qed.

Lemma findPrompt_cons q qs k :
  findPrompt (q :: qs) k
  = if bool_decide (id q = k) then Some q else findPrompt qs k.
Proof. done. Qed.

Lemma findPrompt_upsert prompts p :
  findPrompt (upsert prompts p) (id p) = Some p.
Proof.
  induction prompts as [|q qs IH].
  - rewrite upsert_nil, findPrompt_cons. by rewrite bool_decide_eq_true_2.
  - rewrite upsert_cons. case_bool_decide as E; rewrite findPrompt_cons.
    + by rewrite bool_decide_eq_true_2.
    + by rewrite bool_decide_eq_false_2.
Qed.

Lemma findPrompt_upsert_other prompts p k :
  k <> id p -> findPrompt (upsert prompts p) k = findPrompt prompts k.
Proof.
  intros Hk. induction prompts as [|q qs IH].
  - rewrite upsert_nil, findPrompt_cons. by rewrite bool_decide_eq_false_2.
  - rewrite upsert_cons. case_bool_decide as E; rewrite !findPrompt_cons.
    + rewrite E. by rewrite !bool_decide_eq_false_2.
    + by rewrite IH.
Qed.

Lemma upsert_ids prompts p :
  map id (upsert prompts p)
  = if bool_decide (id p ∈ map id prompts) then map id prompts
    else map id prompts ++ [id p].
Proof.
  induction prompts as [|q qs IH]; [done|].
  rewrite upsert_cons, !map_cons.
  destruct (decide (id q = id p)) as [E|E].
  - rewrite (bool_decide_eq_true_2 (id q = id p)) by done.
    rewrite bool_decide_eq_true_2; [by rewrite map_cons, E|].
    rewrite E. left.
  - rewrite (bool_decide_eq_false_2 (id q = id p)) by done.
    rewrite map_cons, IH.
    destruct (decide (id p ∈ map id qs)) as [Hin|Hin].
    + rewrite !bool_decide_eq_true_2; [done|by right|done].
    + rewrite !bool_decide_eq_false_2; [done| |done].
      intros [?|?]%elem_of_cons; [congruence|done].
Qed.

Lemma findPrompt_elem_of prompts k p :
  findPrompt prompts k = Some p -> p ∈ prompts /\ id p = k.
Proof.
  intros H. apply find_elem_of in H as [? H]. split; [done|].
  by apply bool_decide_eq_true in H.
Qed.

Lemma findPrompt_none prompts k :
  findPrompt prompts k = None <-> k ∉ map id prompts.
Proof.
  unfold findPrompt. rewrite find_none. split.
  - intros H Hin. apply list_elem_of_fmap_1 in Hin as (p & -> & Hp).
    rewrite Forall_forall in H. specialize (H p Hp).
    by apply bool_decide_eq_false in H.
  - intros H. apply Forall_forall. intros p Hp. apply bool_decide_eq_false.
    intros <-. apply H. by apply list_elem_of_fmap_2.
Qed.

Lemma findPrompt_filter prompts k k' :
  k' <> k ->
  findPrompt (filter (fun p => id p <> k) prompts) k' = findPrompt prompts k'.
Proof.
  intros Hk. induction prompts as [|q qs IH]; [done|].
  rewrite filter_cons. destruct (decide (id q <> k)) as [Hq|Hq].
  - rewrite !findPrompt_cons. by rewrite IH.
  - rewrite findPrompt_cons, IH. apply dec_stable in Hq.
    rewrite bool_decide_eq_false_2; [done|]. congruence.
Qed.

Lemma dashes_no_space inRun s :
  Forall (fun c => isSpace c = false) (dashes inRun s).
Proof.
  revert inRun. induction s as [|c s IH]; intros inRun; cbn; [constructor|].
  destruct (isSpace c) eqn:E.
  - destruct inRun; [apply IH|]. constructor; [done|apply IH].
  - constructor; [done|apply IH].
Qed.

End PromptFacts.

Lemma find_at_first {A} (f : A -> bool) (l : list A) i x :
  l !! i = Some x -> f x = true ->
  (forall j y, j < i -> l !! j = Some y -> f y = false) ->
  List.find f l = Some x.
Proof.
  revert i. induction l as [|a l IH]; intros i Hi Hx Hbefore; [done|].
  destruct i as [|i]; cbn in *.
  - injection Hi as ->. by rewrite Hx.
  - rewrite (Hbefore 0 a) by (done || lia). apply (IH i); [done..|].
    intros j y Hj Hy. apply (Hbefore (S j)); [lia|done].
Qed.

(** X14. After [populateModels] with at least one model, the configured
    model is one of the models offered: a configured model that is
    offered is kept; otherwise the first offered name that contains
    ["gpt-oss:20b"] is taken, or the first name when there is none.  With
    no model at all the configuration is left alone. *)
Theorem populateModels_selects_offered (modelNames : list jsstring)
    (selectedModel : jsstring) :
  let selected := populateModels modelNames selectedModel in
  let gptOss := fun n => includes n (str "gpt-oss:20b") in
  (modelNames <> [] -> selected ∈ modelNames)
  /\ (selectedModel ∈ modelNames \/ modelNames = [] -> selected = selectedModel)
  /\ (selectedModel ∉ modelNames ->
      forall i n, modelNames !! i = Some n -> gptOss n = true ->
        (forall j k, j < i -> modelNames !! j = Some k -> gptOss k = false) ->
        selected = n)
  /\ (selectedModel ∉ modelNames ->
      Forall (fun n => gptOss n = false) modelNames ->
      forall first, head modelNames = Some first -> selected = first)
  /\ populateModels modelNames selected = selected.
Proof.
  intros selected gptOss. unfold selected, populateModels.
  destruct modelNames as [|first rest].
  { split; [done|]. split; [done|]. split; [by intros _ i n Hi|].
    split; [by intros _ _ f Hf|done]. }
  set (names := first :: rest).
  case_bool_decide as Hin.
  { split; [done|]. split; [done|]. split; [done|]. split; [done|].
    by rewrite bool_decide_eq_true_2. }
  destruct (List.find _ names) as [found|] eqn:Ef.
  - pose proof (find_elem_of _ _ _ Ef) as [Hg Hinc].
    split; [done|]. split; [by intros [?|?]|]. split.
    + intros _ i n Hi Hn Hbefore.
      pose proof (find_at_first gptOss names i n Hi Hn Hbefore) as Hfirst.
      unfold gptOss in Hfirst. congruence.
    + split.
      * intros _ Hall. rewrite Forall_forall in Hall.
        specialize (Hall found Hg). cbn beta in Hall. unfold gptOss in Hall.
        congruence.
      * by rewrite bool_decide_eq_true_2.
  - apply find_none in Ef.
    split; [intros _; left|]. split; [by intros [?|?]|]. split.
    + intros _ i n Hi Hn _. rewrite Forall_forall in Ef.
      apply list_elem_of_lookup_2 in Hi. specialize (Ef n Hi).
      cbn beta in Ef. unfold gptOss in Hn. congruence.
    + split; [by intros _ _ f [= <-]|].
      rewrite bool_decide_eq_true_2; [done|left].
Qed.

(** Two offered names contain ["gpt-oss:20b"]: the first of them is
    taken. *)
Lemma populateModels_selects_offered_witness :
  populateModels [str "llama3"; str "gpt-oss:20b-q4"; str "gpt-oss:20b"]
    (str "mistral")
  = str "gpt-oss:20b-q4".
Proof.
  refine (proj1 (proj2 (proj2
            (populateModels_selects_offered
               [str "llama3"; str "gpt-oss:20b-q4"; str "gpt-oss:20b"]
               (str "mistral")))) _ 1 (str "gpt-oss:20b-q4") eq_refl eq_refl _).
  - intros H. listed H.
  - intros j k Hj Hk. destruct j as [|j]; [|lia].
    injection Hk as <-. reflexivity.
Defined.

(** X15. A saved prompt is found under its id.  After [handleSavePrompt]
    with a name and a template that are not blank, looking up the id made
    from the name gives the prompt just saved, with name, template and
    description trimmed; every other id looks up as before; the array
    grew by one prompt if the id was new and kept its length if not; the
    id holds no whitespace; and ids that were unique stay unique.  With a
    blank name or a blank template nothing changes. *)
Theorem saved_prompt_is_found (toLowerCase : jsstring -> jsstring)
    (panel : Panel) (promptName promptDescription : jsstring)
    (storageOk : bool) :
  let panel' := handleSavePrompt toLowerCase panel promptName
                  promptDescription storageOk in
  let newId := promptIdOf toLowerCase (trim promptName) in
  (trim promptName = [] \/ trim (promptTextarea panel) = [] -> panel' = panel)
  /\ (trim promptName <> [] -> trim (promptTextarea panel) <> [] ->
      findPrompt (prompts panel') newId
      = Some {| id := newId; name := trim promptName;
                template := trim (promptTextarea panel);
                description := trim promptDescription |}
      /\ (forall k, k <> newId ->
            findPrompt (prompts panel') k = findPrompt (prompts panel) k)
      /\ length (prompts panel')
         = (if bool_decide (newId ∈ map id (prompts panel))
            then length (prompts panel) else S (length (prompts panel)))
      /\ Forall (fun c => isSpace c = false) newId
      /\ (NoDup (map id (prompts panel)) -> NoDup (map id (prompts panel')))
      /\ (storageOk = true -> stored panel' = Some (prompts panel'))).
Proof.
  intros panel' newId. unfold panel', handleSavePrompt. split.
  - intros [E|E]; rewrite E; [done|]. by destruct (trim promptName).
  - intros Hn Ht.
    destruct (trim promptName) as [|c1 n1] eqn:En; [done|].
    destruct (trim (promptTextarea panel)) as [|c2 t2] eqn:Et; [done|].
    cbn [prompts stored].
    set (newPrompt := {| id := promptIdOf toLowerCase (c1 :: n1);
                         name := c1 :: n1; template := c2 :: t2;
                         description := trim promptDescription |}).
    split; [apply (findPrompt_upsert _ newPrompt)|].
    split; [intros k Hk; by apply (findPrompt_upsert_other _ newPrompt)|].
    pose proof (upsert_ids (prompts panel) newPrompt) as Hids.
    split; [|split; [apply dashes_no_space|split]].
    + rewrite <- !(length_map id), Hids. subst newId. cbn [id newPrompt].
      destruct (bool_decide _); [done|]. rewrite length_app. cbn. lia.
    + intros Hnd. rewrite Hids. case_bool_decide as Hin; [done|].
      apply NoDup_app. split; [done|]. split; [|apply NoDup_singleton].
      intros x Hx Hx'. apply list_elem_of_singleton in Hx'. by subst x.
    + by intros ->.
Qed.

(** Saving ["Legal  Review"] over the default prompts replaces
    [legal-review]. *)
Lemma saved_prompt_is_found_witness :
  let panel := {| prompts := [{| id := str "legal-review";
                                 name := str "Legal Review";
                                 template := str "Review {selection}";
                                 description := [] |}];
                  stored := None;
                  promptTextarea := str " Check {selection} " |} in
  let panel' := handleSavePrompt (fun s => map (fun c => if between 65 90 c
                                                         then (c + 32)%N else c) s)
                  panel (str "Legal  Review") [] true in
  findPrompt (prompts panel') (str "legal-review")
  = Some {| id := str "legal-review"; name := str "Legal  Review";
            template := str "Check {selection}"; description := [] |}
  /\ length (prompts panel') = 1.
Proof.
  intros panel panel'.
  destruct (saved_prompt_is_found
              (fun s => map (fun c => if between 65 90 c then (c + 32)%N else c) s)
              panel (str "Legal  Review") [] true) as [_ H].
  destruct H as (Hfind & _ & Hlen & _); [vm_compute; discriminate..|].
  split; [exact Hfind|exact Hlen].
Defined.

(** X16. A deleted prompt is gone.  After a confirmed
    [handleDeletePrompt] of an id that is in the array, no prompt carries
    that id any more, every other id looks up as before, the prompts that
    stay keep their order, and the text area is empty.  Without a selected
    id, for an id that is not in the array, or when the user does not
    confirm, nothing changes. *)
Theorem deleted_prompt_is_gone (panel : Panel) (promptId : jsstring)
    (confirmed storageOk : bool) :
  let panel' := handleDeletePrompt panel promptId confirmed storageOk in
  (promptId = [] \/ promptId ∉ map id (prompts panel) \/ confirmed = false ->
   panel' = panel)
  /\ (promptId <> [] -> promptId ∈ map id (prompts panel) -> confirmed = true ->
      findPrompt (prompts panel') promptId = None
      /\ (forall k, k <> promptId ->
            findPrompt (prompts panel') k = findPrompt (prompts panel) k)
      /\ prompts panel' = filter (fun p => id p <> promptId) (prompts panel)
      /\ length (prompts panel') < length (prompts panel)
      /\ promptTextarea panel' = []
      /\ (storageOk = true -> stored panel' = Some (prompts panel'))).
Proof.
  intros panel'. subst panel'. unfold handleDeletePrompt. split.
  - intros [->|[Hnot| ->]]; [done| |].
    + apply findPrompt_none in Hnot. rewrite Hnot. by destruct promptId.
    + destruct promptId; [done|]. by destruct (findPrompt _ _).
  - intros Hne Hin ->. destruct promptId as [|c k0] eqn:Ek; [done|].
    rewrite <- Ek in *. clear Ek c k0 Hne.
    destruct (findPrompt (prompts panel) promptId) as [p|] eqn:Ef;
      [|by apply findPrompt_none in Ef].
    cbn [prompts stored promptTextarea].
    split.
    { apply findPrompt_none. intros Hin'.
      apply list_elem_of_fmap_1 in Hin' as (q & -> & Hq).
      by apply list_elem_of_filter in Hq as [Hq _]. }
    split; [intros k Hk; by apply findPrompt_filter|].
    split; [done|]. split; [|split; [done|by intros ->]].
    apply findPrompt_elem_of in Ef as [Hp Hid].
    clear -Hp Hid. induction (prompts panel) as [|q qs IH];
      [by apply elem_of_nil in Hp|].
    rewrite filter_cons. apply elem_of_cons in Hp as [<-|Hp].
    + rewrite decide_False by (by intros H). cbn.
      pose proof (length_filter (fun p0 => id p0 <> promptId) qs). lia.
    + specialize (IH Hp). destruct (decide _); cbn; lia.
Qed.

Lemma deleted_prompt_is_gone_witness :
  let panel := {| prompts := [{| id := str "a"; name := str "A";
                                 template := str "x"; description := [] |};
                              {| id := str "b"; name := str "B";
                                 template := str "y"; description := [] |}];
                  stored := None; promptTextarea := str "x" |} in
  findPrompt (prompts (handleDeletePrompt panel (str "a") true true)) (str "a")
  = None.
Proof.
  intros panel.
  destruct (deleted_prompt_is_gone panel (str "a") true true) as [_ H].
  destruct H as (H & _); [vm_compute; discriminate| |reflexivity|exact H].
  vm_compute. left.
Defined.

(** X17. Selecting a prompt that was just saved brings its template
    back: [handlePromptSelect] with the id that [handleSavePrompt] made
    puts the trimmed text of the text area into the text area and changes
    nothing else. *)
Theorem select_after_save (toLowerCase : jsstring -> jsstring)
    (panel : Panel) (promptName promptDescription : jsstring)
    (storageOk : bool) :
  trim promptName <> [] -> trim (promptTextarea panel) <> [] ->
  promptIdOf toLowerCase (trim promptName) <> [] ->
  let saved := handleSavePrompt toLowerCase panel promptName
                 promptDescription storageOk in
  handlePromptSelect saved (promptIdOf toLowerCase (trim promptName))
  = {| prompts := prompts saved; stored := stored saved;
       promptTextarea := trim (promptTextarea panel) |}.
Proof.
  intros Hn Ht Hid saved. subst saved.
  assert (Hsel : forall pn k p, k <> [] -> findPrompt (prompts pn) k = Some p ->
            handlePromptSelect pn k
            = {| prompts := prompts pn; stored := stored pn;
                 promptTextarea := template p |}).
  { intros pn k p Hk Hf. unfold handlePromptSelect. rewrite Hf.
    by destruct k. }
  unfold handleSavePrompt in *.
  destruct (trim promptName) as [|c1 n1] eqn:En; [done|].
  destruct (trim (promptTextarea panel)) as [|c2 t2] eqn:Et; [done|].
  set (newPrompt := {| id := promptIdOf toLowerCase (c1 :: n1);
                       name := c1 :: n1; template := c2 :: t2;
                       description := trim promptDescription |}).
  erewrite Hsel; [|done|apply (findPrompt_upsert (prompts panel) newPrompt)].
  done.
Qed.

Lemma select_after_save_witness :
  let panel := {| prompts := []; stored := None;
                  promptTextarea := str " Check {selection} " |} in
  promptTextarea
    (handlePromptSelect (handleSavePrompt (fun s => s) panel (str "My Check")
                           [] true)
       (str "My-Check"))
  = str "Check {selection}".
Proof.
  intros panel.
  pose proof (select_after_save (fun s => s) panel (str "My Check") [] true) as H.
  assert (H1 : trim (str "My Check") <> []) by (vm_compute; discriminate).
  assert (H2 : trim (promptTextarea panel) <> []) by (vm_compute; discriminate).
  assert (H3 : promptIdOf (fun s => s) (trim (str "My Check")) <> [])
    by (vm_compute; discriminate).
  specialize (H H1 H2 H3). cbn zeta in H.
  exact (f_equal promptTextarea H).
Defined.

(** ** The development server's endpoints ([setupMiddlewares]) *)

Module Server.

(** [prompts.json] and [user-prompts.json] as they parse; [None] for a
    file that is not there.  A file that does not parse is not modelled. *)
Record Files := {
  defaultPromptsFile : option (list Prompt);
  userPromptsFile : option (list Prompt)
}.

(** [res.json(body)], or [res.status(code).json({ error })]. *)
Inductive Reply (A : Type) :=
| Json (body : A)
| Status (code : nat).
Arguments Json {A} body.
Arguments Status {A} code.

(** [promptsMap.set(k, v)] on a [Map], kept in insertion order: the value
    of a key that is there is replaced in place, a new key goes last. *)
Fixpoint mapSet (promptsMap : list (jsstring * Prompt)) (k : jsstring)
    (v : Prompt) : list (jsstring * Prompt) :=
  match promptsMap with
  | [] => [(k, v)]
  | (k', v') :: promptsMap' =>
      if bool_decide (k' = k) then (k, v) :: promptsMap'
      else (k', v') :: mapSet promptsMap' k v
  end.

(** [l.forEach(p => promptsMap.set(p.id, p))]. *)
Definition setAll (promptsMap : list (jsstring * Prompt)) (l : list Prompt)
    : list (jsstring * Prompt) :=
  foldl (fun m p => mapSet m (id p) p) promptsMap l.

(** The user prompts: [[]] unless the file exists. *)
Definition readUserPrompts (files : Files) : list Prompt :=
  default [] (userPromptsFile files).

(** [GET /api/prompts]: reading [prompts.json] throws when it is not
    there. *)
Definition getPrompts (files : Files) : Reply (list Prompt) :=
  match defaultPromptsFile files with
  | None => Status 500
  | Some defaultPrompts =>
      let promptsMap := setAll (setAll [] defaultPrompts) (readUserPrompts files) in
      Json (map snd promptsMap)
  end.

(** [POST /api/prompts]; a field that is missing counts as empty;
    [writeOk] says whether [fs.writeFileSync] went through. *)
Definition postPrompt (files : Files) (newPrompt : Prompt) (writeOk : bool)
    : Files * Reply Prompt :=
  if bool_decide (id newPrompt = []) || bool_decide (name newPrompt = [])
     || bool_decide (template newPrompt = [])
  then (files, Status 400)
  else
    let userPrompts := upsert (readUserPrompts files) newPrompt in
    if writeOk then
      ({| defaultPromptsFile := defaultPromptsFile files;
          userPromptsFile := Some userPrompts |}, Json newPrompt)
    else (files, Status 500).

(** [DELETE /api/prompts/:id]. *)
Definition deletePrompt (files : Files) (promptId : jsstring) (writeOk : bool)
    : Files * Reply unit :=
  let userPrompts := readUserPrompts files in
  let filteredPrompts := filter (fun p => id p <> promptId) userPrompts in
  if bool_decide (length filteredPrompts = length userPrompts) then
    (files, Status 404)
  else if writeOk then
    ({| defaultPromptsFile := defaultPromptsFile files;
        userPromptsFile := Some filteredPrompts |}, Json tt)
  else (files, Status 500).

(** An entry of [logs]: the posted body and the [receivedAt] stamp. *)
Record LogEntry := {
  entryBody : jsstring;
  receivedAt : jsstring
}.

(** [logs], the parsed content of [e2e-test-logs.json], and
    [logWriteCounter]. *)
Record LogServer := {
  logs : list LogEntry;
  logFile : list LogEntry;
  logWriteCounter : nat
}.

Definition LOG_WRITE_INTERVAL : nat := 10.

(** [POST /log]; a failed write is logged to the console and
    forgotten. *)
Definition postLog (s : LogServer) (body now : jsstring) (writeOk : bool)
    : LogServer :=
  let logs' := logs s ++ [{| entryBody := body; receivedAt := now |}] in
  let counter := S (logWriteCounter s) in
  if bool_decide (LOG_WRITE_INTERVAL <= counter) then
    {| logs := logs'; logFile := if writeOk then logs' else logFile s;
       logWriteCounter := 0 |}
  else {| logs := logs'; logFile := logFile s; logWriteCounter := counter |}.

(** [POST /logs/clear]. *)
Definition clearLogs (s : LogServer) (writeOk : bool) : LogServer :=
  {| logs := []; logFile := if writeOk then [] else logFile s;
     logWriteCounter := logWriteCounter s |}.

Inductive LogRequest :=
| PostLog (body now : jsstring) (writeOk : bool)
| ClearLogs (writeOk : bool).

Definition serve (s : LogServer) (r : LogRequest) : LogServer :=
  match r with
  | PostLog body now writeOk => postLog s body now writeOk
  | ClearLogs writeOk => clearLogs s writeOk
  end.

(** The server after it loaded [existing] from the log file; a file that
    is not there counts as empty. *)
Definition started (existing : list LogEntry) : LogServer :=
  {| logs := existing; logFile := existing; logWriteCounter := 0 |}.

Definition writeSucceeds (r : LogRequest) : Prop :=
  match r with
  | PostLog _ _ writeOk => writeOk = true
  | ClearLogs writeOk => writeOk = true
  end.

End Server.
Import Server.

Section ServerFacts.

(** The last prompt of a list with a given id. *)
Definition lastWith (l : list Prompt) (k : jsstring) : option Prompt :=
  findPrompt (reverse l) k.

Definition keyed (m : list (jsstring * Prompt)) : Prop :=
  Forall (fun kv => id kv.2 = kv.1) m.

Lemma mapSet_keyed m p : keyed m -> keyed (mapSet m (id p) p).
Proof.
  unfold keyed. induction m as [|[k v] m IH]; intros H; cbn [mapSet].
  - by apply Forall_singleton.
  - apply Forall_cons in H as [Hk H]. case_bool_decide.
    + by apply Forall_cons.
    + apply Forall_cons. split; [done|by apply IH].
Qed.

Lemma mapSet_keys m k v :
  map fst (mapSet m k v)
  = if bool_decide (k ∈ map fst m) then map fst m else map fst m ++ [k].
Proof.
  induction m as [|[k' v'] m IH]; [done|]. cbn [mapSet].
  destruct (decide (k' = k)) as [->|Hk].
  - rewrite (bool_decide_eq_true_2 (k = k)) by done. cbn.
    rewrite bool_decide_eq_true_2; [done|left].
  - rewrite (bool_decide_eq_false_2 (k' = k)) by done. cbn. rewrite IH.
    destruct (decide (k ∈ map fst m)) as [Hin|Hin].
    + rewrite !bool_decide_eq_true_2; [done|by right|done].
    + rewrite !bool_decide_eq_false_2; [done| |done].
      intros [?|?]%elem_of_cons; [congruence|done].
Qed.

Lemma mapSet_NoDup m k v : NoDup (map fst m) -> NoDup (map fst (mapSet m k v)).
Proof.
  intros H. rewrite mapSet_keys. case_bool_decide as Hin; [done|].
  apply NoDup_app. split; [done|]. split; [|apply NoDup_singleton].
  intros x Hx Hx'. apply list_elem_of_singleton in Hx'. by subst x.
Qed.

Lemma findPrompt_mapSet m p k :
  keyed m ->
  findPrompt (map snd (mapSet m (id p) p)) k
  = if bool_decide (id p = k) then Some p else findPrompt (map snd m) k.
Proof.
  unfold keyed. induction m as [|[k' v'] m IH]; intros H; cbn [mapSet map snd].
  - rewrite findPrompt_cons. by destruct (bool_decide _).
  - apply Forall_cons in H as [Hk H]. cbn in Hk.
    destruct (decide (k' = id p)) as [->|Hne].
    + rewrite (bool_decide_eq_true_2 (id p = id p)) by done.
      cbn [map snd]. rewrite !findPrompt_cons.
      destruct (decide (id p = k)) as [E|E].
      * by rewrite !bool_decide_eq_true_2.
      * rewrite (bool_decide_eq_false_2 (id p = k)) by done.
        by rewrite bool_decide_eq_false_2 by congruence.
    + rewrite (bool_decide_eq_false_2 (k' = id p)) by done.
      cbn [map snd]. rewrite !findPrompt_cons, IH by done.
      destruct (decide (id v' = k)) as [E|E].
      * rewrite (bool_decide_eq_true_2 (id v' = k)) by done.
        by rewrite bool_decide_eq_false_2 by congruence.
      * by rewrite (bool_decide_eq_false_2 (id v' = k)) by done.
Qed.

Lemma findPrompt_app l1 l2 k :
  findPrompt (l1 ++ l2) k
  = match findPrompt l1 k with
    | Some p => Some p
    | None => findPrompt l2 k
    end.
Proof.
  induction l1 as [|q l1 IH]; [done|].
  rewrite <- app_comm_cons, !findPrompt_cons. by destruct (bool_decide _).
Qed.

Lemma lastWith_cons u us k :
  lastWith (u :: us) k
  = match lastWith us k with
    | Some p => Some p
    | None => if bool_decide (id u = k) then Some u else None
    end.
Proof.
  unfold lastWith. rewrite reverse_cons, findPrompt_app.
  destruct (findPrompt (reverse us) k); [done|]. by rewrite findPrompt_cons.
Qed.

Lemma setAll_keyed m l : keyed m -> keyed (setAll m l).
Proof.
  revert m. induction l as [|u us IH]; intros m H; [done|].
  apply IH. by apply mapSet_keyed.
Qed.

Lemma setAll_NoDup m l : NoDup (map fst m) -> NoDup (map fst (setAll m l)).
Proof.
  revert m. induction l as [|u us IH]; intros m H; [done|].
  apply IH. by apply mapSet_NoDup.
Qed.

Lemma findPrompt_setAll m l k :
  keyed m ->
  findPrompt (map snd (setAll m l)) k
  = match lastWith l k with
    | Some p => Some p
    | None => findPrompt (map snd m) k
    end.
Proof.
  revert m. induction l as [|u us IH]; intros m H; [done|].
  cbn [setAll foldl]. fold (setAll (mapSet m (id u) u) us).
  rewrite IH by (by apply mapSet_keyed). rewrite lastWith_cons.
  destruct (lastWith us k); [done|]. rewrite findPrompt_mapSet by done.
  by destruct (bool_decide _).
Qed.

Lemma keyed_ids m : keyed m -> map id (map snd m) = map fst m.
Proof.
  unfold keyed. induction 1 as [|[k v] m Hk _ IH]; [done|]. cbn in *.
  by rewrite Hk, IH.
Qed.

(** With unique ids the last prompt with an id is the first. *)
Lemma lastWith_NoDup l k : NoDup (map id l) -> lastWith l k = findPrompt l k.
Proof.
  induction l as [|u us IH]; [done|]. rewrite map_cons, NoDup_cons.
  intros [Hu Hnd]. rewrite lastWith_cons, findPrompt_cons, IH by done.
  destruct (decide (id u = k)) as [E|E].
  - rewrite bool_decide_eq_true_2 by done.
    assert (Hn : findPrompt us k = None)
      by (apply findPrompt_none; by rewrite <- E).
    by rewrite Hn.
  - rewrite bool_decide_eq_false_2 by done. by destruct (findPrompt us k).
Qed.

Lemma getPrompts_lookup files defaultPrompts :
  defaultPromptsFile files = Some defaultPrompts ->
  exists allPrompts,
    getPrompts files = Json allPrompts
    /\ NoDup (map id allPrompts)
    /\ forall k, findPrompt allPrompts k
         = match lastWith (readUserPrompts files) k with
           | Some p => Some p
           | None => lastWith defaultPrompts k
           end.
Proof.
  intros Hd. unfold getPrompts. rewrite Hd. eexists. split; [done|].
  assert (Hk : keyed (setAll [] defaultPrompts))
    by (apply setAll_keyed; constructor).
  split.
  - rewrite keyed_ids by (by apply setAll_keyed).
    apply setAll_NoDup, setAll_NoDup. constructor.
  - intros k. rewrite findPrompt_setAll by done.
    destruct (lastWith (readUserPrompts files) k); [done|].
    rewrite findPrompt_setAll by constructor.
    by destruct (lastWith defaultPrompts k).
Qed.

Lemma upsert_NoDup l p : NoDup (map id l) -> NoDup (map id (upsert l p)).
Proof.
  intros Hnd. rewrite upsert_ids. case_bool_decide as Hin; [done|].
  apply NoDup_app. split; [done|]. split; [|apply NoDup_singleton].
  intros x Hx Hx'. apply list_elem_of_singleton in Hx'. by subst x.
Qed.

Lemma filter_id_length l k :
  length (filter (fun p => id p <> k) l) = length l <-> k ∉ map id l.
Proof.
  induction l as [|q l IH]; [by split; [intros _ H; apply elem_of_nil in H|]|].
  rewrite filter_cons, map_cons, not_elem_of_cons.
  pose proof (length_filter (fun p => id p <> k) l) as Hle.
  destruct (decide (id q <> k)) as [Hq|Hq]; cbn [length].
  - split.
    + intros [= H]. split; [done|]. by apply IH.
    + intros [_ H]. f_equal. by apply IH.
  - apply dec_stable in Hq. split; [lia|]. by intros [? _].
Qed.

Lemma lastWith_filter l k k' :
  k' <> k -> lastWith (filter (fun p => id p <> k) l) k' = lastWith l k'.
Proof.
  intros Hk. unfold lastWith. rewrite <- filter_reverse.
  by apply findPrompt_filter.
Qed.

Lemma lastWith_filter_same l k :
  lastWith (filter (fun p => id p <> k) l) k = None.
Proof.
  unfold lastWith. rewrite <- filter_reverse. apply findPrompt_none.
  intros Hin. apply list_elem_of_fmap_1 in Hin as (q & -> & Hq).
  by apply list_elem_of_filter in Hq as [Hq _].
Qed.

(** What the log file lacks: the file holds the entries of [logs] up to
    the last write, and fewer entries are missing than the counter
    shows. *)
Definition lagging (s : LogServer) : Prop :=
  logFile s `prefix_of` logs s
  /\ length (logs s) - length (logFile s) <= logWriteCounter s
  /\ logWriteCounter s < LOG_WRITE_INTERVAL.

Lemma serve_lagging s r : writeSucceeds r -> lagging s -> lagging (serve s r).
Proof.
  unfold lagging, LOG_WRITE_INTERVAL.
  intros Hw (Hpre & Hlag & Hc). destruct r as [body now ok|ok]; cbn in Hw;
    subst ok; cbn [serve].
  - unfold postLog, LOG_WRITE_INTERVAL. case_bool_decide as Hten; cbn.
    + split; [done|]. lia.
    + split; [by apply prefix_app_r|]. rewrite length_app. cbn. lia.
  - cbn. split; [done|]. lia.
Qed.

End ServerFacts.

(** X18. [GET /api/prompts] answers with one prompt per id: the last user
    prompt with that id if there is one, else the last default prompt with
    it; so a user prompt overrides the default prompt of the same id.
    Without [prompts.json] the answer is a 500, whatever the user file
    holds. *)
Theorem get_prompts_merges_by_id (files : Files) :
  match defaultPromptsFile files with
  | None => getPrompts files = Status 500
  | Some defaultPrompts =>
      exists allPrompts,
        getPrompts files = Json allPrompts
        /\ NoDup (map id allPrompts)
        /\ (forall k, findPrompt allPrompts k
              = match lastWith (readUserPrompts files) k with
                | Some p => Some p
                | None => lastWith defaultPrompts k
                end)
        /\ (forall k, k ∈ map id allPrompts
              <-> k ∈ map id defaultPrompts
                  \/ k ∈ map id (readUserPrompts files))
  end.
Proof.
  destruct (defaultPromptsFile files) as [defaultPrompts|] eqn:Hd;
    [|unfold getPrompts; by rewrite Hd].
  destruct (getPrompts_lookup files defaultPrompts Hd)
    as (allPrompts & Hget & Hnd & Hfind).
  exists allPrompts. split; [done|]. split; [done|]. split; [done|].
  intros k.
  assert (Hmem : forall l, k ∈ map id l <-> lastWith l k <> None).
  { intros l. unfold lastWith. rewrite findPrompt_none.
    rewrite <- (reverse_involutive l) at 1. rewrite fmap_reverse.
    rewrite elem_of_reverse. split; [by intros H Hn|].
    intros H. by apply dec_stable. }
  assert (Hall : k ∈ map id allPrompts <-> findPrompt allPrompts k <> None).
  { rewrite findPrompt_none. split; [by intros H Hn|].
    intros H. by apply dec_stable. }
  rewrite Hall, Hfind, !Hmem.
  destruct (lastWith (readUserPrompts files) k),
    (lastWith defaultPrompts k); intuition congruence.
Qed.

(** X19. A prompt that is posted is the one listed.  When the user
    prompts have unique ids, [POST /api/prompts] of a prompt with an id, a
    name and a template answers with that prompt, and a following
    [GET /api/prompts] lists it under its id, whether a default prompt has
    that id or not; every other id is listed as before, and the ids of the
    user prompts are still unique.  A prompt without an id, a name or a
    template is answered with a 400 and the files stay as they were. *)
Theorem post_then_get (files : Files) (defaultPrompts : list Prompt)
    (newPrompt : Prompt) :
  defaultPromptsFile files = Some defaultPrompts ->
  NoDup (map id (readUserPrompts files)) ->
  (id newPrompt = [] \/ name newPrompt = [] \/ template newPrompt = [] ->
   forall writeOk, postPrompt files newPrompt writeOk = (files, Status 400))
  /\ (id newPrompt <> [] -> name newPrompt <> [] -> template newPrompt <> [] ->
      exists files' before after,
        postPrompt files newPrompt true = (files', Json newPrompt)
        /\ getPrompts files = Json before
        /\ getPrompts files' = Json after
        /\ findPrompt after (id newPrompt) = Some newPrompt
        /\ (forall k, k <> id newPrompt ->
              findPrompt after k = findPrompt before k)
        /\ NoDup (map id (readUserPrompts files'))).
Proof.
  intros Hd Hnd. split.
  - intros Hbad writeOk. unfold postPrompt.
    destruct Hbad as [-> | [-> | ->]]; cbn; [done| |].
    + by rewrite orb_true_r.
    + by rewrite !orb_true_r.
  - intros Hi Hn Ht. unfold postPrompt.
    rewrite !bool_decide_eq_false_2 by done. cbn [orb].
    set (files' := {| defaultPromptsFile := defaultPromptsFile files;
                      userPromptsFile :=
                        Some (upsert (readUserPrompts files) newPrompt) |}).
    destruct (getPrompts_lookup files defaultPrompts Hd)
      as (before & Hget & _ & Hfind).
    destruct (getPrompts_lookup files' defaultPrompts Hd)
      as (after & Hget' & _ & Hfind').
    exists files', before, after.
    split; [done|]. split; [done|]. split; [done|].
    change (readUserPrompts files')
      with (upsert (readUserPrompts files) newPrompt) in *.
    pose proof (upsert_NoDup _ newPrompt Hnd) as Hnd'.
    split; [|split; [|done]].
    + rewrite Hfind'. rewrite (lastWith_NoDup _ _ Hnd').
      by rewrite findPrompt_upsert.
    + intros k Hk. rewrite Hfind', Hfind.
      rewrite (lastWith_NoDup _ _ Hnd'), (lastWith_NoDup _ _ Hnd).
      by rewrite findPrompt_upsert_other.
Qed.

(** Posting a new version of the default [legal-review]. *)
Lemma post_then_get_witness :
  let legal := {| id := str "legal-review"; name := str "Legal Review";
                  template := str "Review {selection}"; description := [] |} in
  let mine := {| id := str "legal-review"; name := str "Mine";
                 template := str "Check {selection}"; description := [] |} in
  let files := {| defaultPromptsFile := Some [legal];
                  userPromptsFile := None |} in
  exists after,
    getPrompts (postPrompt files mine true).1 = Json after
    /\ findPrompt after (str "legal-review") = Some mine.
Proof.
  intros legal mine files.
  destruct (post_then_get files [legal] mine eq_refl) as [_ H];
    [constructor|].
  destruct H as (files' & before & after & Hpost & _ & Hget & Hfind & _);
    [vm_compute; discriminate..|].
  exists after. split; [by rewrite Hpost|exact Hfind].
Defined.

(** X20. [DELETE /api/prompts/:id] removes user prompts only.  For an id
    that no user prompt carries the answer is a 404 and the files stay as
    they were, also when a default prompt has that id.  Otherwise every
    user prompt with that id is removed; a following [GET /api/prompts]
    lists the default prompt of that id again if there is one and no
    prompt of that id if not, and every other id as before. *)
Theorem delete_restores_default (files : Files)
    (defaultPrompts : list Prompt) (promptId : jsstring) :
  defaultPromptsFile files = Some defaultPrompts ->
  (promptId ∉ map id (readUserPrompts files) ->
   forall writeOk, deletePrompt files promptId writeOk = (files, Status 404))
  /\ (promptId ∈ map id (readUserPrompts files) ->
      exists files' before after,
        deletePrompt files promptId true = (files', Json tt)
        /\ getPrompts files = Json before
        /\ getPrompts files' = Json after
        /\ findPrompt after promptId = lastWith defaultPrompts promptId
        /\ (forall k, k <> promptId ->
              findPrompt after k = findPrompt before k)
        /\ promptId ∉ map id (readUserPrompts files')).
Proof.
  intros Hd. split.
  - intros Hnot writeOk. unfold deletePrompt.
    by rewrite bool_decide_eq_true_2 by (by apply filter_id_length).
  - intros Hin. unfold deletePrompt.
    rewrite bool_decide_eq_false_2
      by (intros H; by apply filter_id_length in H).
    set (files' := {| defaultPromptsFile := defaultPromptsFile files;
                      userPromptsFile :=
                        Some (filter (fun p => id p <> promptId)
                                (readUserPrompts files)) |}).
    destruct (getPrompts_lookup files defaultPrompts Hd)
      as (before & Hget & _ & Hfind).
    destruct (getPrompts_lookup files' defaultPrompts Hd)
      as (after & Hget' & _ & Hfind').
    exists files', before, after.
    split; [done|]. split; [done|]. split; [done|].
    change (readUserPrompts files')
      with (filter (fun p => id p <> promptId) (readUserPrompts files)) in *.
    split; [|split].
    + by rewrite Hfind', lastWith_filter_same.
    + intros k Hk. by rewrite Hfind', Hfind, lastWith_filter.
    + intros H. apply list_elem_of_fmap_1 in H as (q & -> & Hq).
      by apply list_elem_of_filter in Hq as [Hq _].
Qed.

(** Deleting the user's version of [legal-review] brings the default
    back. *)
Lemma delete_restores_default_witness :
  let legal := {| id := str "legal-review"; name := str "Legal Review";
                  template := str "Review {selection}"; description := [] |} in
  let mine := {| id := str "legal-review"; name := str "Mine";
                 template := str "Check {selection}"; description := [] |} in
  let files := {| defaultPromptsFile := Some [legal];
                  userPromptsFile := Some [mine] |} in
  getPrompts files = Json [mine]
  /\ exists after,
       getPrompts (deletePrompt files (str "legal-review") true).1 = Json after
       /\ findPrompt after (str "legal-review") = Some legal.
Proof.
  intros legal mine files. split; [reflexivity|].
  destruct (delete_restores_default files [legal] (str "legal-review") eq_refl)
    as [_ H].
  destruct H as (files' & before & after & Hdel & _ & Hget & Hfind & _);
    [vm_compute; left|].
  exists after. split; [by rewrite Hdel|exact Hfind].
Defined.

(** X21. As long as the writes of the log file go through, the file
    holds the entries of [logs] up to the last write and lacks at most
    nine of them, whatever [POST /log] and [POST /logs/clear] requests
    the server has served since it loaded the file. *)
Theorem log_file_lags_by_less_than_ten (existing : list LogEntry)
    (requests : list LogRequest) :
  Forall writeSucceeds requests ->
  let s := foldl serve (started existing) requests in
  logFile s `prefix_of` logs s
  /\ length (logs s) - length (logFile s) < LOG_WRITE_INTERVAL
  /\ length (logs s) - length (logFile s) <= logWriteCounter s.
Proof.
  intros Hw s.
  assert (Hlag : lagging s).
  { subst s. assert (H0 : lagging (started existing)).
    { unfold lagging, started, LOG_WRITE_INTERVAL. cbn. split; [done|]. lia. }
    revert H0. generalize (started existing).
    induction Hw as [|r rs Hr _ IH]; intros s0 H0; [done|].
    cbn [foldl]. apply IH. by apply serve_lagging. }
  destruct Hlag as (H1 & H2 & H3). split; [done|]. split; [lia|done].
Qed.

(** Twelve entries posted to a server that started empty: the file has
    the first ten. *)
Lemma log_file_lags_by_less_than_ten_witness :
  let s := foldl serve (started [])
             (replicate 12 (PostLog (str "{}") (str "t") true)) in
  length (logs s) - length (logFile s) < LOG_WRITE_INTERVAL.
Proof.
  intros s.
  refine (proj1 (proj2 (log_file_lags_by_less_than_ten []
            (replicate 12 (PostLog (str "{}") (str "t") true)) _))).
  apply Forall_replicate. reflexivity.
Defined.

(** ** The loop control of the end-to-end tests ([setupMiddlewares]) *)

Module LoopControl.

(** [global.e2eLoopControl]. *)
Record Control := {
  canProceed : bool;
  waitingForTrigger : bool;
  lastIteration : option jsstring
}.

(** The state the server starts with when the global is not set. *)
Definition paused : Control :=
  {| canProceed := false; waitingForTrigger := true; lastIteration := None |}.

Inductive LoopRequest :=
| GetStatus    (** [GET /api/e2e-loop/status] *)
| Trigger      (** [POST /api/e2e-loop/trigger] *)
| Pause        (** [POST /api/e2e-loop/pause] *).

(** The body of the answer to [GET /api/e2e-loop/status]. *)
Definition status (control : Control) : Control :=
  let isWaiting := negb (canProceed control) || waitingForTrigger control in
  {| canProceed := canProceed control; waitingForTrigger := isWaiting;
     lastIteration := lastIteration control |}.

Definition serveLoop (control : Control) (r : LoopRequest) : Control :=
  match r with
  | GetStatus => control
  | Trigger =>
      {| canProceed := true; waitingForTrigger := false;
         lastIteration := lastIteration control |}
  | Pause =>
      {| canProceed := false; waitingForTrigger := true;
         lastIteration := lastIteration control |}
  end.

Definition isCommand (r : LoopRequest) : Prop := r <> GetStatus.

Global Instance isCommand_dec r : Decision (isCommand r).
Proof. unfold isCommand. destruct r; (by right; intros H) || (by left). Defined.

End LoopControl.
Import LoopControl.

(** X22. The loop proceeds exactly when the last command was a trigger.
    From the paused start, after any sequence of status, trigger and
    pause requests, the status reports [canProceed] exactly when the last
    trigger or pause request was a trigger, and it reports
    [waitingForTrigger] exactly when it does not report [canProceed].
    Whatever the global holds, the status never reports that the loop can
    neither proceed nor is waiting. *)
Theorem loop_proceeds_after_trigger (requests : list LoopRequest) :
  let control := foldl serveLoop paused requests in
  (canProceed (status control) = true
   <-> last (filter isCommand requests) = Some Trigger)
  /\ waitingForTrigger (status control) = negb (canProceed (status control))
  /\ forall any, canProceed (status any) = false ->
       waitingForTrigger (status any) = true.
Proof.
  intros control.
  assert (Hinv : forall c0, waitingForTrigger c0 = negb (canProceed c0) ->
            let c := foldl serveLoop c0 requests in
            waitingForTrigger c = negb (canProceed c)
            /\ (canProceed c = true
                <-> match last (filter isCommand requests) with
                    | Some r => r = Trigger
                    | None => canProceed c0 = true
                    end)).
  { induction requests as [|r rs IH]; intros c0 H0; [done|].
    cbn [foldl]. rewrite filter_cons.
    destruct (IH (serveLoop c0 r)) as [H1 H2]; [by destruct r|].
    split; [done|]. rewrite H2.
    destruct (decide (isCommand r)) as [Hr|Hr].
    - rewrite last_cons.
      destruct (last (filter isCommand rs)); [done|].
      destruct r; [done|done|]. cbn. split; [done|by intros ?].
    - destruct r; [|by destruct Hr|by destruct Hr]. done. }
  destruct (Hinv paused eq_refl) as [H1 H2]. fold control in H1, H2.
  split; [|split].
  - cbn [status canProceed]. rewrite H2.
    destruct (last (filter isCommand requests)) as [r|].
    + split; [by intros ->|by intros [= ->]].
    + split; [done|done].
  - cbn. rewrite H1. by destruct (canProceed control).
  - intros any. cbn. by intros ->.
Qed.

(** ** The static file server ([generate-manifest.cjs], second script) *)

Module StaticServer.

(** [s.split("/")], [cur] being the piece under way. *)
Fixpoint splitOn (sep : char16) (s cur : jsstring) : list jsstring :=
  match s with
  | [] => [cur]
  | c :: s' =>
      if (c =? sep)%N then cur :: splitOn sep s' []
      else splitOn sep s' (cur ++ [c])
  end.

(** The segments that [normalizeString] of Node's [path] module keeps,
    for a path that may not climb above the root: an empty segment and
    ["."] are dropped, [".."] drops the segment before it. *)
Definition normalizeStep (res : list jsstring) (segment : jsstring)
    : list jsstring :=
  if bool_decide (segment = [] \/ segment = str ".") then res
  else if bool_decide (segment = str "..") then removelast res
  else res ++ [segment].

Definition normalizeSegments (segments : list jsstring) : list jsstring :=
  foldl normalizeStep [] segments.

(** [path.resolve(baseDir, rel)] on POSIX for an absolute [baseDir] and a
    relative, non-empty [rel]: the two are put together as
    [baseDir/rel/], normalized, and given a leading slash. *)
Definition resolve (baseDir rel : jsstring) : jsstring :=
  str "/" ++ join (str "/")
               (normalizeSegments
                  (splitOn 47%N (baseDir ++ str "/" ++ rel ++ str "/") [])).

(** [safeJoin]. *)
Definition safeJoin (baseDir targetPath : jsstring) : option jsstring :=
  let resolvedPath := resolve baseDir (str "." ++ targetPath) in
  if startsWith resolvedPath baseDir then Some resolvedPath else None.

(** ["/a/b/c"] for the segments [a], [b], [c]. *)
Definition slashed (segments : list jsstring) : jsstring :=
  concat (map (fun segment => 47%N :: segment) segments).

(** A file or directory name. *)
Definition properSegment (segment : jsstring) : Prop :=
  segment <> [] /\ segment <> str "." /\ segment <> str ".."
  /\ 47%N ∉ segment.

End StaticServer.
Import StaticServer.

Section Paths.

Lemma splitOn_segment segment s cur :
  47%N ∉ segment ->
  splitOn 47%N (segment ++ 47%N :: s) cur = (cur ++ segment) :: splitOn 47%N s [].
Proof.
  revert cur. induction segment as [|c segment IH]; intros cur Hs.
  - cbn. by rewrite app_nil_r.
  - apply not_elem_of_cons in Hs as [Hc Hs]. rewrite <- app_comm_cons.
    cbn [splitOn]. apply not_eq_sym, N.eqb_neq in Hc. rewrite Hc.
    rewrite IH by done. by rewrite <- app_assoc.
Qed.

Lemma slashed_cons a l : slashed (a :: l) = 47%N :: a ++ slashed l.
Proof. done. Qed.

Lemma splitOn_slashed segments s :
  Forall (fun segment => 47%N ∉ segment) segments ->
  splitOn 47%N (slashed segments ++ 47%N :: s) []
  = [] :: segments ++ splitOn 47%N s [].
Proof.
  intros H. assert (Hgo : forall first,
      47%N ∉ first ->
      splitOn 47%N (first ++ slashed segments ++ 47%N :: s) []
      = first :: segments ++ splitOn 47%N s []).
  { induction H as [|segment segments Hs _ IH]; intros first Hf.
    - change (slashed []) with (@nil char16). rewrite app_nil_l.
      by rewrite splitOn_segment.
    - rewrite slashed_cons, <- app_comm_cons.
      rewrite splitOn_segment by done. rewrite app_nil_l.
      rewrite <- app_assoc, <- app_comm_cons. f_equal. by apply IH. }
  apply (Hgo []). by intros H0%elem_of_nil.
Qed.

Lemma slashed_app l1 l2 : slashed (l1 ++ l2) = slashed l1 ++ slashed l2.
Proof. unfold slashed. by rewrite map_app, concat_app. Qed.

Lemma join_slashed segments :
  segments <> [] -> str "/" ++ join (str "/") segments = slashed segments.
Proof.
  induction segments as [|a [|b l] IH]; intros Hne; [done| |].
  - rewrite slashed_cons. change (slashed []) with (@nil char16).
    by rewrite app_nil_r.
  - change (join (str "/") (a :: b :: l))
      with (a ++ str "/" ++ join (str "/") (b :: l)).
    rewrite slashed_cons, <- IH by done. done.
Qed.

Lemma normalizeStep_proper res segment :
  properSegment segment -> normalizeStep res segment = res ++ [segment].
Proof.
  intros (H1 & H2 & H3 & _). unfold normalizeStep.
  rewrite bool_decide_eq_false_2 by (by intros [?|?]).
  by rewrite bool_decide_eq_false_2 by done.
Qed.

Lemma normalize_proper res segments :
  Forall properSegment segments ->
  foldl normalizeStep res segments = res ++ segments.
Proof.
  intros H. revert res. induction H as [|a l Ha _ IH];
    intros res; [by rewrite app_nil_r|].
  cbn [foldl]. rewrite normalizeStep_proper by done. rewrite IH.
  by rewrite <- app_assoc.
Qed.

Lemma properSegment_slash segments :
  Forall properSegment segments ->
  Forall (fun segment => 47%N ∉ segment) segments.
Proof. intros H. eapply Forall_impl; [exact H|]. by intros a (_ & _ & _ & ?). Qed.

Lemma dot_no_slash : 47%N ∉ str ".".
Proof. intros H. apply list_elem_of_singleton in H. discriminate. Qed.

Lemma dots_no_slash : 47%N ∉ str "..".
Proof.
  intros H. apply elem_of_cons in H as [H|H]; [discriminate|].
  apply list_elem_of_singleton in H. discriminate.
Qed.

(** What [resolve] makes of a target that only goes down, and of one that
    climbs once and then goes down. *)
Lemma resolve_down base down :
  Forall properSegment base -> Forall properSegment down ->
  base ++ down <> [] ->
  resolve (slashed base) (str "." ++ slashed down) = slashed (base ++ down).
Proof.
  intros Hb Hd Hne. unfold resolve.
  replace (slashed base ++ str "/" ++ (str "." ++ slashed down) ++ str "/")
    with (slashed (base ++ [str "."] ++ down) ++ 47%N :: [])
    by (rewrite !slashed_app, (slashed_cons (str ".") []);
        change (slashed []) with (@nil char16);
        by rewrite app_nil_r, <- !app_assoc).
  rewrite splitOn_slashed.
  2:{ apply Forall_app. split; [by apply properSegment_slash|].
      apply Forall_cons. split; [apply dot_no_slash|].
      by apply properSegment_slash. }
  unfold normalizeSegments.
  change (foldl normalizeStep [] ([] :: ?l)) with (foldl normalizeStep [] l).
  rewrite !foldl_app. rewrite (normalize_proper [] base Hb), app_nil_l.
  cbn [splitOn foldl].
  change (normalizeStep base (str ".")) with base.
  rewrite (normalize_proper base down Hd).
  change (normalizeStep (base ++ down) []) with (base ++ down).
  by apply join_slashed.
Qed.

Lemma resolve_up_down base name down :
  Forall properSegment base -> properSegment name ->
  Forall properSegment down ->
  resolve (slashed (base ++ [name])) (str "." ++ slashed (str ".." :: down))
  = str "/" ++ join (str "/") (base ++ down).
Proof.
  intros Hb Hn Hd. unfold resolve.
  assert (HB : Forall properSegment (base ++ [name]))
    by (apply Forall_app; split; [done|by apply Forall_singleton]).
  remember (base ++ [name]) as B eqn:EB.
  replace (slashed B ++ str "/"
           ++ (str "." ++ slashed (str ".." :: down)) ++ str "/")
    with (slashed (B ++ [str "."; str ".."] ++ down) ++ 47%N :: [])
    by (rewrite !slashed_app, (slashed_cons (str ".") [str ".."]),
          (slashed_cons (str "..") []), (slashed_cons (str "..") down);
        change (slashed []) with (@nil char16);
        by rewrite app_nil_r, <- !app_assoc).
  rewrite splitOn_slashed.
  2:{ apply Forall_app. split; [by apply properSegment_slash|].
      apply Forall_cons. split; [apply dot_no_slash|].
      apply Forall_cons. split; [apply dots_no_slash|].
      by apply properSegment_slash. }
  unfold normalizeSegments.
  change (foldl normalizeStep [] ([] :: ?l)) with (foldl normalizeStep [] l).
  rewrite !foldl_app. rewrite (normalize_proper [] B HB), app_nil_l.
  cbn [splitOn foldl].
  change (normalizeStep B (str ".")) with B.
  change (normalizeStep B (str "..")) with (removelast B).
  rewrite EB, removelast_last.
  rewrite (normalize_proper base down Hd).
  by change (normalizeStep (base ++ down) []) with (base ++ down).
Qed.

Lemma startsWith_length s p : startsWith s p = true -> length p <= length s.
Proof.
  intros [r ->]%startsWith_spec. rewrite length_app. lia.
Qed.

End Paths.

(** X23. [safeJoin] keeps ordinary paths inside the base directory and
    rejects a path that climbs out of it, but it tells directories apart
    by a prefix test on strings.  For a base directory [/dir/name] and
    proper file names: a path that only goes down is resolved below the
    base directory; the path ["/.."] is rejected; yet a path that climbs
    out once and enters the sibling directory [name ++ suffix] is
    accepted and resolved outside the base directory. *)
Theorem safeJoin_accepts_sibling_directory (dir down : list jsstring)
    (name suffix file : jsstring) :
  Forall properSegment dir -> properSegment name ->
  Forall properSegment down -> down <> [] ->
  suffix <> [] -> 47%N ∉ suffix -> properSegment file ->
  let baseDir := slashed (dir ++ [name]) in
  safeJoin baseDir (slashed down) = Some (baseDir ++ slashed down)
  /\ safeJoin baseDir (str "/..") = None
  /\ safeJoin baseDir (str "/../" ++ name ++ suffix ++ str "/" ++ file)
     = Some (slashed (dir ++ [name ++ suffix; file]))
  /\ ~ (exists rest, slashed (dir ++ [name ++ suffix; file])
                     = baseDir ++ str "/" ++ rest).
Proof.
  intros Hdir Hname Hdown Hne Hsuf Hslash Hfile baseDir.
  assert (Hbase : Forall properSegment (dir ++ [name]))
    by (apply Forall_app; split; [done|by apply Forall_singleton]).
  assert (Hsib : properSegment (name ++ suffix)).
  { destruct Hname as (H1 & H2 & H3 & H4). repeat split.
    - by destruct name.
    - destruct name as [|c [|d l]]; [done| |done].
      destruct suffix; [done|]. by intros [= -> ->].
    - destruct name as [|c [|d [|e l]]]; [done| | |by destruct l].
      + destruct suffix as [|x [|y l]]; [done| |done].
        intros [= -> ->]. done.
      + destruct suffix; [done|]. done.
    - intros [?|?]%elem_of_app; done. }
  split; [|split; [|split]].
  - unfold safeJoin. subst baseDir. rewrite resolve_down; [|done|done|].
    + rewrite slashed_app.
      by rewrite (proj2 (startsWith_spec _ _))
        by (by exists (slashed down)).
    + by destruct dir.
  - unfold safeJoin. subst baseDir.
    change (str "/..") with (slashed [str ".."]).
    rewrite resolve_up_down by done. rewrite app_nil_r.
    destruct (startsWith _ _) eqn:E; [|done].
    apply startsWith_length in E. exfalso. revert E.
    rewrite slashed_app. destruct dir as [|a dir'].
    + unfold slashed. cbn. destruct Hname as (H1 & _).
      destruct name; [done|]. cbn. lia.
    + rewrite join_slashed by done. rewrite !length_app.
      unfold slashed at 2. cbn. lia.
  - unfold safeJoin. subst baseDir.
    replace (str "/../" ++ name ++ suffix ++ str "/" ++ file)
      with (slashed (str ".." :: [name ++ suffix; file]))
      by (unfold slashed; cbn; by rewrite <- !app_assoc, app_nil_r).
    rewrite resolve_up_down; [|done|done|].
    2:{ apply Forall_cons. split; [done|]. by apply Forall_singleton. }
    rewrite join_slashed by (by destruct dir).
    rewrite (proj2 (startsWith_spec _ _)); [done|].
    exists (suffix ++ slashed [file]). rewrite !slashed_app.
    unfold slashed at 3 5. cbn. by rewrite <- !app_assoc, !app_nil_r.
  - subst baseDir. intros [rest Heq]. rewrite !slashed_app in Heq.
    rewrite <- app_assoc in Heq. apply app_inv_head in Heq.
    rewrite !slashed_cons in Heq. change (slashed []) with (@nil char16) in Heq.
    rewrite !app_nil_r in Heq. injection Heq as Heq.
    rewrite <- !app_assoc in Heq. apply app_inv_head in Heq.
    destruct suffix as [|c suffix']; [done|].
    rewrite <- app_comm_cons in Heq. injection Heq as -> _.
    apply Hslash. left.
Qed.

(** The build output in [/app/dist], a backup beside it in
    [/app/dist-old]. *)
Lemma safeJoin_accepts_sibling_directory_witness :
  safeJoin (str "/app/dist") (str "/../dist-old/.env")
  = Some (str "/app/dist-old/.env").
Proof.
  refine (proj1 (proj2 (proj2
            (safeJoin_accepts_sibling_directory [str "app"] [str "assets"]
               (str "dist") (str "-old") (str ".env") _ _ _ _ _ _ _)))).
  - apply Forall_singleton. repeat split; try done.
    by vm_compute; intros H; listed H.
  - repeat split; try done. by vm_compute; intros H; listed H.
  - apply Forall_singleton. repeat split; try done.
    by vm_compute; intros H; listed H.
  - done.
  - done.
  - by vm_compute; intros H; listed H.
  - repeat split; try done. by vm_compute; intros H; listed H.
Defined.

(** ** The manifest template ([generate-manifest.cjs]) *)

Module Manifest.

(** What [getEnv] returns. *)
Record Env := {
  HOST : jsstring;
  PORT : jsstring;
  PROTOCOL : jsstring
}.

(** [renderTemplate]: three global replacements, one after the other,
    each with the value as the replacement string. *)
Definition renderTemplate (template : jsstring) (env : Env) : jsstring :=
  replaceGo (str "${PROTOCOL}") (PROTOCOL env) []
    (replaceGo (str "${PORT}") (PORT env) []
       (replaceGo (str "${HOST}") (HOST env) [] template 0) 0) 0.

(** A template, cut into its text and its placeholders. *)
Inductive Item :=
| Text (piece : jsstring)
| HostItem
| PortItem
| ProtocolItem.

Definition source (item : Item) : jsstring :=
  match item with
  | Text piece => piece
  | HostItem => str "${HOST}"
  | PortItem => str "${PORT}"
  | ProtocolItem => str "${PROTOCOL}"
  end.

Definition value (env : Env) (item : Item) : jsstring :=
  match item with
  | Text piece => piece
  | HostItem => HOST env
  | PortItem => PORT env
  | ProtocolItem => PROTOCOL env
  end.

Definition plainText (item : Item) : Prop :=
  match item with
  | Text piece => 36%N ∉ piece
  | _ => True
  end.

End Manifest.
Import Manifest.

Section Rendering.

(** A chunk that a replacement of [pat] passes over. *)
Definition inert (pat chunk : jsstring) : Prop :=
  forall replacement before rest,
    replaceGo pat replacement before (chunk ++ rest) 0
    = chunk ++ replaceGo pat replacement (before ++ chunk) rest 0.

Lemma startsWith_head c s d p :
  c <> d -> startsWith (c :: s) (d :: p) = false.
Proof. intros H. cbn. apply andb_false_intro1. by apply N.eqb_neq. Qed.

Lemma inert_plain pat' chunk : 36%N ∉ chunk -> inert (36%N :: pat') chunk.
Proof.
  intros Hc replacement before rest. revert before.
  induction chunk as [|c chunk IH]; intros before.
  - by rewrite app_nil_r.
  - apply not_elem_of_cons in Hc as [Hc Hs].
    rewrite <- !app_comm_cons. cbn [replaceGo].
    rewrite startsWith_head by done. rewrite IH by done.
    by rewrite <- app_assoc.
Qed.

Lemma inert_other pat' chunk' :
  36%N ∉ chunk' ->
  (forall rest, startsWith (36%N :: chunk' ++ rest) (36%N :: pat') = false) ->
  inert (36%N :: pat') (36%N :: chunk').
Proof.
  intros Hc Hs replacement before rest.
  rewrite <- !app_comm_cons. cbn [replaceGo]. rewrite Hs.
  rewrite (inert_plain pat' chunk' Hc). by rewrite <- app_assoc.
Qed.

Lemma replaceGo_pattern pat replacement before rest :
  pat <> [] ->
  replaceGo pat replacement before (pat ++ rest) 0
  = getSubstitution pat before rest replacement
    ++ replaceGo pat replacement (before ++ pat) rest 0.
Proof.
  intros Hne.
  assert (Hs : startsWith (pat ++ rest) pat = true)
    by (apply startsWith_spec; eauto).
  assert (Hd : drop (length pat) (pat ++ rest) = rest)
    by apply drop_app_length.
  destruct pat as [|c pat']; [done|].
  rewrite <- app_comm_cons in *. cbn [replaceGo]. rewrite Hs, Hd.
  f_equal. cbn [length]. rewrite Nat.sub_succ, Nat.sub_0_r.
  rewrite replaceGo_skip. by rewrite <- app_assoc.
Qed.

Lemma verbatim_plain s : 36%N ∉ s -> verbatim s = true.
Proof.
  induction s as [|c s IH]; [done|]. intros [Hc Hs]%not_elem_of_cons.
  cbn [verbatim]. apply not_eq_sym, N.eqb_neq in Hc. rewrite Hc.
  by rewrite IH.
Qed.

(** One pass over a text cut into chunks. *)
Lemma replaceGo_chunks pat replacement chunks :
  pat <> [] -> 36%N ∉ replacement ->
  Forall (fun chunk => chunk = pat \/ inert pat chunk) chunks ->
  forall before,
    replaceGo pat replacement before (concat chunks) 0
    = concat (map (fun chunk => if decide (chunk = pat) then replacement
                                else chunk) chunks).
Proof.
  intros Hne Hr H. induction H as [|chunk chunks Hc _ IH]; intros before;
    [done|].
  cbn [concat map]. destruct (decide (chunk = pat)) as [->|Hn].
  - rewrite replaceGo_pattern by done.
    rewrite getSubstitution_verbatim by (by apply verbatim_plain).
    by rewrite IH.
  - destruct Hc as [?|Hc]; [done|]. by rewrite Hc, IH.
Qed.

End Rendering.

(** X24. [renderTemplate] fills in a template whose text holds no dollar
    sign: when the template is made of such text and of the placeholders
    [${HOST}], [${PORT}] and [${PROTOCOL}], and the three values hold no
    dollar sign either, the output is the template with every placeholder
    replaced by its value and the text left as it is. *)
Theorem renderTemplate_fills_placeholders (items : list Item) (env : Env) :
  Forall plainText items ->
  36%N ∉ HOST env -> 36%N ∉ PORT env -> 36%N ∉ PROTOCOL env ->
  renderTemplate (concat (map source items)) env
  = concat (map (value env) items).
Proof.
  intros Hitems Hh Hp Hq. unfold renderTemplate.
  set (afterHost := fun item => match item with
                                | HostItem => HOST env
                                | _ => source item
                                end).
  set (afterPort := fun item => match item with
                                | PortItem => PORT env
                                | _ => afterHost item
                                end).
  assert (H1 : replaceGo (str "${HOST}") (HOST env) []
                 (concat (map source items)) 0
               = concat (map afterHost items)).
  { rewrite replaceGo_chunks; [|done|done|].
    - rewrite map_map. f_equal. apply map_ext_Forall.
      eapply Forall_impl; [exact Hitems|]. intros [piece| | |] Hi; cbn.
      + case_decide as E; [|done].
        exfalso. apply Hi. rewrite E. left.
      + done.
      + done.
      + done.
    - apply Forall_fmap. eapply Forall_impl; [exact Hitems|].
      intros [piece| | |] Hi; cbn.
      + right. by apply inert_plain.
      + by left.
      + right. apply inert_other; [by intros H; listed H|done].
      + right. apply inert_other; [by intros H; listed H|done]. }
  assert (H2 : replaceGo (str "${PORT}") (PORT env) []
                 (concat (map afterHost items)) 0
               = concat (map afterPort items)).
  { rewrite replaceGo_chunks; [|done|done|].
    - rewrite map_map. f_equal. apply map_ext_Forall.
      eapply Forall_impl; [exact Hitems|]. intros [piece| | |] Hi; cbn.
      + case_decide as E; [|done].
        exfalso. apply Hi. rewrite E. left.
      + case_decide as E; [|done].
        exfalso. apply Hh. rewrite E. left.
      + done.
      + done.
    - apply Forall_fmap. eapply Forall_impl; [exact Hitems|].
      intros [piece| | |] Hi; cbn.
      + right. by apply inert_plain.
      + right. by apply inert_plain.
      + by left.
      + right. apply inert_other; [by intros H; listed H|done]. }
  rewrite H1, H2. rewrite replaceGo_chunks; [|done|done|].
  - rewrite map_map. f_equal. apply map_ext_Forall.
    eapply Forall_impl; [exact Hitems|]. intros [piece| | |] Hi; cbn.
    + case_decide as E; [|done].
      exfalso. apply Hi. rewrite E. left.
    + case_decide as E; [|done].
      exfalso. apply Hh. rewrite E. left.
    + case_decide as E; [|done].
      exfalso. apply Hp. rewrite E. left.
    + done.
  - apply Forall_fmap. eapply Forall_impl; [exact Hitems|].
    intros [piece| | |] Hi; cbn.
    + right. by apply inert_plain.
    + right. by apply inert_plain.
    + right. by apply inert_plain.
    + by left.
Qed.

Lemma renderTemplate_fills_placeholders_witness :
  renderTemplate (str "<Url>${PROTOCOL}://${HOST}:${PORT}/taskpane.html</Url>")
    {| HOST := str "localhost"; PORT := str "3000"; PROTOCOL := str "https" |}
  = str "<Url>https://localhost:3000/taskpane.html</Url>".
Proof.
  apply (renderTemplate_fills_placeholders
           [Text (str "<Url>"); ProtocolItem; Text (str "://"); HostItem;
            Text (str ":"); PortItem; Text (str "/taskpane.html</Url>")]
           {| HOST := str "localhost"; PORT := str "3000";
              PROTOCOL := str "https" |}).
  - repeat (apply Forall_cons; split;
              [first [exact I|by vm_compute; intros H; listed H]|]).
    by constructor.
  - by vm_compute; intros H; listed H.
  - by vm_compute; intros H; listed H.
  - by vm_compute; intros H; listed H.
Defined.

(** ** The tracking mode in a review *)

(** X26. [handleReviewSelection] sets the tracking mode once and leaves
    it.  Whenever an invocation assigns the document's change-tracking
    mode, the host defines [Word.ChangeTrackingMode], the mode is
    [trackAll] or off as [config.trackChangesEnabled] says, the diff
    strategy is started right after the assignment, and nothing that
    follows in the invocation touches the document again: the mode is not
    put back to what it was, neither after a success nor after a failure
    of the strategy. *)
Theorem tracking_mode_set_once (cfg : Config) (trackingAvailable : bool)
    (a : App) (promptValue : jsstring) (selection : Settled jsstring)
    (llm : Settled (option jsstring)) (applied : Settled unit)
    (m : ChangeTrackingMode) :
  let a' := handleReviewSelection cfg trackingAvailable a promptValue
              selection llm applied in
  AssignChangeTracking m ∈ newEffects a a' ->
  trackingAvailable = true
  /\ m = (if trackChangesEnabled cfg then trackAll else trackOff)
  /\ exists before s originalText revisedText after,
       newEffects a a'
       = before ++ [AssignChangeTracking m;
                    ApplyStrategy s originalText revisedText] ++ after
       /\ Forall (fun e => ~ mutates e) before
       /\ Forall (fun e => ~ mutates e) after.
Proof.
  intros a'. unfold a', handleReviewSelection, enter.
  destruct (isProcessing a) eqn:Ep.
  { cbn. erewrite newEffects_app; [|done]. intros H. listed H. }
  case_bool_decide as Hprompt.
  { cbn. erewrite newEffects_app; [|done]. intros H. listed H. }
  unfold onSelection. destruct selection as [text|msg].
  - destruct (_ || _) eqn:Eblank.
    + cbn. erewrite newEffects_app; [|cbn; by rewrite <- app_assoc].
      intros H. listed H.
    + unfold onResponse. destruct llm as [[response|]|msg].
      * unfold onApplied.
        destruct trackingAvailable, applied as [[]|msg]; cbn [fst];
          (erewrite newEffects_app; [|cbn; by rewrite <- !app_assoc]);
          cbn [app]; intros H; listed H; injection H as ->;
          (split; [done|]); (split; [done|]);
          eexists [_; _; _; _; _; _], _, _, _, [_];
          (split; [reflexivity|]);
          (split; [repeat (apply Forall_cons; split; [by intros ?|])|
                   apply Forall_singleton; by intros ?]);
          by constructor.
      * cbn. erewrite newEffects_app; [|cbn; by rewrite <- !app_assoc].
        intros H. listed H.
      * cbn. erewrite newEffects_app; [|cbn; by rewrite <- !app_assoc].
        intros H. listed H.
  - cbn. erewrite newEffects_app; [|cbn; by rewrite <- app_assoc].
    intros H. listed H.
Qed.

(** A review whose strategy fails: tracking was switched on and stays
    on. *)
Lemma tracking_mode_set_once_witness :
  let a' := handleReviewSelection
              {| trackChangesEnabled := true; lineDiffEnabled := false |} true
              initialApp (str "Fix") (Resolved (str "old"))
              (Resolved (Some (str "new"))) (Rejected (str "GeneralException")) in
  exists before after,
    newEffects initialApp a'
    = before ++ [AssignChangeTracking trackAll;
                 ApplyStrategy TokenMapStrategy (str "old") (str "new")]
      ++ after
    /\ Forall (fun e => ~ mutates e) after.
Proof.
  intros a'.
  assert (Hin : AssignChangeTracking trackAll ∈ newEffects initialApp a').
  { vm_compute. repeat (first [apply list_elem_of_here|apply list_elem_of_further]). }
  destruct (tracking_mode_set_once _ _ _ _ _ _ _ _ Hin)
    as (_ & _ & before & s & o & r & after & Heq & _ & Hafter).
  exists before, after. split; [|exact Hafter].
  unfold a'. rewrite Heq. f_equal. f_equal.
  assert (Hs : ApplyStrategy s o r ∈ newEffects initialApp a').
  { unfold a'. rewrite Heq. apply elem_of_app. right. right. left. }
  vm_compute in Hs. listed Hs. by injection Hs as -> -> ->.
Defined.
